(** * Intrepid2 Polylib: a shallow embedding of [Intrepid2_PolylibDef.hpp]

    The serial Polylib routines (Jacobi polynomials, their zeros, Gauss-type
    cubature rules, differentiation matrices, Lagrangian interpolants and
    interpolation matrices) are embedded as Rocq functions over IEEE binary64
    numbers ([PrimFloat.float], the C++ [double]).

    Conventions of the embedding.
    - [ordinal_type] (a C++ [int]) is [Z]; the int-to-double conversions the
      C++ compiler inserts are written [dbl k].
    - A rank-1 Kokkos view is a total function [Z -> float] together with the
      functional update [upd]; a rank-2 view is [Z -> Z -> float].  A view that
      may be the null view (its [data()] is the null pointer) is an
      [option view].  Extents are not part of the model: an access outside the
      extent is undefined behaviour in the source and is simply another slot
      here.  The views a routine is handed are distinct storage, as they are
      at every call in the file; where the source makes one view a subview of
      another ([z_plus_1], [pd_plus_1], the last row of [D]) the embedding
      reads and writes the enclosing view.
    - [Util<value_type>::abs] and [sqrt] on [double] are [PrimFloat.abs] and
      the correctly rounded [PrimFloat.sqrt].
    - The calls inside one expression are taken from left to right.  C++
      leaves their order open; the calls concerned ([GammaFunction], [pow])
      have no effect on each other, so the order decides only which failure
      is met first when several operands fail.
    - [INTREPID2_TEST_FOR_ABORT] prints and calls [Kokkos::abort]; a routine
      that can reach it returns a [result], whose [Aborted] constructor carries
      the kind of failure.  [Undefined] marks C++ undefined behaviour the
      routines can reach on their arguments (a double-to-int cast out of
      range, a counter decremented past [INT_MIN]).
    - [cos] and [pow] of libm, and the constants [MaxPolylibPoint],
      [MaxPolylibIteration], [tolerence()] and the template flag
      [DeflationEnabled], which are declared in [Intrepid2_Polylib.hpp], are
      parameters of the development. *)

From Stdlib Require Import ZArith Lia List Bool Permutation Sorted FinFun.
From Stdlib Require Import Floats.
Import ListNotations.

Local Open Scope Z_scope.
Set Default Proof Using "Type".

(* ------------------------------------------------------------------ *)
(** ** Results of routines that may abort *)

(** Modelled from the spec: the macro [INTREPID2_TEST_FOR_ABORT(test, msg)] is
    defined in [Intrepid2_Utils.hpp], which is not among the sources.  By the
    spec every failure it signals is a fatal, unrecoverable abort, of one of
    four kinds; the message each call passes is given beside its kind. *)
Inductive abort_kind : Set :=
| InvalidDomain            (* "Argument is not of integer or half order." *)
| OrderExceeded            (* "Requested order exceeds maxOrder ." *)
| IterationLimitExceeded   (* "Too many iterations in TQLI." *)
| Misuse.                  (* "polyi view needed to compute polyd view." *)

Inductive result (A : Type) : Type :=
| Ok (a : A)
| Aborted (k : abort_kind)
| Undefined.

Arguments Ok {A} a.
Arguments Aborted {A} k.
Arguments Undefined {A}.

(** What a routine that returned left, seen through [f]. *)
Definition result_value {A B : Type} (f : A -> B) (r : result A) : option B :=
  match r with
  | Ok a => Some (f a)
  | _ => None
  end.

(** What a routine that returned left, and [a] when it did not return. *)
Definition result_or {A : Type} (a : A) (r : result A) : A :=
  match r with
  | Ok x => x
  | _ => a
  end.

Definition bind {A B : Type} (c : result A) (f : A -> result B) : result B :=
  match c with
  | Ok a => f a
  | Aborted k => Aborted k
  | Undefined => Undefined
  end.

Notation "x <- c ;; k" := (bind c (fun x => k))
  (at level 61, c at next level, right associativity).
Notation "' p <- c ;; k" := (bind c (fun x => let 'p := x in k))
  (at level 61, p pattern, c at next level, right associativity).

(* ------------------------------------------------------------------ *)
(** ** Views *)

Definition view : Type := Z -> float.
Definition matrix : Type := Z -> Z -> float.

Definition upd (v : view) (i : Z) (x : float) : view :=
  fun j => if j =? i then x else v j.

Definition upd2 (D : matrix) (i j : Z) (x : float) : matrix :=
  fun r c => if (r =? i) && (c =? j) then x else D r c.

(** [Kokkos::subview(v, pair(lo, v.extent(0)))]: the same storage seen from
    index [lo] on.  [subview_from] is what the callee reads, [subview_store]
    puts what the callee left in its view back at its place in [v]. *)
Definition subview_from (v : view) (lo : Z) : view :=
  fun i => v (i + lo).

Definition subview_store (v : view) (lo : Z) (s : view) : view :=
  fun i => if i <? lo then v i else s (i - lo).

(** [Kokkos::subview(D, r, pair(0, np))]: row [r] of [D]. *)
Definition row_store (D : matrix) (r : Z) (s : view) : matrix :=
  fun i => if i =? r then s else D i.

(** The entries [0 .. n-1] of a view, in order. *)
Definition entries (v : view) (n : Z) : list float :=
  map (fun i => v (Z.of_nat i)) (seq 0 (Z.to_nat n)).

(* ------------------------------------------------------------------ *)
(** ** Counted loops *)

(** [for (i = lo; i < hi; ++i) body] over a state of type [St]. *)
Fixpoint for_up {St : Type} (cnt : nat) (i : Z) (body : Z -> St -> St) (s : St) : St :=
  match cnt with
  | O => s
  | S c => for_up c (i + 1) body (body i s)
  end.

Definition for_range {St : Type} (lo hi : Z) (body : Z -> St -> St) (s : St) : St :=
  for_up (Z.to_nat (hi - lo)) lo body s.

(** [for (i = hi; i >= lo; i--) body]. *)
Fixpoint for_down {St : Type} (cnt : nat) (i : Z) (body : Z -> St -> St) (s : St) : St :=
  match cnt with
  | O => s
  | S c => for_down c (i - 1) body (body i s)
  end.

Definition for_range_down {St : Type} (hi lo : Z) (body : Z -> St -> St) (s : St) : St :=
  for_down (Z.to_nat (hi - lo + 1)) hi body s.

(** The same loop when the body can abort. *)
Fixpoint for_upM {St : Type} (cnt : nat) (i : Z) (body : Z -> St -> result St) (s : St)
  : result St :=
  match cnt with
  | O => Ok s
  | S c => s' <- body i s ;; for_upM c (i + 1) body s'
  end.

Definition for_rangeM {St : Type} (lo hi : Z) (body : Z -> St -> result St) (s : St)
  : result St :=
  for_upM (Z.to_nat (hi - lo)) lo body s.

(* ------------------------------------------------------------------ *)
(** ** [int] and [double] *)

Definition INT_MIN : Z := - 2147483648.
Definition INT_MAX : Z := 2147483647.

(** The implicit conversion of an [int] to [double] (exact on 32-bit ints). *)
Definition dbl (k : Z) : float :=
  if k <? 0 then PrimFloat.opp (of_uint63 (Uint63.of_Z (- k)))
  else of_uint63 (Uint63.of_Z k).

(** [(ordinal_type) x]: truncation toward zero; undefined ([None]) when the
    truncated value is not an [int], in particular on infinities and NaN. *)
Definition trunc_double (x : float) : option Z :=
  match Prim2SF x with
  | S754_zero _ => Some 0
  | S754_finite s m e =>
      let a := if 0 <=? e then Z.pos m * 2 ^ e else Z.pos m / 2 ^ (- e) in
      Some (if s then - a else a)
  | S754_infinity _ | S754_nan => None
  end.

Definition ordinal_of_double (x : float) : option Z :=
  match trunc_double x with
  | Some k => if (INT_MIN <=? k) && (k <=? INT_MAX) then Some k else None
  | None => None
  end.

Definition M_PI : float := 0x1.921fb54442d18p+1%float.

Definition zero_view : view := fun _ => 0%float.

(* ------------------------------------------------------------------ *)
(** ** [Polylib::Serial::GammaFunction] *)

Module Gamma.
Local Open Scope float_scope.

(** [while (n--) { tmp -= 1.0; gamma *= tmp; }].  The counter is tested, then
    decremented.  From [0 <= n] the loop makes [n] rounds and [n+1] tests; the
    fuel [S (Z.to_nat n)] is exactly that.  From a negative [n] the counter
    runs down past [INT_MIN], which is undefined: the fuel is then spent
    before the test can succeed. *)
Fixpoint while_post_dec (fuel : nat) (n : Z) (tmp gamma : float) : result float :=
  match fuel with
  | O => Undefined
  | S f =>
      if (n =? 0)%Z then Ok gamma
      else
        let tmp' := tmp - 1.0 in
        while_post_dec f (n - 1)%Z tmp' (gamma * tmp')
  end.

(** [while (--n) { tmp -= 1.0; gamma *= tmp; }].  The counter is decremented,
    then tested: [n-1] rounds and [n] tests from [1 <= n], undefined from
    [n <= 0]. *)
Fixpoint while_pre_dec (fuel : nat) (n : Z) (tmp gamma : float) : result float :=
  match fuel with
  | O => Undefined
  | S f =>
      let n' := (n - 1)%Z in
      if (n' =? 0)%Z then Ok gamma
      else
        let tmp' := tmp - 1.0 in
        while_pre_dec f n' tmp' (gamma * tmp')
  end.

Definition GammaFunction (x : float) : result float :=
  if x =? -0.5 then Ok (-2.0 * sqrt M_PI)
  else if x =? 0.0 then Ok 1.0
  else
    match ordinal_of_double x with
    | None => Undefined
    | Some n =>
        if (x - dbl n) =? 0.5 then
          while_post_dec (S (Z.to_nat n)) n x (sqrt M_PI)
        else if (x - dbl n) =? 0.0 then
          while_pre_dec (Z.to_nat n) n x 1.0
        else Aborted InvalidDomain
    end.

End Gamma.
Export Gamma.

(* ------------------------------------------------------------------ *)
(** ** The routines that depend on the constants of [Intrepid2_Polylib.hpp] *)

Section Polylib.

Variable cos : float -> float.
Variable pow : float -> float -> float.
Variable MaxPolylibPoint : Z.
Variable MaxPolylibIteration : Z.
Variable tolerence : float.
Variable DeflationEnabled : bool.

Local Open Scope float_scope.

Definition maxOrder : Z := (2 * MaxPolylibPoint - 1)%Z.

Definition is_null (v : option view) : bool :=
  match v with Some _ => false | None => true end.

(** [polyi(i) = x] when [polyi.data()] is not null. *)
Definition fill (np : Z) (f : Z -> float) (p : option view) : option view :=
  match p with
  | Some v => Some (for_range 0 np (fun i v => upd v i (f i)) v)
  | None => None
  end.

(** The coefficient tables [a2], [a3], [a4], filled for [k = 2 .. n]. *)
Definition jacobi_coefficients (n : Z) (alpha beta : float) : view * view * view :=
  let apb := alpha + beta in
  let amb := alpha - beta in
  for_range 2 (n + 1)
    (fun k '(a2, a3, a4) =>
       let a1 := 2.0 * dbl k * (dbl k + apb) * (2.0 * dbl k + apb - 2.0) in
       (upd a2 (k - 2) ((2.0 * dbl k + apb - 1.0) * (apb * amb) / a1),
        upd a3 (k - 2)
          ((2.0 * dbl k + apb - 2.0) * (2.0 * dbl k + apb - 1.0) * (2.0 * dbl k + apb) / a1),
        upd a4 (k - 2)
          (2.0 * (dbl k + alpha - 1.0) * (dbl k + beta - 1.0) * (2.0 * dbl k + apb) / a1)))
    (zero_view, zero_view, zero_view).

(** The recurrence at one point: [(polyn0, polyn1, polyn2)] after the loop over
    [k = 1 .. n-2]. *)
Definition jacobi_recurrence (a2 a3 a4 : view) (n : Z) (alpha beta z_i : float)
  : float * float * float :=
  let apb := alpha + beta in
  let amb := alpha - beta in
  let polyn2 := 1.0 in
  let polyn1 := 0.5 * (amb + (apb + 2.0) * z_i) in
  let polyn0 := (a2 0%Z + a3 0%Z * z_i) * polyn1 - a4 0%Z * polyn2 in
  for_range 1 (n - 1)
    (fun k '(polyn0, polyn1, polyn2) =>
       let polyn2 := polyn1 in
       let polyn1 := polyn0 in
       ((a2 k + a3 k * z_i) * polyn1 - a4 k * polyn2, polyn1, polyn2))
    (polyn0, polyn1, polyn2).

(** [ad1], [ad2], [ad3]: left at [0.0] when [polyd.data()] is null. *)
Definition derivative_coefficients (n : Z) (alpha beta : float) (polyd_null : bool)
  : float * float * float :=
  if polyd_null then (0.0, 0.0, 0.0)
  else
    let ad4 := 2.0 * dbl n + alpha + beta in
    (dbl n * (alpha - beta) / ad4,
     dbl n * (2.0 * dbl n + alpha + beta) / ad4,
     2.0 * (dbl n + alpha) * (dbl n + beta) / ad4).

Definition JacobiPolynomial (np : Z) (z : view) (polyi polyd : option view)
    (n : Z) (alpha beta : float) : result (option view * option view) :=
  if (np =? 0)%Z then Ok (polyi, polyd)
  else if (n =? 0)%Z then
    Ok (fill np (fun _ => 1.0) polyi, fill np (fun _ => 0.0) polyd)
  else if (n =? 1)%Z then
    Ok (fill np (fun i => 0.5 * (alpha - beta + (alpha + beta + 2.0) * z i)) polyi,
        fill np (fun _ => 0.5 * (alpha + beta + 2.0)) polyd)
  else
    (* INTREPID2_TEST_FOR_ABORT(polyd.data() && !polyd.data(), ...) *)
    if negb (is_null polyd) && is_null polyd then Aborted Misuse
    else
      match polyi with
      | None => Ok (polyi, polyd)
      | Some pi =>
          if (maxOrder <? n)%Z then Aborted OrderExceeded
          else
            let '(a2, a3, a4) := jacobi_coefficients n alpha beta in
            let '(ad1, ad2, ad3) :=
              derivative_coefficients n alpha beta (is_null polyd) in
            let '(pi', pd') :=
              for_range 0 np
                (fun i '(pi, pd) =>
                   let z_i := z i in
                   let '(polyn0, polyn1, _) :=
                     jacobi_recurrence a2 a3 a4 n alpha beta z_i in
                   let pd :=
                     match pd with
                     | Some v =>
                         Some (upd v i ((ad1 - ad2 * z_i) * polyn0
                                        + ad3 * polyn1 / (1.0 - z_i * z_i)))
                     | None => None
                     end in
                   (upd pi i polyn0, pd))
                (pi, polyd) in
            Ok (Some pi', pd')
      end.

(** [polyd] is written through unconditionally, so it is a view with storage;
    the null case of the callee's answer cannot occur and stands for the null
    dereference. *)
Definition JacobiPolynomialDerivative (np : Z) (z : view) (polyd : view)
    (n : Z) (alpha beta : float) : result view :=
  if (n =? 0)%Z then Ok (for_range 0 np (fun i v => upd v i 0.0) polyd)
  else
    r <- JacobiPolynomial np z (Some polyd) None (n - 1) (alpha + 1.0) (beta + 1.0) ;;
    match fst r with
    | Some p =>
        Ok (for_range 0 np
              (fun i v => upd v i (v i * (0.5 * (alpha + beta + dbl n + 1.0)))) p)
    | None => Undefined
    end.

(* ------------------------------------------------------------------ *)
(** *** [TriQL] *)

(** [for (m = l; m < n-1; ++m) { dd = ...; if (|e(m)| + dd == dd) break; }]:
    the value of [m] when the loop is left. *)
Fixpoint find_m (cnt : nat) (m : Z) (d e : view) : Z :=
  match cnt with
  | O => m
  | S c =>
      let dd := abs (d m) + abs (d (m + 1)%Z) in
      if abs (e m) + dd =? dd then m else find_m c (m + 1)%Z d e
  end.

(** The state of the rotation loop [for (i = m-1; i >= l; i--)]. *)
Record rot_state : Type := mkRot {
  rot_d : view; rot_e : view;
  rot_s : float; rot_c : float; rot_p : float; rot_g : float
}.

Definition rotation (i : Z) (st : rot_state) : rot_state :=
  let '(mkRot d e s c p g) := st in
  let f := s * e i in
  let b := c * e i in
  let '(e, s, c) :=
    if abs g <=? abs f then
      let c := g / f in
      let r := sqrt (c * c + 1.0) in
      let e := upd e (i + 1) (f * r) in
      let s := 1.0 / r in
      (e, s, c * s)
    else
      let s := f / g in
      let r := sqrt (s * s + 1.0) in
      let e := upd e (i + 1) (g * r) in
      let c := 1.0 / r in
      (e, s * c, c) in
  let g := d (i + 1)%Z - p in
  let r := (d i - g) * s + 2.0 * c * b in
  let p := s * r in
  let d := upd d (i + 1) (g + p) in
  let g := c * r - b in
  mkRot d e s c p g.

(** One pass of the [do] body once [m != l] and the iteration test passed. *)
Definition ql_sweep (l m : Z) (d e : view) : view * view :=
  let g := (d (l + 1)%Z - d l) / (2.0 * e l) in
  let r := sqrt (g * g + 1.0) in
  let g := d m - d l + e l / (g + (if g <? 0.0 then - abs r else abs r)) in
  let st := for_range_down (m - 1) l rotation (mkRot d e 1.0 1.0 0.0 g) in
  let d := upd (rot_d st) l (rot_d st l - rot_p st) in
  let e := upd (rot_e st) l (rot_g st) in
  let e := upd e m 0.0 in
  (d, e).

(** [do { ... } while (m != l)] for one [l].  [iter] counts the passes; the
    test [iter++ == MaxPolylibIteration] aborts the pass after the
    [MaxPolylibIteration]-th.  The fuel is the number of passes still allowed
    (the constant is a positive one). *)
Fixpoint ql_row (fuel : nat) (iter l n : Z) (d e : view) : result (view * view) :=
  let m := find_m (Z.to_nat (n - 1 - l)) l d e in
  if (m =? l)%Z then Ok (d, e)
  else if (iter =? MaxPolylibIteration)%Z then Aborted IterationLimitExceeded
  else
    match fuel with
    | O => Undefined
    | S f => let '(d', e') := ql_sweep l m d e in ql_row f (iter + 1) l n d' e'
    end.

(** The reduction phase: the loop over [l]. *)
Definition TriQL_reduce (d e : view) (n : Z) : result (view * view) :=
  for_rangeM 0 n
    (fun l '(d, e) => ql_row (Z.to_nat MaxPolylibIteration) 0 l n d e) (d, e).

(** The inner loop of the ordering pass: [(k, p)] after the scan of
    [l = i+1 .. n-1]. *)
Definition select_min (d : view) (i n : Z) : Z * float :=
  for_range (i + 1) n
    (fun l '(k, p) => if d l <? p then (l, d l) else (k, p)) (i, d i).

(** The ordering pass ("order eigenvalues"). *)
Definition TriQL_order (d : view) (n : Z) : view :=
  for_range 0 (n - 1)
    (fun i d => let '(k, p) := select_min d i n in upd (upd d k (d i)) i p) d.

Definition TriQL (d e : view) (n : Z) : result (view * view) :=
  '(d, e) <- TriQL_reduce d e n ;;
  Ok (TriQL_order d n, e).

(* ------------------------------------------------------------------ *)
(** *** [JacobiZeros] *)

(** The state of the Newton loop: the one-entry views [r], [poly], [pder]
    and the loop counter [j]. *)
Record newton_state : Type := mkNewton {
  nw_r : float; nw_poly : view; nw_pder : view; nw_j : Z
}.

(** The body of the Newton loop up to [r(0) += delr]: the new state and
    [delr]. *)
Definition newton_step (z : view) (k n : Z) (alpha beta : float) (st : newton_state)
  : result (newton_state * float) :=
  let '(mkNewton r poly pder j) := st in
  pp <- JacobiPolynomial 1 (fun _ => r) (Some poly) (Some pder) n alpha beta ;;
  match pp with
  | (Some poly, Some pder) =>
      let sum := for_range 0 k (fun i sum => sum + 1.0 / (r - z i)) 0.0 in
      let delr := - poly 0%Z / (pder 0%Z - sum * poly 0%Z) in
      Ok (mkNewton (r + delr) poly pder j, delr)
  | _ => Undefined
  end.

(** [for (j = 1; j < MaxPolylibIteration; ++j) { ...; if (|delr| < tol) break; }]:
    the state when the loop is left ([nw_j] is the value [j] has then). *)
Fixpoint newton_loop (cnt : nat) (z : view) (k n : Z) (alpha beta : float)
    (st : newton_state) : result newton_state :=
  match cnt with
  | O => Ok st
  | S c =>
      '(st', delr) <- newton_step z k n alpha beta st ;;
      if abs delr <? tolerence then Ok st'
      else newton_loop c z k n alpha beta
             (mkNewton (nw_r st') (nw_poly st') (nw_pder st') (nw_j st' + 1))
  end.

Definition newton (z : view) (k n : Z) (alpha beta : float) (r : float)
  : result newton_state :=
  newton_loop (Z.to_nat (MaxPolylibIteration - 1)) z k n alpha beta
    (mkNewton r zero_view zero_view 1).

(** The starting point of the iteration for root [k]. *)
Definition initial_guess (k n : Z) (rlast : float) : float :=
  let dth := M_PI / (2.0 * dbl n) in
  let r := - cos ((2.0 * dbl k + 1.0) * dth) in
  if (k =? 0)%Z then r else 0.5 * (r + rlast).

(** The body of the loop over [k]: the state is [z] and [rlast]. *)
Definition deflation_root (n : Z) (alpha beta : float) (k : Z) (zr : view * float)
  : result (view * float) :=
  let '(z, rlast) := zr in
  st <- newton z k n alpha beta (initial_guess k n rlast) ;;
  Ok (upd z k (nw_r st), nw_r st).

Definition JacobiZerosPolyDeflation (z : view) (n : Z) (alpha beta : float)
  : result view :=
  if (n =? 0)%Z then Ok z
  else
    zr <- for_rangeM 0 n (deflation_root n alpha beta) (z, 0.0) ;;
    Ok (fst zr).

(** The local [b_buf[MaxPolylibPoint]] starts as [zero_view]; every entry that
    is read is written first.  Its extent, like that of every view, is not
    part of the model: for [n] above [MaxPolylibPoint] (or below 0) the source
    writes [b(n-1)] outside the buffer, which is undefined there and another
    slot here. *)
Definition JacobiZerosTriDiagonal (a : view) (n : Z) (alpha beta : float)
  : result view :=
  if (n =? 0)%Z then Ok a
  else
    let b := zero_view in
    let apb := alpha + beta in
    let apbi := 2.0 + apb in
    g1 <- GammaFunction (alpha + 1.0) ;;
    g2 <- GammaFunction (beta + 1.0) ;;
    g3 <- GammaFunction apbi ;;
    let b := upd b (n - 1) (pow 2.0 (apb + 1.0) * g1 * g2 / g3) in
    let a := upd a 0 ((beta - alpha) / apbi) in
    let b := upd b 0
               (sqrt (4.0 * (1.0 + alpha) * (1.0 + beta) / ((apbi + 1.0) * apbi * apbi))) in
    let a2b2 := beta * beta - alpha * alpha in
    let '(a, b) :=
      for_range 1 (n - 1)
        (fun i '(a, b) =>
           let apbi := 2.0 * dbl (i + 1) + apb in
           (upd a i (a2b2 / ((apbi - 2.0) * apbi)),
            upd b i
              (sqrt (4.0 * dbl (i + 1) * (dbl (i + 1) + alpha) * (dbl (i + 1) + beta)
                     * (dbl (i + 1) + apb) / ((apbi * apbi - 1.0) * apbi * apbi)))))
        (a, b) in
    let apbi := 2.0 * dbl n + apb in
    let a := if (1 <? n)%Z then upd a (n - 1) (a2b2 / ((apbi - 2.0) * apbi)) else a in
    ab <- TriQL a b n ;;
    Ok (fst ab).

Definition JacobiZeros (z : view) (n : Z) (alpha beta : float) : result view :=
  if DeflationEnabled then JacobiZerosPolyDeflation z n alpha beta
  else JacobiZerosTriDiagonal z n alpha beta.

(* ------------------------------------------------------------------ *)
(** *** Points and weights: [Cubature<polyType>::getValues] *)

Inductive EPolyType : Set :=
| POLYTYPE_GAUSS
| POLYTYPE_GAUSS_RADAU_LEFT
| POLYTYPE_GAUSS_RADAU_RIGHT
| POLYTYPE_GAUSS_LOBATTO.

(** The value view the cubature rules hand to [JacobiPolynomial] has storage,
    so the routine gives it back; [None] stands for the null dereference. *)
Definition value_view (r : option view * option view) : result view :=
  match fst r with
  | Some v => Ok v
  | None => Undefined
  end.

Definition Cubature_Gauss (z w : view) (np : Z) (alpha beta : float)
  : result (view * view) :=
  let apb := alpha + beta in
  z <- JacobiZeros z np alpha beta ;;
  w <- JacobiPolynomialDerivative np z w np alpha beta ;;
  g1 <- GammaFunction (alpha + dbl np + 1.0) ;;
  g2 <- GammaFunction (beta + dbl np + 1.0) ;;
  let fac := pow 2.0 (apb + 1.0) * g1 * g2 in
  g3 <- GammaFunction (dbl np + 1.0) ;;
  g4 <- GammaFunction (apb + dbl np + 1.0) ;;
  let fac := fac / (g3 * g4) in
  Ok (z, for_range 0 np
           (fun i w => upd w i (fac / (w i * w i * (1.0 - z i * z i)))) w).

Definition Cubature_GaussRadauLeft (z w : view) (np : Z) (alpha beta : float)
  : result (view * view) :=
  if (np =? 1)%Z then Ok (upd z 0 0.0, upd w 0 2.0)
  else
    let apb := alpha + beta in
    let z := upd z 0 (- 1.0) in
    z_plus_1 <- JacobiZeros (subview_from z 1) (np - 1) alpha (beta + 1.0) ;;
    let z := subview_store z 1 z_plus_1 in
    pw <- JacobiPolynomial np z (Some w) None (np - 1) alpha beta ;;
    w <- value_view pw ;;
    g1 <- GammaFunction (alpha + dbl np) ;;
    g2 <- GammaFunction (beta + dbl np) ;;
    let fac := pow 2.0 apb * g1 * g2 in
    g3 <- GammaFunction (dbl np) ;;
    g4 <- GammaFunction (apb + dbl np + 1.0) ;;
    let fac := fac / (g3 * (beta + dbl np) * g4) in
    let w := for_range 0 np (fun i w => upd w i (fac * (1.0 - z i) / (w i * w i))) w in
    Ok (z, upd w 0 (w 0%Z * (beta + 1.0))).

Definition Cubature_GaussRadauRight (z w : view) (np : Z) (alpha beta : float)
  : result (view * view) :=
  if (np =? 1)%Z then Ok (upd z 0 0.0, upd w 0 2.0)
  else
    let apb := alpha + beta in
    z <- JacobiZeros z (np - 1) (alpha + 1.0) beta ;;
    let z := upd z (np - 1) 1.0 in
    pw <- JacobiPolynomial np z (Some w) None (np - 1) alpha beta ;;
    w <- value_view pw ;;
    g1 <- GammaFunction (alpha + dbl np) ;;
    g2 <- GammaFunction (beta + dbl np) ;;
    let fac := pow 2.0 apb * g1 * g2 in
    g3 <- GammaFunction (dbl np) ;;
    g4 <- GammaFunction (apb + dbl np + 1.0) ;;
    let fac := fac / (g3 * (alpha + dbl np) * g4) in
    let w := for_range 0 np (fun i w => upd w i (fac * (1.0 + z i) / (w i * w i))) w in
    Ok (z, upd w (np - 1) (w (np - 1)%Z * (alpha + 1.0))).

(** The normalisation constant [fac] of the Lobatto rule. *)
Definition lobatto_fac (np : Z) (alpha beta : float) : result float :=
  let apb := alpha + beta in
  g1 <- GammaFunction (alpha + dbl np) ;;
  g2 <- GammaFunction (beta + dbl np) ;;
  let fac := pow 2.0 (apb + 1.0) * g1 * g2 in
  g3 <- GammaFunction (dbl np) ;;
  g4 <- GammaFunction (alpha + beta + dbl np + 1.0) ;;
  Ok (fac / (dbl (np - 1) * g3 * g4)).

Definition Cubature_GaussLobatto (z w : view) (np : Z) (alpha beta : float)
  : result (view * view) :=
  if (np =? 1)%Z then Ok (upd z 0 0.0, upd w 0 2.0)
  else
    let z := upd z 0 (- 1.0) in
    let z := upd z (np - 1) 1.0 in
    z_plus_1 <- JacobiZeros (subview_from z 1) (np - 2) (alpha + 1.0) (beta + 1.0) ;;
    let z := subview_store z 1 z_plus_1 in
    pw <- JacobiPolynomial np z (Some w) None (np - 1) alpha beta ;;
    w <- value_view pw ;;
    fac <- lobatto_fac np alpha beta ;;
    let w := for_range 0 np (fun i w => upd w i (fac / (w i * w i))) w in
    let w := upd w 0 (w 0%Z * (beta + 1.0)) in
    Ok (z, upd w (np - 1) (w (np - 1)%Z * (alpha + 1.0))).

Definition Cubature_getValues (t : EPolyType) : view -> view -> Z -> float -> float
                                                 -> result (view * view) :=
  match t with
  | POLYTYPE_GAUSS => Cubature_Gauss
  | POLYTYPE_GAUSS_RADAU_LEFT => Cubature_GaussRadauLeft
  | POLYTYPE_GAUSS_RADAU_RIGHT => Cubature_GaussRadauRight
  | POLYTYPE_GAUSS_LOBATTO => Cubature_GaussLobatto
  end.

(* ------------------------------------------------------------------ *)
(** *** Differentiation matrices: [Derivative<polyType>::getValues] *)

(** The derivative weights [pd(0 .. np-1)] of each family, written into the
    view [pd] the routine is given. *)
Definition pd_Gauss (np : Z) (z : view) (alpha beta : float) (pd : view)
  : result view :=
  JacobiPolynomialDerivative np z pd np alpha beta.

Definition pd_GaussRadauLeft (np : Z) (z : view) (alpha beta : float) (pd : view)
  : result view :=
  g1 <- GammaFunction (dbl np + beta + 1.0) ;;
  g2 <- GammaFunction (dbl np) ;;
  g3 <- GammaFunction (beta + 2.0) ;;
  let pd := upd pd 0 (pow (- 1.0) (dbl (np - 1)) * g1 / (g2 * g3)) in
  pd_plus_1 <- JacobiPolynomialDerivative (np - 1) (subview_from z 1)
                 (subview_from pd 1) (np - 1) alpha (beta + 1.0) ;;
  let pd := subview_store pd 1 pd_plus_1 in
  Ok (for_range 1 np (fun i pd => upd pd i (pd i * (1.0 + z i))) pd).

Definition pd_GaussRadauRight (np : Z) (z : view) (alpha beta : float) (pd : view)
  : result view :=
  pd <- JacobiPolynomialDerivative (np - 1) z pd (np - 1) (alpha + 1.0) beta ;;
  let pd := for_range 0 (np - 1) (fun i pd => upd pd i (pd i * (1.0 - z i))) pd in
  g1 <- GammaFunction (dbl np + alpha + 1.0) ;;
  g2 <- GammaFunction (dbl np) ;;
  g3 <- GammaFunction (alpha + 2.0) ;;
  Ok (upd pd (np - 1) (- g1 / (g2 * g3))).

Definition pd_GaussLobatto (np : Z) (z : view) (alpha beta : float) (pd : view)
  : result view :=
  g1 <- GammaFunction (dbl np + beta) ;;
  let pd := upd pd 0 (2.0 * pow (- 1.0) (dbl np) * g1) in
  g2 <- GammaFunction (dbl np - 1.0) ;;
  g3 <- GammaFunction (beta + 2.0) ;;
  let pd := upd pd 0 (pd 0%Z / (g2 * g3)) in
  pd_plus_1 <- JacobiPolynomialDerivative (np - 2) (subview_from z 1)
                 (subview_from pd 1) (np - 2) (alpha + 1.0) (beta + 1.0) ;;
  let pd := subview_store pd 1 pd_plus_1 in
  let pd := for_range 1 (np - 1)
              (fun i pd => let z_i := z i in upd pd i (pd i * (1.0 - z_i * z_i))) pd in
  g4 <- GammaFunction (dbl np + alpha) ;;
  let pd := upd pd (np - 1) (- 2.0 * g4) in
  g5 <- GammaFunction (dbl np - 1.0) ;;
  g6 <- GammaFunction (alpha + 2.0) ;;
  Ok (upd pd (np - 1) (pd (np - 1)%Z / (g5 * g6))).

Definition derivative_weights (t : EPolyType) : Z -> view -> float -> float -> view
                                                 -> result view :=
  match t with
  | POLYTYPE_GAUSS => pd_Gauss
  | POLYTYPE_GAUSS_RADAU_LEFT => pd_GaussRadauLeft
  | POLYTYPE_GAUSS_RADAU_RIGHT => pd_GaussRadauRight
  | POLYTYPE_GAUSS_LOBATTO => pd_GaussLobatto
  end.

(** The diagonal entry [D(i,i)] of each family, from [i] and [z_i = z(i)]. *)
Definition diagonal (t : EPolyType) (np : Z) (alpha beta : float) (i : Z) (z_i : float)
  : float :=
  match t with
  | POLYTYPE_GAUSS =>
      (alpha - beta + (alpha + beta + 2.0) * z_i) / (2.0 * (1.0 - z_i * z_i))
  | POLYTYPE_GAUSS_RADAU_LEFT =>
      if (i =? 0)%Z then
        - (dbl np + alpha + beta + 1.0) * (dbl np - 1.0) / (2.0 * (beta + 2.0))
      else
        (alpha - beta + 1.0 + (alpha + beta + 1.0) * z_i) / (2.0 * (1.0 - z_i * z_i))
  | POLYTYPE_GAUSS_RADAU_RIGHT =>
      if (i =? np - 1)%Z then
        (dbl np + alpha + beta + 1.0) * (dbl np - 1.0) / (2.0 * (alpha + 2.0))
      else
        (alpha - beta - 1.0 + (alpha + beta + 1.0) * z_i) / (2.0 * (1.0 - z_i * z_i))
  | POLYTYPE_GAUSS_LOBATTO =>
      if (i =? 0)%Z then
        (alpha - dbl (np - 1) * (dbl np + alpha + beta)) / (2.0 * (beta + 2.0))
      else if (i =? np - 1)%Z then
        - (beta - dbl (np - 1) * (dbl np + alpha + beta)) / (2.0 * (alpha + 2.0))
      else
        (alpha - beta + (alpha + beta) * z_i) / (2.0 * (1.0 - z_i * z_i))
  end.

(** The loop over [i] and [j < i] that fills the matrix.  [pd] is the view
    [Kokkos::subview(D, np-1, pair(0,np))]: [pd_i] and [pd_j] are references
    into the last row of [D], read from the matrix as it is when the
    statement runs. *)
Definition off_diagonal (np : Z) (z : view) (i j : Z) (D : matrix) : matrix :=
  let pd := fun (D : matrix) (k : Z) => D (np - 1)%Z k in
  let D := upd2 D j i (pd D j / (pd D i * (z j - z i))) in
  upd2 D i j (pd D i / (pd D j * (z i - z j))).

(** The loop over [i], for [i = 0 .. rows-1]. *)
Definition fill_rows (t : EPolyType) (np : Z) (z : view) (alpha beta : float)
    (rows : Z) (D : matrix) : matrix :=
  for_range 0 rows
    (fun i D =>
       let D := for_range 0 i (off_diagonal np z i) D in
       upd2 D i i (diagonal t np alpha beta i (z i)))
    D.

Definition fill_matrix (t : EPolyType) (np : Z) (z : view) (alpha beta : float)
    (D : matrix) : matrix :=
  fill_rows t np z alpha beta np D.

Definition Derivative_getValues (t : EPolyType) (D : matrix) (z : view) (np : Z)
    (alpha beta : float) : result matrix :=
  if (np <=? 0)%Z then Ok (upd2 D 0 0 0.0)
  else
    pd <- derivative_weights t np z alpha beta (D (np - 1)%Z) ;;
    Ok (fill_matrix t np z alpha beta (row_store D (np - 1) pd)).

(* ------------------------------------------------------------------ *)
(** *** Lagrangian interpolants: [LagrangianInterpolant<polyType>::getValue] *)

(** The views [p], [pd], [zi] and [zv] have one entry each, over the locals
    [p_buf], [pd_buf], [zi_buf = zgj(i)] and the argument [z].  [p_buf] and
    [pd_buf] are not initialised in the source; they start as [zero_view]
    here and are written before they are read. *)
Definition Lagrangian_Gauss (i : Z) (z : float) (zgj : view) (np : Z)
    (alpha beta : float) : result float :=
  let zi := zgj i in
  let dz := z - zi in
  if abs dz <? tolerence then Ok 1.0
  else
    pd <- JacobiPolynomialDerivative 1 (fun _ => zi) zero_view np alpha beta ;;
    pp <- JacobiPolynomial 1 (fun _ => z) (Some zero_view) None np alpha beta ;;
    p <- value_view pp ;;
    Ok (p 0%Z / (pd 0%Z * dz)).

Definition Lagrangian_GaussRadauLeft (i : Z) (z : float) (zgrj : view) (np : Z)
    (alpha beta : float) : result float :=
  let zi := zgrj i in
  let dz := z - zi in
  if abs dz <? tolerence then Ok 1.0
  else
    pp <- JacobiPolynomial 1 (fun _ => zi) (Some zero_view) None (np - 1)
            alpha (beta + 1.0) ;;
    p <- value_view pp ;;
    pd <- JacobiPolynomialDerivative 1 (fun _ => zi) zero_view (np - 1)
            alpha (beta + 1.0) ;;
    let h := (1.0 + zi) * pd 0%Z + p 0%Z in
    pp <- JacobiPolynomial 1 (fun _ => z) (Some p) None (np - 1) alpha (beta + 1.0) ;;
    p <- value_view pp ;;
    Ok ((1.0 + z) * p 0%Z / (h * dz)).

Definition Lagrangian_GaussRadauRight (i : Z) (z : float) (zgrj : view) (np : Z)
    (alpha beta : float) : result float :=
  let zi := zgrj i in
  let dz := z - zi in
  if abs dz <? tolerence then Ok 1.0
  else
    pp <- JacobiPolynomial 1 (fun _ => zi) (Some zero_view) None (np - 1)
            (alpha + 1.0) beta ;;
    p <- value_view pp ;;
    pd <- JacobiPolynomialDerivative 1 (fun _ => zi) zero_view (np - 1)
            (alpha + 1.0) beta ;;
    let h := (1.0 - zi) * pd 0%Z - p 0%Z in
    pp <- JacobiPolynomial 1 (fun _ => z) (Some p) None (np - 1) (alpha + 1.0) beta ;;
    p <- value_view pp ;;
    Ok ((1.0 - z) * p 0%Z / (h * dz)).

Definition Lagrangian_GaussLobatto (i : Z) (z : float) (zglj : view) (np : Z)
    (alpha beta : float) : result float :=
  let zi := zglj i in
  let dz := z - zi in
  if abs dz <? tolerence then Ok 1.0
  else
    pp <- JacobiPolynomial 1 (fun _ => zi) (Some zero_view) None (np - 2)
            (alpha + 1.0) (beta + 1.0) ;;
    p <- value_view pp ;;
    pd <- JacobiPolynomialDerivative 1 (fun _ => zi) zero_view (np - 2)
            (alpha + 1.0) (beta + 1.0) ;;
    let h := (1.0 - zi * zi) * pd 0%Z - 2.0 * zi * p 0%Z in
    pp <- JacobiPolynomial 1 (fun _ => z) (Some p) None (np - 2)
            (alpha + 1.0) (beta + 1.0) ;;
    p <- value_view pp ;;
    Ok ((1.0 - z * z) * p 0%Z / (h * dz)).

Definition LagrangianInterpolant_getValue (t : EPolyType)
  : Z -> float -> view -> Z -> float -> float -> result float :=
  match t with
  | POLYTYPE_GAUSS => Lagrangian_Gauss
  | POLYTYPE_GAUSS_RADAU_LEFT => Lagrangian_GaussRadauLeft
  | POLYTYPE_GAUSS_RADAU_RIGHT => Lagrangian_GaussRadauRight
  | POLYTYPE_GAUSS_LOBATTO => Lagrangian_GaussLobatto
  end.

(* ------------------------------------------------------------------ *)
(** *** Interpolation matrices: [InterpolationOperator<polyType>::getMatrix] *)

Definition InterpolationOperator_getMatrix (t : EPolyType) (im : matrix)
    (zgrj zm : view) (nz mz : Z) (alpha beta : float) : result matrix :=
  for_rangeM 0 mz
    (fun i im =>
       let zp := zm i in
       for_rangeM 0 nz
         (fun j im =>
            h <- LagrangianInterpolant_getValue t j zp zgrj nz alpha beta ;;
            Ok (upd2 im i j h))
         im)
    im.

(* ------------------------------------------------------------------ *)
(** *** Reference definitions the theorems compare the routines with *)

(** What [JacobiPolynomial] writes for one point [z_i]: the value [polyi(i)]
    and the term [polyd(i)] (the latter as written when [polyd] has
    storage). *)
Definition jacobi_point (n : Z) (alpha beta z_i : float) : float * float :=
  if (n =? 0)%Z then (1.0, 0.0)
  else if (n =? 1)%Z then
    (0.5 * (alpha - beta + (alpha + beta + 2.0) * z_i), 0.5 * (alpha + beta + 2.0))
  else
    let '(a2, a3, a4) := jacobi_coefficients n alpha beta in
    let '(ad1, ad2, ad3) := derivative_coefficients n alpha beta false in
    let '(polyn0, polyn1, _) := jacobi_recurrence a2 a3 a4 n alpha beta z_i in
    (polyn0, (ad1 - ad2 * z_i) * polyn0 + ad3 * polyn1 / (1.0 - z_i * z_i)).

(** The Newton update of the deflated function at [r], for root [k], with the
    roots [z(0 .. k-1)] already found. *)
Definition newton_delta (z : view) (k n : Z) (alpha beta r : float) : float :=
  let '(poly, pder) := jacobi_point n alpha beta r in
  let sum := for_range 0 k (fun i sum => sum + 1.0 / (r - z i)) 0.0 in
  - poly / (pder - sum * poly).

(** The iterate after [t] updates. *)
Fixpoint newton_iterate (z : view) (k n : Z) (alpha beta : float) (t : nat) (r : float)
  : float :=
  match t with
  | O => r
  | S t' => newton_iterate z k n alpha beta t' (r + newton_delta z k n alpha beta r)
  end.

(** The differentiation matrix computed with the derivative weights kept in a
    buffer [pd] of their own instead of the last row of [D]. *)
Definition off_diagonal_ref (pd z : view) (i j : Z) (D : matrix) : matrix :=
  let D := upd2 D j i (pd j / (pd i * (z j - z i))) in
  upd2 D i j (pd i / (pd j * (z i - z j))).

Definition fill_rows_ref (t : EPolyType) (np : Z) (z : view) (alpha beta : float)
    (pd : view) (rows : Z) (D : matrix) : matrix :=
  for_range 0 rows
    (fun i D =>
       let D := for_range 0 i (off_diagonal_ref pd z i) D in
       upd2 D i i (diagonal t np alpha beta i (z i)))
    D.

Definition fill_matrix_ref (t : EPolyType) (np : Z) (z : view) (alpha beta : float)
    (pd : view) (D : matrix) : matrix :=
  fill_rows_ref t np z alpha beta pd np D.

Definition Derivative_reference (t : EPolyType) (D : matrix) (buffer z : view) (np : Z)
    (alpha beta : float) : result matrix :=
  if (np <=? 0)%Z then Ok (upd2 D 0 0 0.0)
  else
    pd <- derivative_weights t np z alpha beta buffer ;;
    Ok (fill_matrix_ref t np z alpha beta pd D).

(** The matrix as [fill_matrix] has it when the pair [(i, j)] is about to be
    treated: rows [0 .. i-1] done, and the pairs [(i, 0) .. (i, j-1)]. *)
Definition matrix_before (t : EPolyType) (np : Z) (z : view) (alpha beta : float)
    (i j : Z) (D : matrix) : matrix :=
  for_range 0 j (off_diagonal np z i) (fill_rows t np z alpha beta i D).

End Polylib.

(** Two results agree: the same failure, or matrices with the same entries. *)
Definition same_matrix (a b : result matrix) : Prop :=
  match a, b with
  | Ok A, Ok B => forall r c, A r c = B r c
  | Aborted k, Aborted k' => k = k'
  | Undefined, Undefined => True
  | _, _ => False
  end.

(* ------------------------------------------------------------------ *)
(** ** Notions of the specification of [GammaFunction] *)

Module GammaSpec.
Local Open Scope float_scope.

(** [x] has the integer part [n] (an [int]); it is an integer when it is its
    integer part, and a half-integer when it is its integer part plus one
    half.  The subtraction is the one of [double]. *)
Definition integer_part (x : float) (n : Z) : Prop :=
  ordinal_of_double x = Some n.

Definition is_integer (x : float) (n : Z) : Prop :=
  integer_part x n /\ (x - dbl n =? 0.0) = true.

Definition is_half_integer (x : float) (n : Z) : Prop :=
  integer_part x n /\ (x - dbl n =? 0.5) = true.

(** The factors [x-1, x-2, ...], [cnt] of them, each one less than the one
    before it. *)
Fixpoint gamma_factors (cnt : nat) (x : float) : list float :=
  match cnt with
  | O => []
  | S c => (x - 1.0) :: gamma_factors c (x - 1.0)
  end.

(** [k!] as an integer. *)
Fixpoint factorial (k : nat) : Z :=
  match k with
  | O => 1%Z
  | S k' => (Z.of_nat k * factorial k')%Z
  end.

(** The product of the factors, multiplied into [g] one after the other. *)
Definition iterated_product (g : float) (l : list float) : float :=
  fold_left PrimFloat.mul l g.

End GammaSpec.
Export GammaSpec.

(** Ascending order of [double]s. *)
Definition float_le (x y : float) : Prop := (x <=? y)%float = true.

(* ------------------------------------------------------------------ *)
(** ** A configuration to run the routines on *)

Module Sample.
Local Open Scope float_scope.

Definition MaxPolylibPoint : Z := 32.
Definition MaxPolylibIteration : Z := 50.
(** [1.0e-14] *)
Definition tolerence : float := 0x1.6849b86a12b9bp-47.

(** [pow] on the exponents the examples need: whole numbers, by repeated
    multiplication. *)
Fixpoint pow_nat (x : float) (k : nat) : float :=
  match k with
  | O => 1.0
  | S k' => x * pow_nat x k'
  end.

Definition pow (x y : float) : float :=
  match ordinal_of_double y with
  | Some k => if (k <? 0)%Z then 1.0 / pow_nat x (Z.to_nat (- k)) else pow_nat x (Z.to_nat k)
  | None => nan
  end.

(** [cos] by its Taylor polynomial of degree 60. *)
Fixpoint cos_series (k : nat) (i term acc x2 : float) : float :=
  match k with
  | O => acc
  | S k' =>
      let term := - term * x2 / ((i + 1.0) * (i + 2.0)) in
      cos_series k' (i + 2.0) term (acc + term) x2
  end.

Definition cos (x : float) : float := cos_series 30 0.0 1.0 1.0 (x * x).

(** The state of [JacobiZerosPolyDeflation] for degree 5 and
    [(alpha, beta) = (0.5, 1)] when the fifth root is looked for: the four
    roots found, [-0.8175993274098121], [-0.43260840038431037],
    [0.05829076979846807] and [0.5335962093870673], and the starting point
    [0.7423263628411103]. *)
Definition found_roots : view :=
  upd (upd (upd (upd zero_view 0 (-0x1.a29c6108e9d9cp-1)) 1 (-0x1.bafdb24e807fap-2))
         2 0x1.dd849abe2dc05p-5) 3 0x1.113385b92c8e3p-1.

Definition fifth_guess : float := 0x1.7c123376b8ef0p-1.

(** The Gauss-Lobatto nodes [-1, 0, 1]. *)
Definition lobatto3 : view := upd (upd zero_view 0 (-1.0)) 2 1.0.

(** The tridiagonal matrix with diagonal [2, 0, 1] and off-diagonal [1, 1]. *)
Definition diagonal3 : view := upd (upd (upd zero_view 0 2.0) 1 0.0) 2 1.0.
Definition offdiagonal3 : view := upd (upd zero_view 0 1.0) 1 1.0.

End Sample.

(* ------------------------------------------------------------------ *)
(** ** Notions the statements and the proofs use *)

(** Index [j] is one of [0 .. np-1]. *)
Definition in_range (np j : Z) : bool := (0 <=? j) && (j <? np).

(** Inside the range of a counted loop. *)
Definition within (lo : Z) (cnt : nat) (j : Z) : bool :=
  (lo <=? j) && (j <? lo + Z.of_nat cnt).

(** [x] is not a NaN. *)
Definition number (x : float) : Prop := Prim2SF x <> S754_nan.

(** The degree passes the order test, or the test is not reached. *)
Definition degree_in_order (MaxPolylibPoint np n : Z) : bool :=
  (np =? 0) || (n =? 0) || (n =? 1) || (n <=? maxOrder MaxPolylibPoint).

(** What [JacobiPolynomialDerivative] writes for the point [x]. *)
Definition jpd_point (n : Z) (alpha beta x : float) : float :=
  if n =? 0 then 0%float
  else (fst (jacobi_point (n - 1) (alpha + 1) (beta + 1) x)
        * (0.5 * (alpha + beta + dbl n + 1)))%float.

(** Two runs of a routine that fills [pd(0 .. np-1)], from the views [v1] and
    [v2]: the same failure, or the same entries [0 .. np-1] and the others
    left as they were. *)
Definition same_weights (np : Z) (v1 v2 : view) (a b : result view) : Prop :=
  match a, b with
  | Ok p1, Ok p2 =>
      forall j, if in_range np j then p1 j = p2 j else p1 j = v1 j /\ p2 j = v2 j
  | Aborted k, Aborted k' => k = k'
  | Undefined, Undefined => True
  | _, _ => False
  end.

(** The entries written when the pair [(i, j)] is about to be treated. *)
Definition written (i j r c : Z) : bool :=
  in_range i r && in_range i c
  || (r =? i) && in_range j c
  || (c =? i) && in_range j r.

(** The entries of [D] that are the view [pd]. *)
Definition pd_slot (np r c : Z) : bool := (r =? np - 1) && in_range np c.

(** [D1] is the matrix of the routine and [D2] the one of the reference, which
    has the weights in [pd]: they agree on what is written and outside the
    last row, and what is not yet written of the last row holds the
    weights. *)
Definition alias_inv (np : Z) (pd : view) (i j : Z) (D1 D2 : matrix) : Prop :=
  forall r c,
    if written i j r c || negb (pd_slot np r c) then D1 r c = D2 r c
    else D1 r c = pd c.

(** No entry after position [a] is below entry [a], for the positions [a]
    before [i]. *)
Definition ordered_before (n i : Z) (d : view) : Prop :=
  forall a b, 0 <= a < i -> a < b < n -> (d b <? d a)%float = false.

(** Exchanging the entries [i] and [k]. *)
Definition exchange (I K t : nat) : nat :=
  if (t =? I)%nat then K else if (t =? K)%nat then I else t.

(** After the passes for [0 .. l-1], the entries [d(0 .. min(l, n-1))] are
    numbers (for [1 <= l]). *)
Definition reduced_before (n l : Z) (d : view) : Prop :=
  1 <= l -> forall j, 0 <= j -> j <= l -> j <= n - 1 -> number (d j).

(** The test of the search loop of [TriQL] at index [m]:
    [|e(m)| + dd == dd] with [dd = |d(m)| + |d(m+1)|]. *)
Definition negligible (d e : view) (m : Z) : bool :=
  (abs (e m) + (abs (d m) + abs (d (m + 1)%Z)) =? abs (d m) + abs (d (m + 1)%Z))%float.

(** The search loop of [TriQL] for row [l] stops at [l] ([m == l]) in the state
    [(d, e)]: the [do] loop is left. *)
Definition settled (l n : Z) (de : view * view) : bool :=
  find_m (Z.to_nat (n - 1 - l)) l (fst de) (snd de) =? l.

(** The state after [k] passes of the [do] body for row [l] taken one after
    the other from [(d, e)], each with the [m] its search finds. *)
Fixpoint sweeps (k : nat) (l n : Z) (de : view * view) : view * view :=
  match k with
  | O => de
  | S k' =>
      sweeps k' l n
        (ql_sweep l (find_m (Z.to_nat (n - 1 - l)) l (fst de) (snd de)) (fst de) (snd de))
  end.

(** No entry of [d(0 .. n-1)] is below an earlier one. *)
Definition ascending (n : Z) (d : view) : Prop :=
  forall a b, 0 <= a < b -> b < n -> (d b <? d a)%float = false.

(** Two off-diagonals that differ at most in the entry [n-1]. *)
Definition agree (n : Z) (e e' : view) : Prop :=
  forall j, j <> n - 1 -> e j = e' j.

(** Two states of the rotation loop that differ at most in [e(n-1)]. *)
Definition rot_agree (n : Z) (st st' : rot_state) : Prop :=
  rot_d st = rot_d st' /\ agree n (rot_e st) (rot_e st')
  /\ rot_s st = rot_s st' /\ rot_c st = rot_c st'
  /\ rot_p st = rot_p st' /\ rot_g st = rot_g st'.

(** Two results of the reduction phase that differ at most in [e(n-1)]. *)
Definition outcome_agree (n : Z) (a b : result (view * view)) : Prop :=
  match a, b with
  | Ok (d1, e1), Ok (d2, e2) => d1 = d2 /\ agree n e1 e2
  | Aborted k, Aborted k' => k = k'
  | Undefined, Undefined => True
  | _, _ => False
  end.

(** The entry [(r, c)] of a differentiation matrix, from the weights [pd]:
    what the loops of [Derivative<polyType>::getValues] assign to [D(r,c)]. *)
Definition derivative_entry (t : EPolyType) (np : Z) (z : view) (alpha beta : float)
    (pd : view) (r c : Z) : float :=
  if r =? c then diagonal t np alpha beta r (z r)
  else (pd r / (pd c * (z r - z c)))%float.

(** The entries the passes [i0 .. i0+cnt-1] of the loop over [i] assign. *)
Definition filled (i0 : Z) (cnt : nat) (r c : Z) : bool :=
  (0 <=? r) && (0 <=? c) && (i0 <=? Z.max r c) && (Z.max r c <? i0 + Z.of_nat cnt).

(** The degree of the Jacobi polynomial the interpolant of each family
    evaluates. *)
Definition lagrange_degree (t : EPolyType) (np : Z) : Z :=
  match t with
  | POLYTYPE_GAUSS => np
  | POLYTYPE_GAUSS_RADAU_LEFT => np - 1
  | POLYTYPE_GAUSS_RADAU_RIGHT => np - 1
  | POLYTYPE_GAUSS_LOBATTO => np - 2
  end.

(** The quotient [h] that [LagrangianInterpolant<polyType>::getValue] returns
    for the node [zi] at a point [z] away from it. *)
Definition lagrange_value (t : EPolyType) (np : Z) (alpha beta zi z : float) : float :=
  let dz := (z - zi)%float in
  match t with
  | POLYTYPE_GAUSS =>
      (fst (jacobi_point np alpha beta z) / (jpd_point np alpha beta zi * dz))%float
  | POLYTYPE_GAUSS_RADAU_LEFT =>
      let h := ((1 + zi) * jpd_point (np - 1) alpha (beta + 1) zi
                + fst (jacobi_point (np - 1) alpha (beta + 1) zi))%float in
      ((1 + z) * fst (jacobi_point (np - 1) alpha (beta + 1) z) / (h * dz))%float
  | POLYTYPE_GAUSS_RADAU_RIGHT =>
      let h := ((1 - zi) * jpd_point (np - 1) (alpha + 1) beta zi
                - fst (jacobi_point (np - 1) (alpha + 1) beta zi))%float in
      ((1 - z) * fst (jacobi_point (np - 1) (alpha + 1) beta z) / (h * dz))%float
  | POLYTYPE_GAUSS_LOBATTO =>
      let h := ((1 - zi * zi) * jpd_point (np - 2) (alpha + 1) (beta + 1) zi
                - 2 * zi * fst (jacobi_point (np - 2) (alpha + 1) (beta + 1) zi))%float in
      ((1 - z * z) * fst (jacobi_point (np - 2) (alpha + 1) (beta + 1) z) / (h * dz))%float
  end.

(** The value of the interpolant: [1.0] within the tolerance of its node. *)
Definition interpolant (tolerence : float) (t : EPolyType) (np : Z)
    (alpha beta zi z : float) : float :=
  if (abs (z - zi) <? tolerence)%float then 1%float
  else lagrange_value t np alpha beta zi z.

(** *** Tactics *)

Ltac compare_cases :=
  repeat match goal with
    | H : context [Z.compare ?a ?b] |- _ =>
        destruct (Z.compare_spec a b); try discriminate; subst
    | |- context [Z.compare ?a ?b] =>
        destruct (Z.compare_spec a b); try discriminate; subst
    | H : context [Pos.compare ?a ?b] |- _ =>
        destruct (Pos.compare_spec a b); try discriminate; subst
    | |- context [Pos.compare ?a ?b] =>
        destruct (Pos.compare_spec a b); try discriminate; subst
    end.

Ltac bool_to_prop H :=
  repeat (progress rewrite ?andb_true_iff, ?orb_true_iff, ?negb_true_iff,
            ?andb_false_iff, ?orb_false_iff, ?negb_false_iff,
            ?Z.eqb_eq, ?Z.eqb_neq, ?Z.leb_le, ?Z.leb_gt, ?Z.ltb_lt, ?Z.ltb_ge in H).

(** Settles a test on indices that the arithmetic of the context decides. *)
Ltac settle_test :=
  match goal with
  | |- context [if ?b then _ else _] =>
      let E := fresh "E" in
      destruct b eqn:E;
      unfold in_range in E; bool_to_prop E; try (exfalso; lia)
  end.

Ltac gamma_case :=
  match goal with
  | |- context [bind (GammaFunction ?x) _] =>
      destruct (GammaFunction x) as [?g|?k|]; simpl bind;
      [|reflexivity|exact I]
  end.

(** Splits on every comparison of indices in the goal. *)
Ltac index_cases :=
  repeat match goal with
    | |- context [Z.eqb ?a ?b] => destruct (Z.eqb_spec a b); subst
    | |- context [Z.ltb ?a ?b] => destruct (Z.ltb_spec a b)
    | |- context [Z.leb ?a ?b] => destruct (Z.leb_spec a b)
    end.

Ltac settle_tests :=
  repeat match goal with
    | |- context [if ?b then _ else _] =>
        let E := fresh "E" in
        destruct b eqn:E;
        unfold in_range in E; bool_to_prop E; try (exfalso; lia)
    end.


(* ================================================================== *)
(** * Facts *)

(** ** Views and loops *)

Lemma upd_same (v : view) (i : Z) (x : float) : upd v i x i = x.
Proof. unfold upd. now rewrite Z.eqb_refl. Qed.

Lemma upd_other (v : view) (i j : Z) (x : float) : j <> i -> upd v i x j = v j.
Proof. intros H. unfold upd. apply Z.eqb_neq in H. now rewrite H. Qed.

Lemma upd2_same (D : matrix) (i j : Z) (x : float) : upd2 D i j x i j = x.
Proof. unfold upd2. now rewrite !Z.eqb_refl. Qed.

Lemma upd2_other (D : matrix) (i j r c : Z) (x : float) :
  r <> i \/ c <> j -> upd2 D i j x r c = D r c.
Proof.
  intros H. unfold upd2.
  destruct (Z.eqb_spec r i), (Z.eqb_spec c j); simpl; try reflexivity.
  exfalso. destruct H; contradiction.
Qed.

Lemma within_0 lo j : within lo 0 j = false.
Proof. unfold within. destruct (Z.leb_spec lo j), (Z.ltb_spec j (lo + Z.of_nat 0)); simpl; auto; lia. Qed.

Lemma within_S lo cnt j :
  within lo (S cnt) j = (j =? lo) || within (lo + 1) cnt j.
Proof.
  unfold within.
  destruct (Z.eqb_spec j lo), (Z.leb_spec lo j), (Z.ltb_spec j (lo + Z.of_nat (S cnt))),
    (Z.leb_spec (lo + 1) j), (Z.ltb_spec j (lo + 1 + Z.of_nat cnt)); simpl; auto; lia.
Qed.

(** A loop that writes entry [i] from the old entry [i] and from [i]. *)
Lemma for_up_pointwise (g : Z -> float -> float) (cnt : nat) :
  forall (lo : Z) (v : view) (j : Z),
    for_up cnt lo (fun i v => upd v i (g i (v i))) v j
    = if within lo cnt j then g j (v j) else v j.
Proof.
  induction cnt as [|cnt IH]; intros lo v j.
  - now rewrite within_0.
  - simpl for_up. rewrite IH, within_S.
    destruct (Z.eqb_spec j lo) as [->|Hne]; simpl.
    + assert (Hout : within (lo + 1) cnt lo = false).
      { unfold within. destruct (Z.leb_spec (lo + 1) lo); simpl; auto; lia. }
      now rewrite Hout, upd_same.
    + now rewrite upd_other by assumption.
Qed.

Lemma for_range_pointwise (g : Z -> float -> float) (lo hi : Z) (v : view) (j : Z) :
  for_range lo hi (fun i v => upd v i (g i (v i))) v j
  = if (lo <=? j) && (j <? hi) then g j (v j) else v j.
Proof.
  unfold for_range. rewrite for_up_pointwise. unfold within.
  destruct (Z.leb_spec lo j), (Z.ltb_spec j (lo + Z.of_nat (Z.to_nat (hi - lo)))),
    (Z.ltb_spec j hi); simpl; auto; lia.
Qed.

Lemma for_range_fill (f : Z -> float) (lo hi : Z) (v : view) (j : Z) :
  for_range lo hi (fun i v => upd v i (f i)) v j
  = if (lo <=? j) && (j <? hi) then f j else v j.
Proof. exact (for_range_pointwise (fun i _ => f i) lo hi v j). Qed.

(* ------------------------------------------------------------------ *)
(** ** Comparisons of [double]s *)

Module FloatFacts.

Lemma SFcompare_Eq (X Y : spec_float) :
  SFcompare X Y = Some Eq ->
  X = Y \/ exists s s', X = S754_zero s /\ Y = S754_zero s'.
Proof.
  destruct X as [s| s | | s m e], Y as [s'| s' | | s' m' e']; simpl; intros H;
    try discriminate.
  - right. now exists s, s'.
  - destruct s'; discriminate.
  - destruct s'; discriminate.
  - destruct s; discriminate.
  - left. destruct s, s'; try discriminate; reflexivity.
  - destruct s; discriminate.
  - destruct s; discriminate.
  - destruct s'; discriminate.
  - left. destruct s, s'; try discriminate;
      destruct (Z.compare_spec e e'); try discriminate; subst e';
      rewrite Pos.compare_cont_spec in H; simpl in H;
      destruct (Pos.compare_spec m m'); try discriminate; subst m'; reflexivity.
Qed.

Lemma Prim2SF_zero : Prim2SF 0%float = S754_zero false.
Proof. reflexivity. Qed.

(** Equality with a constant that is not a zero is equality. *)
Lemma eqb_constant (x c : float) :
  (x =? c)%float = true ->
  (forall s, Prim2SF c <> S754_zero s) ->
  x = c.
Proof.
  rewrite eqb_spec. unfold SFeqb. intros H Hc.
  destruct (SFcompare (Prim2SF x) (Prim2SF c)) as [[| |]|] eqn:E; try discriminate.
  apply SFcompare_Eq in E. destruct E as [E|(s & s' & _ & E)].
  - now apply Prim2SF_inj.
  - now apply Hc in E.
Qed.

Lemma eqb_zero (x : float) :
  (x =? 0)%float = true <-> exists s, Prim2SF x = S754_zero s.
Proof.
  rewrite eqb_spec, Prim2SF_zero. unfold SFeqb. split.
  - intros H.
    destruct (SFcompare (Prim2SF x) (S754_zero false)) as [[| |]|] eqn:E;
      try discriminate.
    apply SFcompare_Eq in E. destruct E as [E|(s & s' & E & _)]; eauto.
  - intros [s ->]. reflexivity.
Qed.

(** A [double] above zero is a positive finite number or plus infinity. *)
Lemma ltb_zero (x : float) :
  (0 <? x)%float = true ->
  (exists m e, Prim2SF x = S754_finite false m e) \/ Prim2SF x = S754_infinity false.
Proof.
  rewrite ltb_spec, Prim2SF_zero. unfold SFltb.
  destruct (Prim2SF x) as [s| s | | s m e]; simpl; try discriminate.
  - destruct s; [discriminate|]. now right.
  - destruct s; [discriminate|]. left. now exists m, e.
Qed.

Lemma dbl_0 : dbl 0 = 0%float.
Proof. reflexivity. Qed.

(** The integer part of a positive [double] is not negative. *)
Lemma integer_part_nonneg (x : float) (n : Z) :
  (0 <? x)%float = true -> ordinal_of_double x = Some n -> 0 <= n.
Proof.
  intros Hx. unfold ordinal_of_double, trunc_double.
  destruct (ltb_zero x Hx) as [(m & e & ->)| ->]; [|discriminate].
  destruct (_ && _); [|discriminate]. intros [= <-].
  destruct (Z.leb_spec 0 e) as [He|He].
  - change (0 <= Z.pos m * 2 ^ e).
    pose proof (Z.pow_nonneg 2 e ltac:(lia)). nia.
  - change (0 <= Z.pos m / 2 ^ (- e)).
    apply Z.div_pos; [lia|]. apply Z.pow_pos_nonneg; lia.
Qed.

End FloatFacts.

(** *** The order of [double]s *)

Module OrderFacts.

Lemma SFcompare_Lt_trans (X Y Z : spec_float) :
  SFcompare X Y = Some Lt -> SFcompare Y Z = Some Lt -> SFcompare X Z = Some Lt.
Proof.
  destruct X as [sx|sx| |sx mx ex], Y as [sy|sy| |sy my ey], Z as [sz|sz| |sz mz ez];
    simpl; intros H1 H2; try discriminate;
    repeat match goal with s : bool |- _ => destruct s end;
    try discriminate; try reflexivity;
    change (Pos.compare_cont Eq) with Pos.compare in *;
    compare_cases; simpl in *; try discriminate; try reflexivity; try lia.
Qed.

Lemma SFcompare_refl (X : spec_float) :
  SFcompare X X = Some Eq \/ SFcompare X X = None.
Proof.
  destruct X as [s|s| |s m e]; simpl; auto; destruct s; auto;
    rewrite Z.compare_refl; change (Pos.compare_cont Eq) with Pos.compare;
    rewrite Pos.compare_refl; auto.
Qed.

(** On numbers, [y < x] fails only when [x <= y]. *)
Lemma SFcompare_total (X Y : spec_float) :
  X <> S754_nan -> Y <> S754_nan ->
  SFltb Y X = false -> SFleb X Y = true.
Proof.
  unfold SFltb, SFleb.
  destruct X as [sx|sx| |sx mx ex], Y as [sy|sy| |sy my ey];
    simpl; intros HX HY H; try congruence;
    repeat match goal with s : bool |- _ => destruct s end;
    try discriminate; try reflexivity;
    change (Pos.compare_cont Eq) with Pos.compare in *;
    compare_cases; simpl in *; try discriminate; try reflexivity; try lia.
Qed.

Lemma ltb_trans (a b c : float) :
  (a <? b)%float = true -> (b <? c)%float = true -> (a <? c)%float = true.
Proof.
  rewrite !ltb_spec. unfold SFltb. intros H1 H2.
  destruct (SFcompare (Prim2SF a) (Prim2SF b)) as [[| |]|] eqn:E1; try discriminate.
  destruct (SFcompare (Prim2SF b) (Prim2SF c)) as [[| |]|] eqn:E2; try discriminate.
  now rewrite (SFcompare_Lt_trans _ _ _ E1 E2).
Qed.

Lemma ltb_irrefl (a : float) : (a <? a)%float = false.
Proof.
  rewrite ltb_spec. unfold SFltb.
  destruct (SFcompare_refl (Prim2SF a)) as [-> | ->]; reflexivity.
Qed.

Lemma leb_of_not_ltb (x y : float) :
  number x -> number y -> (y <? x)%float = false -> (x <=? y)%float = true.
Proof.
  rewrite ltb_spec, leb_spec. apply SFcompare_total.
Qed.

Lemma eqb_number (x y : float) : (x =? y)%float = true -> number x /\ number y.
Proof.
  rewrite eqb_spec. unfold SFeqb, number. intros H.
  split; intros E; rewrite E in H; [|destruct (Prim2SF x)]; discriminate.
Qed.

Lemma add_number (x y : float) : number (x + y) -> number x /\ number y.
Proof.
  unfold number. rewrite add_spec. unfold SF64add. intros H.
  split; intros E; apply H; rewrite E; [|destruct (Prim2SF x)]; reflexivity.
Qed.

Lemma abs_number (x : float) : number (abs x) -> number x.
Proof.
  unfold number. rewrite abs_spec. intros H E. apply H. now rewrite E.
Qed.

End OrderFacts.

(* ------------------------------------------------------------------ *)
(** ** [GammaFunction] *)

Section GammaFacts.
Import FloatFacts.
Local Open Scope float_scope.

(** [while (n--)] from [n = cnt]: [cnt] rounds. *)
Lemma while_post_dec_rounds (cnt : nat) :
  forall tmp g,
    while_post_dec (S cnt) (Z.of_nat cnt) tmp g
    = Ok (iterated_product g (gamma_factors cnt tmp)).
Proof.
  induction cnt as [|cnt IH]; intros tmp g; [reflexivity|].
  change (while_post_dec (S (S cnt)) (Z.of_nat (S cnt)) tmp g)
    with (if (Z.of_nat (S cnt) =? 0)%Z then Ok g
          else while_post_dec (S cnt) (Z.of_nat (S cnt) - 1)%Z (tmp - 1.0)
                 (g * (tmp - 1.0))).
  destruct (Z.eqb_spec (Z.of_nat (S cnt)) 0); [lia|].
  replace (Z.of_nat (S cnt) - 1)%Z with (Z.of_nat cnt) by lia.
  now rewrite IH.
Qed.

(** [while (--n)] from [n = cnt + 1]: [cnt] rounds. *)
Lemma while_pre_dec_rounds (cnt : nat) :
  forall tmp g,
    while_pre_dec (S cnt) (Z.of_nat (S cnt)) tmp g
    = Ok (iterated_product g (gamma_factors cnt tmp)).
Proof.
  induction cnt as [|cnt IH]; intros tmp g; [reflexivity|].
  change (while_pre_dec (S (S cnt)) (Z.of_nat (S (S cnt))) tmp g)
    with (if (Z.of_nat (S (S cnt)) - 1 =? 0)%Z then Ok g
          else while_pre_dec (S cnt) (Z.of_nat (S (S cnt)) - 1)%Z (tmp - 1.0)
                 (g * (tmp - 1.0))).
  destruct (Z.eqb_spec (Z.of_nat (S (S cnt)) - 1) 0); [lia|].
  replace (Z.of_nat (S (S cnt)) - 1)%Z with (Z.of_nat (S cnt)) by lia.
  now rewrite IH.
Qed.

Lemma positive_not_minus_half (x : float) : (0 <? x) = true -> (x =? -0.5) = false.
Proof.
  intros Hx. destruct (x =? -0.5) eqn:E; [|reflexivity].
  apply eqb_constant in E; [|intros s; vm_compute; discriminate].
  subst x. vm_compute in Hx. discriminate.
Qed.

Lemma positive_not_zero (x : float) : (0 <? x) = true -> (x =? 0) = false.
Proof.
  intros Hx. destruct (x =? 0) eqn:E; [|reflexivity].
  apply eqb_zero in E as [s E].
  destruct (ltb_zero x Hx) as [(m & e & E')|E']; congruence.
Qed.

(** A zero is an integer: the test [(x - (int)x) == 0.0] holds for it. *)
Lemma zero_is_integer (x : float) : (x =? 0) = true -> is_integer x 0.
Proof.
  intros E. apply eqb_zero in E as [s E]. split.
  - unfold integer_part, ordinal_of_double, trunc_double. now rewrite E.
  - rewrite dbl_0, eqb_spec, sub_spec, E, Prim2SF_zero. now destruct s.
Qed.

(** A positive integer has an integer part of 1 at least. *)
Lemma positive_integer_part (x : float) (n : Z) :
  (0 <? x) = true -> is_integer x n -> (1 <= n)%Z.
Proof.
  intros Hx [Hn Hz].
  pose proof (integer_part_nonneg x n Hx Hn) as H0.
  destruct (Z.eq_dec n 0) as [->|]; [exfalso|lia].
  rewrite dbl_0, eqb_spec, sub_spec, Prim2SF_zero in Hz.
  destruct (ltb_zero x Hx) as [(m & e & E)|E]; rewrite E in Hz; discriminate.
Qed.

(** Zero is not one half. *)
Lemma zero_not_half (y : float) : (y =? 0) = true -> (y =? 0.5) = false.
Proof.
  intros E. apply eqb_zero in E as [s E].
  rewrite eqb_spec, E. reflexivity.
Qed.

(** C4, amended: the values of [GammaFunction].  [1] at [0]; [-2 sqrt(pi)]
    at [-0.5]; for a positive [x] that is its integer part [n] plus one half,
    [sqrt(pi)] multiplied in turn by the [n] factors [x-1, x-2, ...] (so
    [sqrt(pi)] at [0.5]); for a positive integer [x = n], [1] multiplied in
    turn by the [n-1] factors [x-1, x-2, ...] (so [24] at [5], and exactly
    [(k-1)!] at [k = 1 .. 20]); and the abort
    "Argument is not of integer or half order" for an argument that is none
    of these.  The arguments are those whose integer part is an [int]. *)
Theorem GammaFunction_cases :
  GammaFunction 0 = Ok 1
  /\ GammaFunction (-0.5) = Ok (-2 * sqrt M_PI)
  /\ GammaFunction 0.5 = Ok (sqrt M_PI)
  /\ GammaFunction 5 = Ok 24
  /\ (forall x n,
        (0 <? x) = true -> is_half_integer x n ->
        GammaFunction x
        = Ok (iterated_product (sqrt M_PI) (gamma_factors (Z.to_nat n) x)))
  /\ (forall x n,
        (0 <? x) = true -> is_integer x n ->
        GammaFunction x
        = Ok (iterated_product 1 (gamma_factors (Z.to_nat (n - 1)) x)))
  /\ (forall k,
        (1 <= k <= 20)%Z ->
        GammaFunction (dbl k) = Ok (dbl (factorial (Z.to_nat (k - 1)))))
  /\ (forall x n,
        integer_part x n -> (x =? -0.5) = false ->
        ~ is_integer x n -> ~ is_half_integer x n ->
        GammaFunction x = Aborted InvalidDomain).
Proof.
  repeat match goal with |- _ /\ _ => split end; try reflexivity.
  - intros x n Hx [Hn Hh]. unfold GammaFunction.
    rewrite (positive_not_minus_half x Hx), (positive_not_zero x Hx).
    unfold integer_part in Hn. rewrite Hn, Hh.
    pose proof (integer_part_nonneg x n Hx Hn).
    rewrite <- (Z2Nat.id n) at 2 by assumption.
    apply while_post_dec_rounds.
  - intros x n Hx Hi. pose proof (positive_integer_part x n Hx Hi) as H1.
    destruct Hi as [Hn Hz]. unfold GammaFunction.
    rewrite (positive_not_minus_half x Hx), (positive_not_zero x Hx).
    unfold integer_part in Hn. rewrite Hn, (zero_not_half _ Hz), Hz.
    replace (Z.to_nat n) with (S (Z.to_nat (n - 1))) by lia.
    rewrite <- (Z2Nat.id n) at 2 by lia.
    replace (Z.to_nat n) with (S (Z.to_nat (n - 1))) by lia.
    apply while_pre_dec_rounds.
  - intros k Hk.
    assert (H : In k (map Z.of_nat (seq 1 20))).
    { apply in_map_iff. exists (Z.to_nat k). split; [lia|]. apply in_seq. lia. }
    simpl in H.
    repeat (destruct H as [E|H]; [subst k; vm_compute; reflexivity|]).
    contradiction.
  - intros x n Hn Hm Hi Hh. unfold GammaFunction. rewrite Hm.
    destruct (x =? 0) eqn:E0.
    + exfalso. pose proof (zero_is_integer x E0) as Hz.
      destruct Hz as [Hn0 Hz]. unfold integer_part in Hn, Hn0.
      assert (n = 0%Z) by congruence. subst n. apply Hi. now split.
    + unfold integer_part in Hn. rewrite Hn.
      destruct (x - dbl n =? 0.5) eqn:E1; [exfalso; apply Hh; now split|].
      destruct (x - dbl n =? 0) eqn:E2; [exfalso; apply Hi; now split|].
      reflexivity.
Qed.

End GammaFacts.

(** The loop of [JacobiPolynomial] over the points treats its two output views
    independently of each other. *)
Lemma jacobi_points_loop (rec : float -> float * float * float)
    (H : float -> float -> float -> float) (z : view) (cnt : nat) :
  forall (lo : Z) (pi : view) (opd : option view),
    for_up cnt lo
      (fun i '(pi, pd) =>
         let z_i := z i in
         let '(polyn0, polyn1, _) := rec z_i in
         let pd :=
           match pd with
           | Some v => Some (upd v i (H z_i polyn0 polyn1))
           | None => None
           end in
         (upd pi i polyn0, pd))
      (pi, opd)
    = (for_up cnt lo (fun i v => upd v i (let '(p0, _, _) := rec (z i) in p0)) pi,
       option_map
         (for_up cnt lo (fun i v => upd v i (let '(p0, p1, _) := rec (z i) in H (z i) p0 p1)))
         opd).
Proof.
  induction cnt as [|cnt IH]; intros lo pi opd.
  - destruct opd; reflexivity.
  - simpl for_up. destruct (rec (z lo)) as [[p0 p1] p2] eqn:E.
    rewrite IH. destruct opd; simpl; rewrite ?E; reflexivity.
Qed.

(** A loop over a pair of states that do not depend on each other. *)
Lemma for_up_pair {A B : Type} (body : Z -> A * B -> A * B) (fa : Z -> A -> A)
    (fb : Z -> B -> B) :
  (forall i a b, body i (a, b) = (fa i a, fb i b)) ->
  forall (cnt : nat) (lo : Z) (a : A) (b : B),
    for_up cnt lo body (a, b) = (for_up cnt lo fa a, for_up cnt lo fb b).
Proof.
  intros Hbody. induction cnt as [|cnt IH]; intros lo a b; [reflexivity|].
  simpl for_up. now rewrite Hbody, IH.
Qed.

(* ------------------------------------------------------------------ *)
(** ** The derivative weights kept in the last row of the matrix *)

Section Aliasing.

Variable np : Z.
Variables z pd : view.

Lemma alias_reads (i j : Z) (D1 D2 : matrix) :
  alias_inv np pd i j D1 D2 -> 0 <= j < i -> i < np ->
  D1 (np - 1) i = pd i /\ D1 (np - 1) j = pd j.
Proof.
  intros H Hij Hi. split.
  - specialize (H (np - 1) i). unfold written, pd_slot in H.
    revert H. settle_test. auto.
  - specialize (H (np - 1) j). unfold written, pd_slot in H.
    revert H. settle_test. auto.
Qed.

Lemma alias_step (i j : Z) (D1 D2 : matrix) :
  0 <= j < i -> i < np ->
  alias_inv np pd i j D1 D2 ->
  alias_inv np pd i (j + 1) (off_diagonal np z i j D1) (off_diagonal_ref pd z i j D2).
Proof.
  intros Hij Hi H. destruct (alias_reads i j D1 D2 H Hij Hi) as [Ri Rj].
  unfold off_diagonal, off_diagonal_ref. cbv zeta.
  rewrite (upd2_other D1 j i (np - 1) i) by lia.
  rewrite (upd2_other D1 j i (np - 1) j) by lia.
  rewrite Ri, Rj.
  intros r c. specialize (H r c). unfold upd2.
  destruct ((r =? i) && (c =? j)) eqn:E1; bool_to_prop E1.
  { destruct E1 as [-> ->]. unfold written. settle_test. reflexivity. }
  destruct ((r =? j) && (c =? i)) eqn:E2; bool_to_prop E2.
  { destruct E2 as [-> ->]. unfold written. settle_test. reflexivity. }
  replace (written i (j + 1) r c) with (written i j r c); [exact H|].
  unfold written, in_range.
  destruct (Z.eqb_spec r i), (Z.eqb_spec c i), (Z.leb_spec 0 r), (Z.leb_spec 0 c),
    (Z.ltb_spec r i), (Z.ltb_spec c i), (Z.ltb_spec c j), (Z.ltb_spec r j),
    (Z.ltb_spec c (j + 1)), (Z.ltb_spec r (j + 1)); simpl; try reflexivity; lia.
Qed.

Lemma alias_inner (i : Z) (cnt : nat) :
  forall (j : Z) (D1 D2 : matrix),
    0 <= j -> j + Z.of_nat cnt <= i -> i < np ->
    alias_inv np pd i j D1 D2 ->
    alias_inv np pd i (j + Z.of_nat cnt)
      (for_up cnt j (off_diagonal np z i) D1)
      (for_up cnt j (off_diagonal_ref pd z i) D2).
Proof.
  induction cnt as [|cnt IH]; intros j D1 D2 Hj Hle Hi H.
  - simpl. now rewrite Z.add_0_r.
  - simpl for_up. replace (j + Z.of_nat (S cnt)) with (j + 1 + Z.of_nat cnt) by lia.
    apply IH; try lia. apply alias_step; auto; lia.
Qed.

(** One round of the loop over [i]: the pairs [(i, j)], then the diagonal. *)
Lemma alias_row (t : EPolyType) (alpha beta : float) (i : Z) (D1 D2 : matrix) :
  0 <= i < np ->
  alias_inv np pd i 0 D1 D2 ->
  alias_inv np pd (i + 1) 0
    (upd2 (for_range 0 i (off_diagonal np z i) D1) i i (diagonal t np alpha beta i (z i)))
    (upd2 (for_range 0 i (off_diagonal_ref pd z i) D2) i i
       (diagonal t np alpha beta i (z i))).
Proof.
  intros Hi H. unfold for_range.
  pose proof (alias_inner i (Z.to_nat (i - 0)) 0 D1 D2 ltac:(lia) ltac:(lia) ltac:(lia) H)
    as H'.
  replace (0 + Z.of_nat (Z.to_nat (i - 0))) with i in H' by lia.
  intros r c. specialize (H' r c). unfold upd2.
  destruct ((r =? i) && (c =? i)) eqn:E1; bool_to_prop E1.
  { destruct E1 as [-> ->]. unfold written. settle_test. reflexivity. }
  replace (written (i + 1) 0 r c) with (written i i r c); [exact H'|].
  unfold written, in_range.
  destruct (Z.eqb_spec r i), (Z.eqb_spec c i), (Z.leb_spec 0 r), (Z.leb_spec 0 c),
    (Z.ltb_spec r i), (Z.ltb_spec c i), (Z.ltb_spec r (i + 1)), (Z.ltb_spec c (i + 1)),
    (Z.eqb_spec r (i + 1)), (Z.eqb_spec c (i + 1)), (Z.ltb_spec r 0), (Z.ltb_spec c 0);
    simpl; try reflexivity; lia.
Qed.

Lemma alias_rows (t : EPolyType) (alpha beta : float) (cnt : nat) :
  forall (i : Z) (D1 D2 : matrix),
    0 <= i -> i + Z.of_nat cnt <= np ->
    alias_inv np pd i 0 D1 D2 ->
    alias_inv np pd (i + Z.of_nat cnt) 0
      (for_up cnt i
         (fun i D =>
            let D := for_range 0 i (off_diagonal np z i) D in
            upd2 D i i (diagonal t np alpha beta i (z i))) D1)
      (for_up cnt i
         (fun i D =>
            let D := for_range 0 i (off_diagonal_ref pd z i) D in
            upd2 D i i (diagonal t np alpha beta i (z i))) D2).
Proof.
  induction cnt as [|cnt IH]; intros i D1 D2 Hi Hle H.
  - simpl. now rewrite Z.add_0_r.
  - simpl for_up. replace (i + Z.of_nat (S cnt)) with (i + 1 + Z.of_nat cnt) by lia.
    apply IH; try lia. apply alias_row; auto; lia.
Qed.

(** The invariant after [rows] rounds. *)
Lemma alias_fill_rows (t : EPolyType) (alpha beta : float) (rows : Z) (D1 D2 : matrix) :
  0 <= rows <= np ->
  alias_inv np pd 0 0 D1 D2 ->
  alias_inv np pd rows 0 (fill_rows t np z alpha beta rows D1)
    (fill_rows_ref t np z alpha beta pd rows D2).
Proof.
  intros Hr H. unfold fill_rows, fill_rows_ref, for_range.
  pose proof (alias_rows t alpha beta (Z.to_nat (rows - 0)) 0 D1 D2
                ltac:(lia) ltac:(lia) H) as H'.
  replace (0 + Z.of_nat (Z.to_nat (rows - 0))) with rows in H' by lia.
  exact H'.
Qed.

(** When the loops are done the two matrices have the same entries. *)
Lemma alias_fill_matrix (t : EPolyType) (alpha beta : float) (D1 D2 : matrix) :
  1 <= np ->
  alias_inv np pd 0 0 D1 D2 ->
  forall r c,
    fill_matrix t np z alpha beta D1 r c = fill_matrix_ref t np z alpha beta pd D2 r c.
Proof.
  intros Hnp H r c.
  pose proof (alias_fill_rows t alpha beta np D1 D2 ltac:(lia) H r c) as H'.
  unfold fill_matrix, fill_matrix_ref. unfold written, pd_slot in H'.
  revert H'. settle_test. auto.
Qed.

(** Every read through [pd_i] and [pd_j] finds the weight, before and after
    the first of the two writes of the pair [(i, j)]. *)
Lemma alias_reads_before (t : EPolyType) (alpha beta : float) (i j : Z) (D1 D2 : matrix)
    (x : float) :
  0 <= j < i -> i < np ->
  alias_inv np pd 0 0 D1 D2 ->
  let M := matrix_before t np z alpha beta i j D1 in
  M (np - 1) i = pd i /\ M (np - 1) j = pd j
  /\ upd2 M j i x (np - 1) i = pd i /\ upd2 M j i x (np - 1) j = pd j.
Proof.
  intros Hij Hi H M.
  assert (HM : alias_inv np pd i j M
                 (for_range 0 j (off_diagonal_ref pd z i)
                    (fill_rows_ref t np z alpha beta pd i D2))).
  { unfold M, matrix_before, for_range.
    pose proof (alias_inner i (Z.to_nat (j - 0)) 0
                  (fill_rows t np z alpha beta i D1)
                  (fill_rows_ref t np z alpha beta pd i D2)
                  ltac:(lia) ltac:(lia) Hi
                  (alias_fill_rows t alpha beta i D1 D2 ltac:(lia) H)) as H'.
    replace (0 + Z.of_nat (Z.to_nat (j - 0))) with j in H' by lia.
    exact H'. }
  destruct (alias_reads i j _ _ HM Hij Hi) as [Ri Rj].
  rewrite (upd2_other M j i (np - 1) i) by lia.
  rewrite (upd2_other M j i (np - 1) j) by lia.
  auto.
Qed.

End Aliasing.

(** The matrix with the weights in its last row and the matrix of the
    reference start in the relation the loops keep. *)
Lemma alias_start (np : Z) (D : matrix) (v p1 p2 : view) :
  (forall j, if in_range np j then p1 j = p2 j else p1 j = D (np - 1) j /\ p2 j = v j) ->
  alias_inv np p2 0 0 (row_store D (np - 1) p1) D.
Proof.
  intros H r c. specialize (H c). unfold written, pd_slot, row_store.
  destruct (Z.eqb_spec r (np - 1)) as [->|Hr].
  - revert H. settle_tests; intros H; try tauto; try (destruct H; congruence).
  - settle_tests; reflexivity.
Qed.


(* ------------------------------------------------------------------ *)
(** ** The ordering pass of [TriQL] *)

Section Ordering.
Import OrderFacts.

Variable n : Z.

(** The scan for the least entry among [d(i .. )]. *)
Lemma select_scan (d : view) (i : Z) (cnt : nat) :
  forall (l k : Z) (p : float),
    i <= k < l -> p = d k ->
    (forall l', i <= l' < l -> (d l' <? p)%float = false) ->
    forall r,
      r = for_up cnt l (fun l '(k, p) => if (d l <? p)%float then (l, d l) else (k, p))
            (k, p) ->
      i <= fst r < l + Z.of_nat cnt /\ snd r = d (fst r)
      /\ forall l', i <= l' < l + Z.of_nat cnt -> (d l' <? snd r)%float = false.
Proof.
  induction cnt as [|cnt IH]; intros l k p Hk Hp Hmin r ->.
  - simpl. repeat split; try lia; auto. intros l' Hl'. apply Hmin. lia.
  - simpl for_up. replace (l + Z.of_nat (S cnt)) with (l + 1 + Z.of_nat cnt) by lia.
    destruct (d l <? p)%float eqn:Hlt.
    + eapply IH; [| |  |reflexivity]; [lia|reflexivity|]. intros l' Hl'.
      destruct (Z.eq_dec l' l) as [->|Hne]; [apply ltb_irrefl|].
      destruct (d l' <? d l)%float eqn:E; [|reflexivity].
      rewrite <- (Hmin l' ltac:(lia)). symmetry. subst p. now apply ltb_trans with (b := d l).
    + eapply IH; [| | |reflexivity]; [lia|assumption|]. intros l' Hl'.
      destruct (Z.eq_dec l' l) as [->|Hne]; [assumption|]. apply Hmin. lia.
Qed.

Lemma select_min_least (d : view) (i : Z) :
  i < n ->
  i <= fst (select_min d i n) < n
  /\ snd (select_min d i n) = d (fst (select_min d i n))
  /\ forall l, i <= l < n -> (d l <? snd (select_min d i n))%float = false.
Proof.
  intros Hi. unfold select_min, for_range.
  pose proof (select_scan d i (Z.to_nat (n - (i + 1))) (i + 1) i (d i)
                ltac:(lia) eq_refl) as H.
  replace (i + 1 + Z.of_nat (Z.to_nat (n - (i + 1)))) with n in H by lia.
  eapply H; [|reflexivity]. intros l' Hl'. replace l' with i by lia. apply ltb_irrefl.
Qed.

Lemma exchange_involutive (I K t : nat) : exchange I K (exchange I K t) = t.
Proof.
  unfold exchange.
  destruct (Nat.eqb_spec t I), (Nat.eqb_spec t K); subst;
    repeat match goal with
      | |- context [(?a =? ?b)%nat] => destruct (Nat.eqb_spec a b); subst
      end; congruence.
Qed.

Lemma exchange_bound (I K N t : nat) :
  (I < N)%nat -> (K < N)%nat -> (t < N)%nat -> (exchange I K t < N)%nat.
Proof.
  intros. unfold exchange.
  destruct (Nat.eqb_spec t I), (Nat.eqb_spec t K); lia.
Qed.

Lemma exchange_permutation (I K N : nat) :
  (I < N)%nat -> (K < N)%nat ->
  Permutation (seq 0 N) (map (exchange I K) (seq 0 N)).
Proof.
  intros HI HK. apply NoDup_Permutation.
  - apply seq_NoDup.
  - apply Injective_map_NoDup; [|apply seq_NoDup].
    intros a b Hab. rewrite <- (exchange_involutive I K a), Hab.
    apply exchange_involutive.
  - intros t. rewrite in_map_iff. setoid_rewrite in_seq. split.
    + intros Ht. exists (exchange I K t). split; [apply exchange_involutive|].
      pose proof (exchange_bound I K N t HI HK). lia.
    + intros (u & <- & Hu). pose proof (exchange_bound I K N u HI HK). lia.
Qed.

Lemma entries_exchange (d : view) (i k : Z) :
  0 <= i -> i <= k < n ->
  Permutation (entries d n) (entries (upd (upd d k (d i)) i (d k)) n).
Proof.
  intros Hi Hk. unfold entries.
  set (f := fun t : nat => d (Z.of_nat t)).
  apply Permutation_trans
    with (map f (map (exchange (Z.to_nat i) (Z.to_nat k)) (seq 0 (Z.to_nat n)))).
  - apply Permutation_map. apply exchange_permutation; lia.
  - rewrite map_map. apply Permutation_refl'. apply map_ext. intros t.
    unfold f, exchange, upd.
    destruct (Nat.eqb_spec t (Z.to_nat i)), (Nat.eqb_spec t (Z.to_nat k)),
      (Z.eqb_spec (Z.of_nat t) i), (Z.eqb_spec (Z.of_nat t) k);
      try lia; try (f_equal; lia); reflexivity.
Qed.

(** One round of the ordering pass. *)
Lemma order_round (d : view) (i : Z) :
  0 <= i -> i < n ->
  ordered_before n i d ->
  let d' := (let '(k, p) := select_min d i n in upd (upd d k (d i)) i p) in
  ordered_before n (i + 1) d'
  /\ Permutation (entries d n) (entries d' n)
  /\ (forall j, ~ 0 <= j < n -> d' j = d j).
Proof.
  intros Hi Hn Hord.
  pose proof (select_min_least d i Hn) as Hmin.
  destruct (select_min d i n) as [k p]. simpl fst in Hmin. simpl snd in Hmin.
  destruct Hmin as (Hk & -> & Hmin).
  cbv zeta. split; [|split].
  - intros a b Ha Hb. unfold upd.
    destruct (Z.eqb_spec a i) as [->|Hai].
    + destruct (Z.eqb_spec b i); [lia|].
      destruct (Z.eqb_spec b k); apply Hmin; lia.
    + destruct (Z.eqb_spec a k); [lia|].
      destruct (Z.eqb_spec b i); [|destruct (Z.eqb_spec b k)]; apply Hord; lia.
  - apply entries_exchange; lia.
  - intros j Hj. unfold upd.
    destruct (Z.eqb_spec j i); [lia|]. destruct (Z.eqb_spec j k); [lia|]. reflexivity.
Qed.

Lemma order_rounds (cnt : nat) :
  forall (i : Z) (d : view),
    0 <= i -> i + Z.of_nat cnt <= n - 1 \/ cnt = 0%nat ->
    ordered_before n i d ->
    let d' :=
      for_up cnt i
        (fun i d => let '(k, p) := select_min d i n in upd (upd d k (d i)) i p) d in
    ordered_before n (i + Z.of_nat cnt) d'
    /\ Permutation (entries d n) (entries d' n)
    /\ (forall j, ~ 0 <= j < n -> d' j = d j).
Proof.
  induction cnt as [|cnt IH]; intros i d Hi Hle Hord.
  - simpl. rewrite Z.add_0_r. auto.
  - simpl for_up.
    destruct (order_round d i Hi ltac:(lia) Hord) as (Hord1 & Hperm1 & Hfr1).
    destruct (IH (i + 1) _ ltac:(lia) ltac:(lia) Hord1) as (Hord2 & Hperm2 & Hfr2).
    replace (i + Z.of_nat (S cnt)) with (i + 1 + Z.of_nat cnt) by lia.
    split; [exact Hord2|]. split.
    + eapply Permutation_trans; eassumption.
    + intros j Hj. rewrite Hfr2 by assumption. now apply Hfr1.
Qed.

(** The ordering pass: a permutation of [d(0 .. n-1)] in which no entry is
    below an earlier one; the other entries are left alone. *)
Lemma TriQL_order_spec (d : view) :
  (forall a b, 0 <= a < b -> b < n ->
               (TriQL_order d n b <? TriQL_order d n a)%float = false)
  /\ Permutation (entries d n) (entries (TriQL_order d n) n)
  /\ (forall j, ~ 0 <= j < n -> TriQL_order d n j = d j).
Proof.
  unfold TriQL_order, for_range.
  destruct (order_rounds (Z.to_nat (n - 1 - 0)) 0 d ltac:(lia) ltac:(lia))
    as (Hord & Hperm & Hfr).
  { intros a b Ha. lia. }
  split; [|split; assumption].
  intros a b Hab Hb. apply Hord; lia.
Qed.

(** A view whose entries increase along the indices gives a sorted list. *)
Lemma sorted_map_seq (f : nat -> float) (N : nat) :
  forall s : nat,
    (forall a b, (s <= a < b)%nat -> (b < s + N)%nat -> float_le (f a) (f b)) ->
    StronglySorted float_le (map f (seq s N)).
Proof.
  induction N as [|N IH]; intros s H; simpl; constructor.
  - apply IH. intros a b Ha Hb. apply H; lia.
  - apply Forall_forall. intros x Hx. apply in_map_iff in Hx as (b & <- & Hb).
    apply in_seq in Hb. apply H; lia.
Qed.

Lemma sorted_entries (d : view) :
  (forall a b, 0 <= a < b -> b < n -> float_le (d a) (d b)) ->
  StronglySorted float_le (entries d n).
Proof.
  intros H. unfold entries. apply sorted_map_seq. intros a b Ha Hb. apply H; lia.
Qed.

Lemma entries_In (d : view) (j : Z) : 0 <= j < n -> In (d j) (entries d n).
Proof.
  intros Hj. unfold entries. apply in_map_iff. exists (Z.to_nat j).
  split; [f_equal; lia|]. apply in_seq. lia.
Qed.

Lemma entries_Forall (P : float -> Prop) (d : view) :
  (forall j, 0 <= j < n -> P (d j)) <-> Forall P (entries d n).
Proof.
  rewrite Forall_forall. split.
  - intros H x Hx. unfold entries in Hx. apply in_map_iff in Hx as (t & <- & Ht).
    apply in_seq in Ht. apply H. lia.
  - intros H j Hj. apply H. now apply entries_In.
Qed.

End Ordering.

(* ------------------------------------------------------------------ *)
(** ** The reduction phase of [TriQL] *)

Section Reduction.
Import OrderFacts.

Variable MaxPolylibIteration : Z.
Variable n : Z.

Lemma find_m_bounds (cnt : nat) :
  forall (m : Z) (d e : view), m <= find_m cnt m d e <= m + Z.of_nat cnt.
Proof.
  induction cnt as [|cnt IH]; intros m d e; simpl; [lia|].
  destruct (_ =? _)%float; [lia|]. specialize (IH (m + 1) d e). lia.
Qed.

(** The search stops at its first index only when the test holds there, and
    then the two diagonal entries of the test are numbers. *)
Lemma find_m_first (cnt : nat) (l : Z) (d e : view) :
  (0 < cnt)%nat -> find_m cnt l d e = l -> number (d l) /\ number (d (l + 1)).
Proof.
  destruct cnt as [|cnt]; [lia|]. intros _. simpl.
  destruct (_ =? _)%float eqn:E.
  - intros _. apply eqb_number in E as [_ E]. apply add_number in E as [E1 E2].
    split; now apply abs_number.
  - intros H. pose proof (find_m_bounds cnt (l + 1) d e). lia.
Qed.

Lemma rotation_frame (i : Z) (st : rot_state) (j : Z) :
  j <> i + 1 -> rot_d (rotation i st) j = rot_d st j.
Proof.
  intros Hj. destruct st as [d e s c p g]. unfold rotation.
  destruct (_ <=? _)%float; simpl; now rewrite upd_other.
Qed.

Lemma rotations_frame (cnt : nat) :
  forall (i : Z) (st : rot_state) (j : Z),
    j <= i - Z.of_nat cnt + 1 \/ i + 1 < j ->
    rot_d (for_down cnt i rotation st) j = rot_d st j.
Proof.
  induction cnt as [|cnt IH]; intros i st j Hj; [reflexivity|].
  simpl for_down. rewrite IH by lia. apply rotation_frame. lia.
Qed.

Lemma ql_sweep_frame (l m : Z) (d e : view) (j : Z) :
  l <= m -> j < l \/ m < j -> fst (ql_sweep l m d e) j = d j.
Proof.
  intros Hlm Hj. unfold ql_sweep. cbv zeta. simpl fst.
  rewrite upd_other by lia. unfold for_range_down.
  rewrite rotations_frame by lia. reflexivity.
Qed.

Lemma ql_row_unfold (fuel : nat) (iter l : Z) (d e : view) :
  ql_row MaxPolylibIteration fuel iter l n d e
  = let m := find_m (Z.to_nat (n - 1 - l)) l d e in
    if m =? l then Ok (d, e)
    else if iter =? MaxPolylibIteration then Aborted IterationLimitExceeded
    else
      match fuel with
      | O => Undefined
      | S f =>
          let '(d', e') := ql_sweep l m d e in
          ql_row MaxPolylibIteration f (iter + 1) l n d' e'
      end.
Proof. destruct fuel; reflexivity. Qed.

(** With a constant that is not negative the passes for [l] end: they return
    or they abort. *)
Lemma ql_row_ends (l : Z) (fuel : nat) :
  forall (iter : Z) (d e : view),
    0 <= iter -> iter + Z.of_nat fuel = MaxPolylibIteration ->
    ql_row MaxPolylibIteration fuel iter l n d e <> Undefined.
Proof.
  induction fuel as [|fuel IH]; intros iter d e Hi Hsum; rewrite ql_row_unfold; cbv zeta;
    destruct (find_m (Z.to_nat (n - 1 - l)) l d e =? l); try discriminate;
    destruct (Z.eqb_spec iter MaxPolylibIteration); try discriminate; [lia|].
  destruct (ql_sweep l (find_m (Z.to_nat (n - 1 - l)) l d e) d e) as [d1 e1].
  apply IH; lia.
Qed.

Lemma reduce_rows_end (cnt : nat) :
  forall (l : Z) (d e : view),
    0 <= MaxPolylibIteration ->
    for_upM cnt l
      (fun l '(d, e) =>
         ql_row MaxPolylibIteration (Z.to_nat MaxPolylibIteration) 0 l n d e) (d, e)
    <> Undefined.
Proof.
  induction cnt as [|cnt IH]; intros l d e HM; [discriminate|].
  simpl for_upM.
  pose proof (ql_row_ends l (Z.to_nat MaxPolylibIteration) 0 d e ltac:(lia) ltac:(lia)).
  destruct (ql_row MaxPolylibIteration (Z.to_nat MaxPolylibIteration) 0 l n d e)
    as [[d1 e1]| |]; simpl bind; [now apply IH|discriminate|contradiction].
Qed.

(** [TriQL] returns or aborts. *)
Lemma TriQL_ends (d e : view) :
  0 <= MaxPolylibIteration -> TriQL MaxPolylibIteration d e n <> Undefined.
Proof.
  intros HM. unfold TriQL, TriQL_reduce, for_rangeM.
  pose proof (reduce_rows_end (Z.to_nat (n - 0)) 0 d e HM) as H.
  destruct (for_upM _ _ _ _) as [[d1 e1]| |]; simpl bind;
    [discriminate|discriminate|contradiction].
Qed.

(** When the passes for [l] end normally, the search stops at [l], and the
    entries before [l] and from [n] on are as they were. *)
Lemma ql_row_returns (l : Z) (fuel : nat) :
  forall (iter : Z) (d e d' e' : view),
    ql_row MaxPolylibIteration fuel iter l n d e = Ok (d', e') ->
    find_m (Z.to_nat (n - 1 - l)) l d' e' = l
    /\ (forall j, j < l \/ n <= j -> d' j = d j)
    /\ (n - 1 <= l -> d' = d).
Proof.
  induction fuel as [|fuel IH]; intros iter d e d' e'; rewrite ql_row_unfold; cbv zeta;
    destruct (Z.eqb_spec (find_m (Z.to_nat (n - 1 - l)) l d e) l) as [Hm|Hm].
  - intros [= <- <-]. auto.
  - destruct (iter =? MaxPolylibIteration); discriminate.
  - intros [= <- <-]. auto.
  - destruct (iter =? MaxPolylibIteration); [discriminate|].
    pose proof (find_m_bounds (Z.to_nat (n - 1 - l)) l d e) as Hb.
    destruct (ql_sweep l (find_m (Z.to_nat (n - 1 - l)) l d e) d e) as [d1 e1] eqn:Es.
    intros H. apply IH in H as (Hstop & Hframe & Hlast).
    split; [exact Hstop|]. split.
    + intros j Hj. rewrite Hframe by assumption.
      change d1 with (fst (d1, e1)). rewrite <- Es. apply ql_sweep_frame; lia.
    + intros Hl. lia.
Qed.

Lemma reduce_rows (cnt : nat) :
  forall (l : Z) (d e d' e' : view),
    2 <= n -> 0 <= l -> l + Z.of_nat cnt <= n ->
    reduced_before n l d ->
    for_upM cnt l
      (fun l '(d, e) =>
         ql_row MaxPolylibIteration (Z.to_nat MaxPolylibIteration) 0 l n d e) (d, e)
    = Ok (d', e') ->
    reduced_before n (l + Z.of_nat cnt) d'
    /\ (forall j, j < 0 \/ n <= j -> d' j = d j).
Proof.
  induction cnt as [|cnt IH]; intros l d e d' e' Hn Hl Hle Hred.
  - simpl. intros [= <- <-]. rewrite Z.add_0_r. auto.
  - simpl for_upM.
    destruct (ql_row MaxPolylibIteration (Z.to_nat MaxPolylibIteration) 0 l n d e)
      as [[d1 e1]| |] eqn:Erow; simpl bind; try discriminate.
    apply ql_row_returns in Erow as (Hstop & Hframe & Hlast).
    intros H. apply IH in H as [Hred' Hframe']; try lia.
    + replace (l + Z.of_nat (S cnt)) with (l + 1 + Z.of_nat cnt) by lia.
      split; [exact Hred'|]. intros j Hj. rewrite Hframe' by assumption.
      apply Hframe. lia.
    + intros _ j Hj0 Hjl Hjn.
      destruct (Z.le_gt_cases (n - 1) l) as [Hlast'|Hmid].
      * rewrite (Hlast Hlast'). apply Hred; lia.
      * apply find_m_first in Hstop as [N1 N2]; [|lia].
        destruct (Z.eq_dec j l) as [->|]; [exact N1|].
        destruct (Z.eq_dec j (l + 1)) as [->|]; [exact N2|].
        rewrite Hframe by lia. apply Hred; lia.
Qed.

(** After a reduction that returns, with 2 entries or more, the diagonal
    holds numbers. *)
Lemma TriQL_reduce_numbers (d e d' e' : view) :
  2 <= n ->
  TriQL_reduce MaxPolylibIteration d e n = Ok (d', e') ->
  forall j, 0 <= j < n -> number (d' j).
Proof.
  intros Hn H j Hj. unfold TriQL_reduce, for_rangeM in H.
  apply reduce_rows in H as [Hred _]; try lia.
  - apply Hred; lia.
  - intros H0. lia.
Qed.

Lemma reduce_rows_frame (cnt : nat) :
  forall (l : Z) (d e d' e' : view),
    0 <= l ->
    for_upM cnt l
      (fun l '(d, e) =>
         ql_row MaxPolylibIteration (Z.to_nat MaxPolylibIteration) 0 l n d e) (d, e)
    = Ok (d', e') ->
    forall j, j < 0 \/ n <= j -> d' j = d j.
Proof.
  induction cnt as [|cnt IH]; intros l d e d' e' Hl.
  - simpl. intros [= <- <-]. auto.
  - simpl for_upM.
    destruct (ql_row MaxPolylibIteration (Z.to_nat MaxPolylibIteration) 0 l n d e)
      as [[d1 e1]| |] eqn:Erow; simpl bind; try discriminate.
    apply ql_row_returns in Erow as (_ & Hframe & _).
    intros H j Hj. rewrite (IH (l + 1) d1 e1 d' e' ltac:(lia) H j Hj). apply Hframe. lia.
Qed.

Lemma TriQL_reduce_frame (d e d' e' : view) :
  TriQL_reduce MaxPolylibIteration d e n = Ok (d', e') ->
  forall j, ~ 0 <= j < n -> d' j = d j.
Proof.
  unfold TriQL_reduce, for_rangeM. intros H j Hj.
  apply (reduce_rows_frame _ 0 _ _ _ _ ltac:(lia) H). lia.
Qed.

(** C9: when [TriQL] returns, [d(0 .. n-1)] is in ascending order and is a
    permutation of what the reduction phase left there; the ordering pass
    changes nothing else. *)
Theorem TriQL_orders_eigenvalues (d e d' e' : view) :
  TriQL MaxPolylibIteration d e n = Ok (d', e') ->
  exists dq,
    TriQL_reduce MaxPolylibIteration d e n = Ok (dq, e')
    /\ d' = TriQL_order dq n
    /\ StronglySorted float_le (entries d' n)
    /\ Permutation (entries dq n) (entries d' n)
    /\ (forall j, ~ 0 <= j < n -> d' j = dq j).
Proof.
  unfold TriQL.
  destruct (TriQL_reduce MaxPolylibIteration d e n) as [[dq eq]| |] eqn:Ered;
    simpl bind; try discriminate.
  intros [= <- <-]. exists dq.
  destruct (TriQL_order_spec n dq) as (Hord & Hperm & Hframe).
  repeat split; auto.
  destruct (Z.le_gt_cases 2 n) as [Hn|Hn].
  - apply sorted_entries. intros a b Ha Hb.
    pose proof (TriQL_reduce_numbers _ _ _ _ Hn Ered) as Hnum.
    apply (entries_Forall n number) in Hnum.
    apply (Permutation_Forall Hperm) in Hnum.
    rewrite <- (entries_Forall n number) in Hnum.
    apply leb_of_not_ltb; [apply Hnum; lia|apply Hnum; lia|].
    apply Hord; lia.
  - unfold entries. destruct (Z.to_nat n) as [|[|N]] eqn:EN; try lia; simpl.
    + constructor.
    + constructor; constructor.
Qed.

End Reduction.

Section PolylibFacts.

Variable cos : float -> float.
Variable pow : float -> float -> float.
Variable MaxPolylibPoint : Z.
Variable MaxPolylibIteration : Z.
Variable tolerence : float.
Variable DeflationEnabled : bool.

(* ------------------------------------------------------------------ *)
(** ** Single-point rules and empty zero sets *)

(** C5: for [np = 1] the Gauss-Radau-left, Gauss-Radau-right and
    Gauss-Lobatto rules do not fail; each returns the one-point rule, node
    [z(0) = 0] and weight [w(0) = 2], and leaves the other entries as they
    were. *)
Theorem Cubature_single_point (t : EPolyType) (z w : view) (alpha beta : float) :
  t <> POLYTYPE_GAUSS ->
  exists z' w',
    Cubature_getValues cos pow MaxPolylibPoint MaxPolylibIteration tolerence
      DeflationEnabled t z w 1 alpha beta = Ok (z', w')
    /\ z' 0 = 0%float /\ w' 0 = 2%float
    /\ (forall j, j <> 0 -> z' j = z j /\ w' j = w j).
Proof.
  intros Ht. exists (upd z 0 0%float), (upd w 0 2%float).
  split; [destruct t; try reflexivity; contradiction|].
  repeat split; try apply upd_same; now apply upd_other.
Qed.

(** C10: for degree [n = 0] both zero finders return at once and leave the
    output view [z] as it was. *)
Theorem JacobiZeros_degree_zero (z : view) (alpha beta : float) :
  JacobiZerosPolyDeflation cos MaxPolylibPoint MaxPolylibIteration tolerence
    z 0 alpha beta = Ok z
  /\ JacobiZerosTriDiagonal pow MaxPolylibIteration z 0 alpha beta = Ok z
  /\ JacobiZeros cos pow MaxPolylibPoint MaxPolylibIteration tolerence
       DeflationEnabled z 0 alpha beta = Ok z.
Proof.
  repeat split. unfold JacobiZeros. now destruct DeflationEnabled.
Qed.

(* ------------------------------------------------------------------ *)
(** ** [JacobiPolynomial] *)

(** What a call with a value view writes: entry [j] of each output view is
    the pair [jacobi_point] gives for [z(j)], for [0 <= j < np], whenever the
    degree is within [maxOrder] (or there is no point). *)
Lemma JacobiPolynomial_values (np : Z) (z pi : view) (opd : option view) (n : Z)
    (alpha beta : float) :
  n = 0 \/ n = 1 \/ n <= maxOrder MaxPolylibPoint \/ np = 0 ->
  exists pi' opd',
    JacobiPolynomial MaxPolylibPoint np z (Some pi) opd n alpha beta = Ok (Some pi', opd')
    /\ (forall j, pi' j = if in_range np j then fst (jacobi_point n alpha beta (z j))
                         else pi j)
    /\ match opd, opd' with
       | None, None => True
       | Some pd, Some pd' =>
           forall j, pd' j = if in_range np j then snd (jacobi_point n alpha beta (z j))
                             else pd j
       | _, _ => False
       end.
Proof.
  intros Hn. unfold JacobiPolynomial, in_range.
  destruct (Z.eqb_spec np 0) as [->|Hnp].
  { exists pi, opd. split; [reflexivity|]. split.
    - intros j. destruct (Z.leb_spec 0 j), (Z.ltb_spec j 0); simpl; auto; lia.
    - destruct opd; auto. intros j.
      destruct (Z.leb_spec 0 j), (Z.ltb_spec j 0); simpl; auto; lia. }
  unfold jacobi_point.
  destruct (Z.eqb_spec n 0) as [->|Hn0].
  { eexists _, _. split; [reflexivity|]. split.
    - intros j. simpl. now rewrite for_range_fill.
    - destruct opd; simpl; auto. intros j. now rewrite for_range_fill. }
  destruct (Z.eqb_spec n 1) as [->|Hn1].
  { eexists _, _. split; [reflexivity|]. split.
    - intros j. simpl. now rewrite for_range_fill.
    - destruct opd; simpl; auto. intros j. now rewrite for_range_fill. }
  assert (Hle : (maxOrder MaxPolylibPoint <? n) = false).
  { apply Z.ltb_ge. lia. }
  rewrite Hle.
  replace (negb (is_null opd) && is_null opd) with false by (now destruct opd).
  destruct (jacobi_coefficients n alpha beta) as [[a2 a3] a4].
  unfold for_range.
  destruct opd as [pd|]; simpl is_null.
  - destruct (derivative_coefficients n alpha beta false) as [[ad1 ad2] ad3].
    pose proof (jacobi_points_loop (jacobi_recurrence a2 a3 a4 n alpha beta)
                  (fun z_i p0 p1 =>
                     ((ad1 - ad2 * z_i) * p0 + ad3 * p1 / (1.0 - z_i * z_i))%float)
                  z (Z.to_nat (np - 0)) 0 pi (Some pd)) as E.
    cbv beta zeta in E. rewrite E. simpl option_map.
    eexists _, _. split; [reflexivity|]. split; intros j.
    + rewrite (for_up_pointwise
                 (fun i _ => let '(p0, _, _) := jacobi_recurrence a2 a3 a4 n alpha beta (z i) in p0)).
      unfold within. replace (0 + Z.of_nat (Z.to_nat (np - 0))) with (Z.max 0 np) by lia.
      destruct (jacobi_recurrence a2 a3 a4 n alpha beta (z j)) as [[p0 p1] p2]. simpl.
      destruct (Z.leb_spec 0 j), (Z.ltb_spec j (Z.max 0 np)), (Z.ltb_spec j np);
        simpl; auto; lia.
    + rewrite (for_up_pointwise
                 (fun i _ =>
                    let '(p0, p1, _) := jacobi_recurrence a2 a3 a4 n alpha beta (z i) in
                    ((ad1 - ad2 * z i) * p0 + ad3 * p1 / (1.0 - z i * z i))%float)).
      unfold within. replace (0 + Z.of_nat (Z.to_nat (np - 0))) with (Z.max 0 np) by lia.
      destruct (jacobi_recurrence a2 a3 a4 n alpha beta (z j)) as [[p0 p1] p2]. simpl.
      destruct (Z.leb_spec 0 j), (Z.ltb_spec j (Z.max 0 np)), (Z.ltb_spec j np);
        simpl; auto; lia.
  - destruct (derivative_coefficients n alpha beta true) as [[ad1 ad2] ad3].
    pose proof (jacobi_points_loop (jacobi_recurrence a2 a3 a4 n alpha beta)
                  (fun z_i p0 p1 =>
                     ((ad1 - ad2 * z_i) * p0 + ad3 * p1 / (1.0 - z_i * z_i))%float)
                  z (Z.to_nat (np - 0)) 0 pi None) as E.
    cbv beta zeta in E. rewrite E. simpl option_map.
    eexists _, _. split; [reflexivity|]. split; [intros j|exact I].
    rewrite (for_up_pointwise
               (fun i _ => let '(p0, _, _) := jacobi_recurrence a2 a3 a4 n alpha beta (z i) in p0)).
    unfold within. replace (0 + Z.of_nat (Z.to_nat (np - 0))) with (Z.max 0 np) by lia.
    destruct (derivative_coefficients n alpha beta false) as [[bd1 bd2] bd3].
    destruct (jacobi_recurrence a2 a3 a4 n alpha beta (z j)) as [[p0 p1] p2]. simpl.
    destruct (Z.leb_spec 0 j), (Z.ltb_spec j (Z.max 0 np)), (Z.ltb_spec j np);
      simpl; auto; lia.
Qed.

Lemma JacobiPolynomial_aborts (np : Z) (z pi : view) (opd : option view) (n : Z)
    (alpha beta : float) :
  degree_in_order MaxPolylibPoint np n = false ->
  JacobiPolynomial MaxPolylibPoint np z (Some pi) opd n alpha beta = Aborted OrderExceeded.
Proof.
  unfold degree_in_order. intros H. bool_to_prop H.
  destruct H as [[[Hnp Hn0] Hn1] Hle]. unfold JacobiPolynomial.
  apply Z.eqb_neq in Hnp, Hn0, Hn1. rewrite Hnp, Hn0, Hn1.
  replace (negb (is_null opd) && is_null opd) with false by (now destruct opd).
  apply Z.ltb_lt in Hle. now rewrite Hle.
Qed.

Lemma JacobiPolynomialDerivative_result (np : Z) (z v : view) (n : Z) (alpha beta : float) :
  (n =? 0) || degree_in_order MaxPolylibPoint np (n - 1) = true ->
  exists v',
    JacobiPolynomialDerivative MaxPolylibPoint np z v n alpha beta = Ok v'
    /\ forall j, v' j = if in_range np j then jpd_point n alpha beta (z j) else v j.
Proof.
  intros H. unfold JacobiPolynomialDerivative, jpd_point.
  destruct (Z.eqb_spec n 0) as [->|Hn0].
  - eexists. split; [reflexivity|]. intros j. now rewrite for_range_fill.
  - simpl in H. unfold degree_in_order in H. bool_to_prop H.
    destruct (JacobiPolynomial_values np z v None (n - 1) (alpha + 1) (beta + 1))
      as (P & opd' & E & HP & Hopd); [lia|].
    destruct opd'; [contradiction|]. rewrite E. simpl.
    eexists. split; [reflexivity|]. intros j.
    rewrite (for_range_pointwise
               (fun _ x => (x * (0.5 * (alpha + beta + dbl n + 1)))%float)).
    rewrite HP. unfold in_range. now destruct ((0 <=? j) && (j <? np)).
Qed.

Lemma JacobiPolynomialDerivative_aborts (np : Z) (z v : view) (n : Z) (alpha beta : float) :
  (n =? 0) || degree_in_order MaxPolylibPoint np (n - 1) = false ->
  JacobiPolynomialDerivative MaxPolylibPoint np z v n alpha beta = Aborted OrderExceeded.
Proof.
  intros H. apply orb_false_iff in H as [Hn0 Hd].
  unfold JacobiPolynomialDerivative. rewrite Hn0.
  now rewrite JacobiPolynomial_aborts.
Qed.

(** C1, at the calls the claim is about: a derivative view and no value view,
    degree 2 or more.  The test before the abort reads
    [polyd.data() && !polyd.data()], which no view satisfies; the routine
    returns at [if(!polyi.data()) return;] and leaves [polyd] as it was. *)
Theorem JacobiPolynomial_derivative_without_value (np : Z) (z polyd : view) (k : nat)
    (alpha beta : float) :
  JacobiPolynomial MaxPolylibPoint np z None (Some polyd) (2 + Z.of_nat k) alpha beta
  = Ok (None, Some polyd).
Proof.
  unfold JacobiPolynomial.
  destruct (np =? 0); [reflexivity|].
  destruct (Z.eqb_spec (2 + Z.of_nat k) 0); [lia|].
  destruct (Z.eqb_spec (2 + Z.of_nat k) 1); [lia|].
  reflexivity.
Qed.

(** C2, amended: with at least one point and a value view, a degree above
    [maxOrder] makes the routine abort with "Requested order exceeds
    maxOrder". *)
Theorem JacobiPolynomial_order_exceeded (np : Z) (z polyi : view) (polyd : option view)
    (n : Z) (alpha beta : float) :
  1 <= MaxPolylibPoint ->
  np <> 0 ->
  maxOrder MaxPolylibPoint < n ->
  JacobiPolynomial MaxPolylibPoint np z (Some polyi) polyd n alpha beta
  = Aborted OrderExceeded.
Proof.
  unfold maxOrder. intros HM Hnp Hn. unfold JacobiPolynomial, maxOrder.
  destruct (Z.eqb_spec np 0); [contradiction|].
  destruct (Z.eqb_spec n 0); [lia|].
  destruct (Z.eqb_spec n 1); [lia|].
  replace (negb (is_null polyd) && is_null polyd) with false by (now destruct polyd).
  destruct (Z.ltb_spec (2 * MaxPolylibPoint - 1) n); [reflexivity|lia].
Qed.

(* ------------------------------------------------------------------ *)
(** ** [JacobiPolynomialDerivative] *)

(** C6, amended: for degree [0], and for a degree [n] with
    [n - 1 <= maxOrder], the routine
    returns; it leaves the entries outside [0 .. np-1] alone, writes [0] at
    each point when [n = 0], and otherwise writes the value
    [JacobiPolynomial] gives for degree [n-1] and parameters
    [(alpha+1, beta+1)] multiplied by [0.5*(alpha+beta+n+1)]. *)
Theorem JacobiPolynomialDerivative_delegates (np : Z) (z polyd : view) (n : Z)
    (alpha beta : float) :
  n = 0 \/ n - 1 <= maxOrder MaxPolylibPoint ->
  exists v,
    JacobiPolynomialDerivative MaxPolylibPoint np z polyd n alpha beta = Ok v
    /\ (forall j, in_range np j = false -> v j = polyd j)
    /\ (n = 0 -> forall j, in_range np j = true -> v j = 0%float)
    /\ (n <> 0 ->
        exists P,
          JacobiPolynomial MaxPolylibPoint np z (Some polyd) None (n - 1)
            (alpha + 1) (beta + 1) = Ok (Some P, None)
          /\ (forall j, in_range np j = true ->
                 P j = fst (jacobi_point (n - 1) (alpha + 1) (beta + 1) (z j))
                 /\ v j = (P j * (0.5 * (alpha + beta + dbl n + 1)))%float)).
Proof.
  intros Hn. unfold JacobiPolynomialDerivative.
  destruct (Z.eqb_spec n 0) as [->|Hn0].
  - eexists. split; [reflexivity|]. repeat split.
    + intros j Hj. rewrite for_range_fill. unfold in_range in Hj. now rewrite Hj.
    + intros _ j Hj. rewrite for_range_fill. unfold in_range in Hj. now rewrite Hj.
    + intros H; contradiction.
  - destruct (JacobiPolynomial_values np z polyd None (n - 1) (alpha + 1) (beta + 1))
      as (P & opd' & E & HP & Hopd); [lia|].
    destruct opd'; [contradiction|].
    rewrite E. simpl.
    eexists. split; [reflexivity|]. repeat split.
    + intros j Hj.
      rewrite (for_range_pointwise
                 (fun _ x => (x * (0.5 * (alpha + beta + dbl n + 1)))%float)).
      unfold in_range in Hj. rewrite Hj, HP. unfold in_range. now rewrite Hj.
    + intros H; contradiction.
    + intros _. exists P. split; [reflexivity|]. intros j Hj. split.
      * rewrite HP, Hj. reflexivity.
      * rewrite (for_range_pointwise
                   (fun _ x => (x * (0.5 * (alpha + beta + dbl n + 1)))%float)).
        unfold in_range in Hj. now rewrite Hj.
Qed.

(* ------------------------------------------------------------------ *)
(** ** The Newton iteration of [JacobiZerosPolyDeflation] *)

(** One pass of the loop body up to [r(0) += delr], for a degree within
    [maxOrder]: the update is [newton_delta]. *)
Lemma newton_step_update (z : view) (k n : Z) (alpha beta : float) (st : newton_state) :
  n <= maxOrder MaxPolylibPoint ->
  exists poly pder,
    newton_step MaxPolylibPoint z k n alpha beta st
    = Ok (mkNewton (nw_r st + newton_delta z k n alpha beta (nw_r st)) poly pder (nw_j st),
          newton_delta z k n alpha beta (nw_r st)).
Proof.
  intros Hn. destruct st as [r poly pder j]. unfold newton_step.
  destruct (JacobiPolynomial_values 1 (fun _ => r) poly (Some pder) n alpha beta)
    as (poly' & opd' & E & Hp & Hd); [lia|].
  destruct opd' as [pder'|]; [|contradiction].
  rewrite E. simpl bind. exists poly', pder'.
  unfold newton_delta. simpl nw_r. simpl nw_j.
  rewrite (Hp 0), (Hd 0). simpl in_range. cbv iota.
  destruct (jacobi_point n alpha beta r) as [p q]. reflexivity.
Qed.

(** The loop makes at most [cnt] updates; it stops at the first update below
    the tolerance, and otherwise when the [cnt] passes are used up. *)
Lemma newton_loop_stops (z : view) (k n : Z) (alpha beta : float) (cnt : nat) :
  n <= maxOrder MaxPolylibPoint ->
  forall st : newton_state,
  exists (t : nat) (st' : newton_state),
    (t <= cnt)%nat
    /\ newton_loop MaxPolylibPoint tolerence cnt z k n alpha beta st = Ok st'
    /\ nw_r st' = newton_iterate z k n alpha beta t (nw_r st)
    /\ (forall s, (S s < t)%nat ->
          (abs (newton_delta z k n alpha beta (newton_iterate z k n alpha beta s (nw_r st)))
           <? tolerence)%float = false)
    /\ (t = cnt
        \/ ((0 < t)%nat
            /\ (abs (newton_delta z k n alpha beta
                       (newton_iterate z k n alpha beta (t - 1) (nw_r st)))
                <? tolerence)%float = true)).
Proof.
  intros Hn. induction cnt as [|cnt IH]; intros st.
  - exists 0%nat, st. repeat split; auto. intros s Hs. inversion Hs.
  - destruct (newton_step_update z k n alpha beta st Hn) as (poly & pder & E).
    simpl newton_loop. rewrite E. simpl bind.
    destruct (abs (newton_delta z k n alpha beta (nw_r st)) <? tolerence)%float eqn:Htol.
    + exists 1%nat. eexists. repeat split.
      * lia.
      * intros s Hs. lia.
      * right. split; [lia|]. exact Htol.
    + simpl nw_r. simpl nw_poly. simpl nw_pder. simpl nw_j.
      destruct (IH (mkNewton (nw_r st + newton_delta z k n alpha beta (nw_r st))
                      poly pder (nw_j st + 1)))
        as (t & st' & Ht & E' & Hr & Hprior & Hstop).
      exists (S t), st'. simpl nw_r in *. repeat split.
      * lia.
      * exact E'.
      * exact Hr.
      * intros s Hs. destruct s as [|s]; [exact Htol|].
        simpl newton_iterate. apply Hprior. lia.
      * destruct Hstop as [->|[Hpos Hlast]]; [now left|right].
        split; [lia|].
        replace (S t - 1)%nat with (S (t - 1)) by lia.
        exact Hlast.
Qed.

(** C3, amended: for every root index [k] (and a degree within [maxOrder]),
    the Newton iteration returns the iterate after [t] updates, where [t] is
    at most [MaxPolylibIteration - 1]; no update before the last one was below
    the tolerance, and the last one was, unless all the
    [MaxPolylibIteration - 1] passes were used.  In either case no failure is
    raised, and the iterate is stored in [z(k)] and kept as [rlast]. *)
Theorem deflation_root_stops (z : view) (rlast : float) (k n : Z) (alpha beta : float) :
  n <= maxOrder MaxPolylibPoint ->
  exists t : nat,
    (t <= Z.to_nat (MaxPolylibIteration - 1))%nat
    /\ deflation_root cos MaxPolylibPoint MaxPolylibIteration tolerence n alpha beta k
         (z, rlast)
       = Ok (upd z k (newton_iterate z k n alpha beta t (initial_guess cos k n rlast)),
             newton_iterate z k n alpha beta t (initial_guess cos k n rlast))
    /\ (forall s, (S s < t)%nat ->
          (abs (newton_delta z k n alpha beta
                  (newton_iterate z k n alpha beta s (initial_guess cos k n rlast)))
           <? tolerence)%float = false)
    /\ (t = Z.to_nat (MaxPolylibIteration - 1)
        \/ ((0 < t)%nat
            /\ (abs (newton_delta z k n alpha beta
                       (newton_iterate z k n alpha beta (t - 1)
                          (initial_guess cos k n rlast)))
                <? tolerence)%float = true)).
Proof.
  intros Hn. unfold deflation_root, newton.
  destruct (newton_loop_stops z k n alpha beta (Z.to_nat (MaxPolylibIteration - 1)) Hn
              (mkNewton (initial_guess cos k n rlast) zero_view zero_view 1))
    as (t & st' & Ht & E & Hr & Hprior & Hstop).
  exists t. rewrite E. simpl bind. simpl nw_r in *. rewrite Hr.
  repeat split; assumption.
Qed.

(* ------------------------------------------------------------------ *)
(** ** Differentiation matrices *)

(** The two runs of the delegated call, on the views [v1] and [v2]. *)
Lemma JacobiPolynomialDerivative_two_runs (np : Z) (z v1 v2 : view) (n : Z)
    (alpha beta : float) :
  (exists p1 p2,
      JacobiPolynomialDerivative MaxPolylibPoint np z v1 n alpha beta = Ok p1
      /\ JacobiPolynomialDerivative MaxPolylibPoint np z v2 n alpha beta = Ok p2
      /\ (forall j, p1 j = if in_range np j then jpd_point n alpha beta (z j) else v1 j)
      /\ (forall j, p2 j = if in_range np j then jpd_point n alpha beta (z j) else v2 j))
  \/ (JacobiPolynomialDerivative MaxPolylibPoint np z v1 n alpha beta = Aborted OrderExceeded
      /\ JacobiPolynomialDerivative MaxPolylibPoint np z v2 n alpha beta
         = Aborted OrderExceeded).
Proof.
  destruct ((n =? 0) || degree_in_order MaxPolylibPoint np (n - 1)) eqn:E.
  - left.
    destruct (JacobiPolynomialDerivative_result np z v1 n alpha beta E)
      as (p1 & E1 & H1).
    destruct (JacobiPolynomialDerivative_result np z v2 n alpha beta E)
      as (p2 & E2 & H2).
    now exists p1, p2.
  - right. split; now apply JacobiPolynomialDerivative_aborts.
Qed.

Lemma weights_independent (t : EPolyType) (np : Z) (z : view) (alpha beta : float)
    (v1 v2 : view) :
  1 <= np ->
  same_weights np v1 v2
    (derivative_weights pow MaxPolylibPoint t np z alpha beta v1)
    (derivative_weights pow MaxPolylibPoint t np z alpha beta v2).
Proof.
  intros Hnp. destruct t; simpl derivative_weights.
  - unfold pd_Gauss.
    destruct (JacobiPolynomialDerivative_two_runs np z v1 v2 np alpha beta)
      as [(p1 & p2 & E1 & E2 & H1 & H2)|[E1 E2]]; rewrite E1, E2; simpl; [|reflexivity].
    intros j. rewrite H1, H2. settle_tests; auto.
  - unfold pd_GaussRadauLeft. repeat gamma_case.
    destruct (JacobiPolynomialDerivative_two_runs (np - 1) (subview_from z 1)
                (subview_from (upd v1 0 (pow (-1) (dbl (np - 1)) * g / (g0 * g1))%float) 1)
                (subview_from (upd v2 0 (pow (-1) (dbl (np - 1)) * g / (g0 * g1))%float) 1)
                (np - 1) alpha (beta + 1)%float)
      as [(p1 & p2 & E1 & E2 & H1 & H2)|[E1 E2]]; rewrite E1, E2; simpl; [|reflexivity].
    intros j.
    rewrite !(for_range_pointwise (fun i x => (x * (1 + z i))%float)).
    unfold subview_store. rewrite ?H1, ?H2. unfold subview_from, upd.
    settle_tests; try reflexivity; try (split; f_equal; lia).
  - unfold pd_GaussRadauRight.
    destruct (JacobiPolynomialDerivative_two_runs (np - 1) z v1 v2 (np - 1)
                (alpha + 1)%float beta)
      as [(p1 & p2 & E1 & E2 & H1 & H2)|[E1 E2]]; rewrite E1, E2; simpl bind;
      [|reflexivity].
    repeat gamma_case. simpl. intros j.
    unfold upd.
    rewrite !(for_range_pointwise (fun i x => (x * (1 - z i))%float)).
    rewrite ?H1, ?H2.
    settle_tests; try reflexivity; try (split; reflexivity).
  - unfold pd_GaussLobatto. repeat gamma_case.
    match goal with
    | |- context [JacobiPolynomialDerivative _ _ _ (subview_from ?a 1) _ _ _] =>
        match goal with
        | |- context [JacobiPolynomialDerivative _ _ _ (subview_from ?b 1) _ _ _] =>
            tryif constr_eq a b then fail else
              destruct (JacobiPolynomialDerivative_two_runs (np - 2) (subview_from z 1)
                          (subview_from a 1) (subview_from b 1)
                          (np - 2) (alpha + 1)%float (beta + 1)%float)
                as [(p1 & p2 & E1 & E2 & H1 & H2)|[E1 E2]]
        end
    end.
    2: { first [rewrite E1, E2 | rewrite E2, E1]; simpl; reflexivity. }
    first [rewrite E1, E2 | rewrite E2, E1]; simpl bind.
    repeat gamma_case. simpl. intros j.
    unfold upd.
    rewrite !(for_range_pointwise (fun i x => (x * (1 - z i * z i))%float)).
    unfold subview_store. rewrite ?H1, ?H2. unfold subview_from, upd.
    settle_tests; try reflexivity; try (split; f_equal; lia).
Qed.

(** C8: the matrix [Derivative<polyType>::getValues] leaves is the one of the
    reference that keeps the weights in a buffer of its own (the two fail
    alike when the weights cannot be computed); and, the weights [pd] once
    computed, each read through [pd_i] and [pd_j] in the pair [(i, j)] finds
    the weight, before and after the first write of the pair: a weight is
    overwritten only by the write that follows its last read. *)
Theorem Derivative_weights_in_last_row (t : EPolyType) (D : matrix) (z : view) (np : Z)
    (alpha beta : float) (buffer : view) :
  same_matrix
    (Derivative_getValues pow MaxPolylibPoint t D z np alpha beta)
    (Derivative_reference pow MaxPolylibPoint t D buffer z np alpha beta)
  /\ (forall pd,
        derivative_weights pow MaxPolylibPoint t np z alpha beta (D (np - 1)) = Ok pd ->
        forall i j x,
          0 <= j < i -> i < np ->
          let M := matrix_before t np z alpha beta i j (row_store D (np - 1) pd) in
          M (np - 1) i = pd i /\ M (np - 1) j = pd j
          /\ upd2 M j i x (np - 1) i = pd i /\ upd2 M j i x (np - 1) j = pd j).
Proof.
  split.
  - unfold Derivative_getValues, Derivative_reference.
    destruct (Z.leb_spec np 0) as [Hnp|Hnp]; [simpl; reflexivity|].
    pose proof (weights_independent t np z alpha beta (D (np - 1)) buffer ltac:(lia)) as H.
    unfold same_weights in H.
    destruct (derivative_weights pow MaxPolylibPoint t np z alpha beta (D (np - 1)))
      as [p1|k1|],
      (derivative_weights pow MaxPolylibPoint t np z alpha beta buffer) as [p2|k2|];
      simpl; try contradiction; auto.
    apply alias_fill_matrix; [lia|]. now apply alias_start with (v := buffer).
  - intros pd Hpd i j x Hij Hi.
    apply alias_reads_before with (D2 := D); auto.
    pose proof (weights_independent t np z alpha beta (D (np - 1)) (D (np - 1))
                  ltac:(lia)) as H.
    unfold same_weights in H. rewrite Hpd in H.
    apply alias_start with (v := D (np - 1)). exact H.
Qed.

(* ------------------------------------------------------------------ *)
(** ** The zero finders write [z(0 .. n-1)] only *)

Lemma deflation_roots_frame (n : Z) (alpha beta : float) (cnt : nat) :
  forall (k : Z) (z : view) (rlast : float) (zr : view * float),
    for_upM cnt k
      (deflation_root cos MaxPolylibPoint MaxPolylibIteration tolerence n alpha beta)
      (z, rlast) = Ok zr ->
    forall j, ~ k <= j < k + Z.of_nat cnt -> fst zr j = z j.
Proof.
  induction cnt as [|cnt IH]; intros k z rlast zr.
  - simpl. intros [= <-]. reflexivity.
  - simpl for_upM. unfold deflation_root at 1.
    destruct (newton _ _ _ _ _ _ _ _ _) as [st| |]; simpl bind; try discriminate.
    intros H j Hj. rewrite (IH _ _ _ _ H) by lia. apply upd_other. lia.
Qed.

Lemma JacobiZerosPolyDeflation_frame (z z' : view) (n : Z) (alpha beta : float) :
  JacobiZerosPolyDeflation cos MaxPolylibPoint MaxPolylibIteration tolerence z n alpha beta
  = Ok z' ->
  forall j, ~ 0 <= j < n -> z' j = z j.
Proof.
  unfold JacobiZerosPolyDeflation. destruct (n =? 0); [now intros [= <-]|].
  unfold for_rangeM.
  destruct (for_upM _ _ _ _) as [zr| |] eqn:E; simpl bind; try discriminate.
  intros [= <-] j Hj. apply (deflation_roots_frame _ _ _ _ _ _ _ _ E). lia.
Qed.

Lemma TriQL_frame (d e d' e' : view) (n : Z) :
  TriQL MaxPolylibIteration d e n = Ok (d', e') ->
  forall j, ~ 0 <= j < n -> d' j = d j.
Proof.
  unfold TriQL.
  destruct (TriQL_reduce MaxPolylibIteration d e n) as [[dq eq]| |] eqn:E;
    simpl bind; try discriminate.
  intros [= <- <-] j Hj.
  destruct (TriQL_order_spec n dq) as (_ & _ & Hframe).
  rewrite Hframe by assumption.
  now apply (TriQL_reduce_frame _ _ _ _ _ _ E).
Qed.

Lemma JacobiZerosTriDiagonal_frame (a a' : view) (n : Z) (alpha beta : float) :
  0 <= n ->
  JacobiZerosTriDiagonal pow MaxPolylibIteration a n alpha beta = Ok a' ->
  forall j, ~ 0 <= j < n -> a' j = a j.
Proof.
  intros Hn. unfold JacobiZerosTriDiagonal.
  destruct (Z.eqb_spec n 0) as [->|Hn0]; [now intros [= <-]|].
  repeat match goal with
    | |- context [bind (GammaFunction ?x) _] =>
        destruct (GammaFunction x) as [?g| |]; simpl bind; try discriminate
    end.
  cbv zeta. unfold for_range.
  erewrite for_up_pair; [|intros i a0 b0; reflexivity].
  destruct (TriQL _ _ _ _) as [[d' e']| |] eqn:E; simpl bind; try discriminate.
  intros [= <-] j Hj. simpl fst.
  rewrite (TriQL_frame _ _ _ _ _ E) by assumption.
  destruct (Z.ltb_spec 1 n).
  - rewrite upd_other by lia.
    rewrite (for_up_pointwise (fun i _ => _)). unfold within.
    destruct (_ && _) eqn:Ew; [bool_to_prop Ew; lia|]. apply upd_other. lia.
  - rewrite (for_up_pointwise (fun i _ => _)). unfold within.
    destruct (_ && _) eqn:Ew; [bool_to_prop Ew; lia|]. apply upd_other. lia.
Qed.

Lemma JacobiZeros_frame (z z' : view) (n : Z) (alpha beta : float) :
  0 <= n ->
  JacobiZeros cos pow MaxPolylibPoint MaxPolylibIteration tolerence DeflationEnabled
    z n alpha beta = Ok z' ->
  forall j, ~ 0 <= j < n -> z' j = z j.
Proof.
  intros Hn. unfold JacobiZeros. destruct DeflationEnabled.
  - apply JacobiZerosPolyDeflation_frame.
  - now apply JacobiZerosTriDiagonal_frame.
Qed.

(** C7, amended: for [np >= 2], once the zeros, the polynomial values [P] at
    the nodes and the constant [fac] are there, the Gauss-Lobatto rule returns with
    [z(0) = -1] and [z(np-1) = 1], with the [np-2] nodes between them the
    zeros [JacobiZeros(np-2, alpha+1, beta+1)] left in the view it was given,
    and with the weights [fac / P(z_i)^2], the first multiplied by [beta+1]
    and the last by [alpha+1]. *)
Theorem Cubature_GaussLobatto_rule (z w : view) (np : Z) (alpha beta : float)
    (zeros P : view) (fac : float) :
  2 <= np ->
  JacobiZeros cos pow MaxPolylibPoint MaxPolylibIteration tolerence DeflationEnabled
    (subview_from (upd (upd z 0 (- 1)%float) (np - 1) 1%float) 1) (np - 2)
    (alpha + 1)%float (beta + 1)%float = Ok zeros ->
  JacobiPolynomial MaxPolylibPoint np
    (subview_store (upd (upd z 0 (- 1)%float) (np - 1) 1%float) 1 zeros)
    (Some w) None (np - 1) alpha beta = Ok (Some P, None) ->
  lobatto_fac pow np alpha beta = Ok fac ->
  exists z' w',
    Cubature_getValues cos pow MaxPolylibPoint MaxPolylibIteration tolerence
      DeflationEnabled POLYTYPE_GAUSS_LOBATTO z w np alpha beta = Ok (z', w')
    /\ z' 0 = (- 1)%float
    /\ z' (np - 1) = 1%float
    /\ (forall i, 1 <= i <= np - 2 -> z' i = zeros (i - 1))
    /\ w' 0 = (fac / (P 0%Z * P 0%Z) * (beta + 1))%float
    /\ w' (np - 1) = (fac / (P (np - 1)%Z * P (np - 1)%Z) * (alpha + 1))%float
    /\ (forall i, 1 <= i <= np - 2 -> w' i = (fac / (P i * P i))%float).
Proof.
  intros Hnp Hz HP Hfac. simpl Cubature_getValues. unfold Cubature_GaussLobatto.
  destruct (Z.eqb_spec np 1); [lia|].
  rewrite Hz. simpl bind. rewrite HP. simpl bind. rewrite Hfac. simpl bind.
  eexists _, _. split; [reflexivity|].
  pose proof (JacobiZeros_frame _ _ (np - 2) _ _ ltac:(lia) Hz (np - 2) ltac:(lia)) as Hlast.
  unfold subview_store, subview_from, upd in *.
  repeat split.
  - settle_tests; reflexivity.
  - replace (np - 1 - 1) with (np - 2) by lia. rewrite Hlast.
    settle_tests; reflexivity.
  - intros i Hi. settle_tests; reflexivity.
  - rewrite !(for_range_pointwise (fun _ x => (fac / (x * x))%float)).
    settle_tests; reflexivity.
  - rewrite !(for_range_pointwise (fun _ x => (fac / (x * x))%float)).
    settle_tests; reflexivity.
  - intros i Hi. rewrite !(for_range_pointwise (fun _ x => (fac / (x * x))%float)).
    settle_tests; reflexivity.
Qed.

End PolylibFacts.

(** C5 at a rule the theorem covers. *)
Lemma Cubature_single_point_Lobatto :
  POLYTYPE_GAUSS_LOBATTO <> POLYTYPE_GAUSS
  /\ exists z' w',
       Cubature_getValues Sample.cos Sample.pow Sample.MaxPolylibPoint
         Sample.MaxPolylibIteration Sample.tolerence false
         POLYTYPE_GAUSS_LOBATTO zero_view zero_view 1 0%float 0%float = Ok (z', w')
       /\ z' 0 = 0%float /\ w' 0 = 2%float
       /\ (forall j, j <> 0 -> z' j = zero_view j /\ w' j = zero_view j).
Proof.
  split; [discriminate|].
  apply (Cubature_single_point Sample.cos Sample.pow Sample.MaxPolylibPoint
           Sample.MaxPolylibIteration Sample.tolerence false
           POLYTYPE_GAUSS_LOBATTO zero_view zero_view 0%float 0%float).
  discriminate.
Defined.

(** C2: the degree is above [maxOrder], and the routine returns normally, for
    a call with no point and for a call with no value view. *)
Lemma JacobiPolynomial_order_not_checked :
  maxOrder Sample.MaxPolylibPoint < 64
  /\ JacobiPolynomial Sample.MaxPolylibPoint 0 zero_view (Some zero_view) None 64
       0%float 0%float = Ok (Some zero_view, None)
  /\ JacobiPolynomial Sample.MaxPolylibPoint 1 zero_view None None 64
       0%float 0%float = Ok (None, None).
Proof. repeat split. Qed.

(** C2, amended, at [np = 1] and degree 64. *)
Lemma JacobiPolynomial_order_exceeded_at_64 :
  JacobiPolynomial Sample.MaxPolylibPoint 1 zero_view (Some zero_view) None 64
    0%float 0%float = Aborted OrderExceeded.
Proof.
  apply (JacobiPolynomial_order_exceeded Sample.MaxPolylibPoint 1 zero_view zero_view
           None 64 0%float 0%float); unfold Sample.MaxPolylibPoint, maxOrder; lia.
Defined.

(** C6: at degree 65 the call the routine delegates to aborts, and nothing is
    written. *)
Lemma JacobiPolynomialDerivative_aborts_at_65 :
  JacobiPolynomialDerivative Sample.MaxPolylibPoint 1 zero_view zero_view 65
    0%float 0%float = Aborted OrderExceeded.
Proof. reflexivity. Qed.

(** C6, amended, at two points and degree 3. *)
Lemma JacobiPolynomialDerivative_delegates_at_3 :
  exists v,
    JacobiPolynomialDerivative Sample.MaxPolylibPoint 2 (upd zero_view 1 0.5%float)
      zero_view 3 0%float 0%float = Ok v
    /\ v 0 = (-1.5)%float /\ v 1 = 0.375%float.
Proof.
  destruct (JacobiPolynomialDerivative_delegates Sample.MaxPolylibPoint 2
              (upd zero_view 1 0.5%float) zero_view 3 0%float 0%float)
    as (v & E & _ & _ & H).
  { right. unfold Sample.MaxPolylibPoint, maxOrder; lia. }
  exists v. split; [exact E|].
  destruct H as (P & _ & HP); [lia|].
  destruct (HP 0 eq_refl) as [E0 ->]. destruct (HP 1 eq_refl) as [E1 ->].
  rewrite E0, E1. split; vm_compute; reflexivity.
Defined.

(** C4: beyond the range of [int] the cast [(ordinal_type) x] is undefined,
    and the routine with it: at the integer [2^31], at [3000000000.5] and at
    [3000000000.25] (an integer, an integer plus one half, and neither)
    nothing is returned and no abort is raised. *)
Lemma GammaFunction_beyond_int_range :
  (trunc_double 0x1p+31 = Some 2147483648
   /\ (0x1p+31 - dbl 2147483648 =? 0)%float = true
   /\ GammaFunction 0x1p+31 = Undefined)
  /\ (trunc_double 3000000000.5 = Some 3000000000
      /\ (3000000000.5 - dbl 3000000000 =? 0.5)%float = true
      /\ GammaFunction 3000000000.5 = Undefined)
  /\ (trunc_double 3000000000.25 = Some 3000000000
      /\ (3000000000.25 - dbl 3000000000 =? 0.25)%float = true
      /\ GammaFunction 3000000000.25 = Undefined).
Proof. repeat split; vm_compute; reflexivity. Qed.

(** C4, amended, at [3.5], [4] and [0.25]. *)
Lemma GammaFunction_cases_at_samples :
  GammaFunction 3.5 = Ok (sqrt M_PI * 2.5 * 1.5 * 0.5)%float
  /\ GammaFunction 4 = Ok 6%float
  /\ GammaFunction 0.25 = Aborted InvalidDomain.
Proof.
  destruct GammaFunction_cases as (_ & _ & _ & _ & Hhalf & Hint & _ & Hnone).
  split; [|split].
  - rewrite (Hhalf 3.5%float 3);
      [vm_compute; reflexivity|vm_compute; reflexivity|split; vm_compute; reflexivity].
  - rewrite (Hint 4%float 4);
      [vm_compute; reflexivity|vm_compute; reflexivity|split; vm_compute; reflexivity].
  - apply (Hnone 0.25%float 0); try (vm_compute; reflexivity);
      intros [_ H]; vm_compute in H; discriminate.
Defined.

(** C3: [JacobiZerosPolyDeflation] for degree 5 and [(alpha, beta) = (0.5, 1)]
    has the roots [found_roots] and the starting point [fifth_guess] when it
    looks for the fifth root.  With [MaxPolylibIteration = 50] and none of the
    first 50 updates below the tolerance, the loop returns the iterate after
    49 updates, and that is not the iterate after 50. *)
Lemma newton_stops_one_pass_early :
  result_value (fun zr : view * float => (entries (fst zr) 4, snd zr))
    (for_rangeM 0 4
       (deflation_root Sample.cos Sample.MaxPolylibPoint Sample.MaxPolylibIteration
          Sample.tolerence 5 0.5%float 1%float) (zero_view, 0%float))
  = Some (entries Sample.found_roots 4, Sample.found_roots 3)
  /\ initial_guess Sample.cos 4 5 (Sample.found_roots 3) = Sample.fifth_guess
  /\ result_value nw_r
    (newton Sample.MaxPolylibPoint Sample.MaxPolylibIteration Sample.tolerence
       Sample.found_roots 4 5 0.5%float 1%float Sample.fifth_guess)
  = Some (newton_iterate Sample.found_roots 4 5 0.5%float 1%float 49 Sample.fifth_guess)
  /\ forallb
       (fun s =>
          negb (abs (newton_delta Sample.found_roots 4 5 0.5 1
                       (newton_iterate Sample.found_roots 4 5 0.5 1 s Sample.fifth_guess))
                <? Sample.tolerence)%float)
       (seq 0 50) = true
  /\ (newton_iterate Sample.found_roots 4 5 0.5 1 49 Sample.fifth_guess
      =? newton_iterate Sample.found_roots 4 5 0.5 1 50 Sample.fifth_guess)%float = false.
Proof. repeat split; vm_compute; reflexivity. Qed.

(** C3, amended, at that state. *)
Lemma deflation_root_stops_at_fifth_root :
  5 <= maxOrder Sample.MaxPolylibPoint
  /\ exists t : nat,
       (t <= Z.to_nat (Sample.MaxPolylibIteration - 1))%nat
       /\ deflation_root Sample.cos Sample.MaxPolylibPoint Sample.MaxPolylibIteration
            Sample.tolerence 5 0.5%float 1%float 4 (Sample.found_roots, 0.5%float)
          = Ok (upd Sample.found_roots 4
                  (newton_iterate Sample.found_roots 4 5 0.5%float 1%float t
                     (initial_guess Sample.cos 4 5 0.5%float)),
                newton_iterate Sample.found_roots 4 5 0.5%float 1%float t
                  (initial_guess Sample.cos 4 5 0.5%float))
       /\ (forall s, (S s < t)%nat ->
             (abs (newton_delta Sample.found_roots 4 5 0.5 1
                     (newton_iterate Sample.found_roots 4 5 0.5 1 s
                        (initial_guess Sample.cos 4 5 0.5)))
              <? Sample.tolerence)%float = false)
       /\ (t = Z.to_nat (Sample.MaxPolylibIteration - 1)
           \/ ((0 < t)%nat
               /\ (abs (newton_delta Sample.found_roots 4 5 0.5 1
                          (newton_iterate Sample.found_roots 4 5 0.5 1 (t - 1)
                             (initial_guess Sample.cos 4 5 0.5)))
                   <? Sample.tolerence)%float = true)).
Proof.
  split; [unfold maxOrder, Sample.MaxPolylibPoint; lia|].
  apply (deflation_root_stops Sample.cos Sample.MaxPolylibPoint Sample.MaxPolylibIteration
           Sample.tolerence Sample.found_roots 0.5%float 4 5 0.5%float 1%float).
  unfold maxOrder, Sample.MaxPolylibPoint; lia.
Defined.

(** A result that is there is the one [result_or] takes. *)
Lemma result_or_ok {A : Type} (a : A) (r : result A) :
  result_value (fun _ => tt) r = Some tt -> r = Ok (result_or a r).
Proof. destruct r; simpl; congruence. Qed.

(** C7: at three points and [(alpha, beta) = (0.25, 0)] the rule aborts with
    "Argument is not of integer or half order" and leaves no weight, with
    either zero finder.  With the deflation finder the zero is found and the
    failure is that of the weight constant, [GammaFunction(3.25)]. *)
Lemma Cubature_GaussLobatto_aborts_at_3 :
  2 <= 3
  /\ Cubature_getValues Sample.cos Sample.pow Sample.MaxPolylibPoint
       Sample.MaxPolylibIteration Sample.tolerence true
       POLYTYPE_GAUSS_LOBATTO zero_view zero_view 3 0.25 0 = Aborted InvalidDomain
  /\ Cubature_getValues Sample.cos Sample.pow Sample.MaxPolylibPoint
       Sample.MaxPolylibIteration Sample.tolerence false
       POLYTYPE_GAUSS_LOBATTO zero_view zero_view 3 0.25 0 = Aborted InvalidDomain
  /\ result_value (fun _ => tt)
       (JacobiZeros Sample.cos Sample.pow Sample.MaxPolylibPoint
          Sample.MaxPolylibIteration Sample.tolerence true
          (subview_from (upd (upd zero_view 0 (-1)%float) 2 1%float) 1) 1
          (0.25 + 1)%float (0 + 1)%float) = Some tt
  /\ lobatto_fac Sample.pow 3 0.25 0 = Aborted InvalidDomain.
Proof. split; [lia|]. repeat split; vm_compute; reflexivity. Qed.

(** C7, amended, at three points and [(alpha, beta) = (0, 0)]: the weights at
    the ends are one third. *)
Lemma Cubature_GaussLobatto_rule_at_3 :
  2 <= 3
  /\ exists z' w',
       Cubature_getValues Sample.cos Sample.pow Sample.MaxPolylibPoint
         Sample.MaxPolylibIteration Sample.tolerence false
         POLYTYPE_GAUSS_LOBATTO zero_view zero_view 3 0%float 0%float = Ok (z', w')
       /\ z' 0 = (- 1)%float /\ z' 2 = 1%float
       /\ w' 0 = 0x1.5555555555555p-2%float
       /\ w' 2 = 0x1.5555555555555p-2%float.
Proof.
  split; [lia|].
  pose (z0 := upd (upd zero_view 0 (- 1)%float) (3 - 1) 1%float).
  pose (zeros :=
          result_or zero_view
            (JacobiZeros Sample.cos Sample.pow Sample.MaxPolylibPoint
               Sample.MaxPolylibIteration Sample.tolerence false
               (subview_from z0 1) (3 - 2) (0 + 1)%float (0 + 1)%float)).
  assert (Hz : JacobiZeros Sample.cos Sample.pow Sample.MaxPolylibPoint
                 Sample.MaxPolylibIteration Sample.tolerence false
                 (subview_from z0 1) (3 - 2) (0 + 1)%float (0 + 1)%float = Ok zeros).
  { apply result_or_ok. vm_compute. reflexivity. }
  destruct (JacobiPolynomial_values Sample.MaxPolylibPoint 3 (subview_store z0 1 zeros)
              zero_view None (3 - 1) 0%float 0%float)
    as (P & opd & HP & HPv & Hopd).
  { right. right. left. unfold maxOrder, Sample.MaxPolylibPoint. lia. }
  destruct opd; [contradiction|].
  assert (Hfac : lobatto_fac Sample.pow 3 0%float 0%float = Ok 0x1.5555555555555p-2%float)
    by (vm_compute; reflexivity).
  destruct (Cubature_GaussLobatto_rule Sample.cos Sample.pow Sample.MaxPolylibPoint
              Sample.MaxPolylibIteration Sample.tolerence false
              zero_view zero_view 3 0%float 0%float zeros P _
              ltac:(lia) Hz HP Hfac)
    as (z' & w' & E & H0 & H2 & _ & Hw0 & Hw2 & _).
  exists z', w'. split; [exact E|]. split; [exact H0|]. split; [exact H2|].
  change (3 - 1) with 2 in Hw2. rewrite Hw0, Hw2, !HPv. split; vm_compute; reflexivity.
Defined.

(** C9 on the matrix [diagonal3], [offdiagonal3]. *)
Lemma TriQL_orders_eigenvalues_of_3 :
  exists dq d' e',
    TriQL Sample.MaxPolylibIteration Sample.diagonal3 Sample.offdiagonal3 3 = Ok (d', e')
    /\ TriQL_reduce Sample.MaxPolylibIteration Sample.diagonal3 Sample.offdiagonal3 3
       = Ok (dq, e')
    /\ StronglySorted float_le (entries d' 3)
    /\ Permutation (entries dq 3) (entries d' 3).
Proof.
  destruct (TriQL Sample.MaxPolylibIteration Sample.diagonal3 Sample.offdiagonal3 3)
    as [[d' e']| |] eqn:E.
  - destruct (TriQL_orders_eigenvalues _ _ _ _ _ _ E) as (dq & E1 & _ & Hs & Hp & _).
    exists dq, d', e'. auto.
  - exfalso. vm_compute in E. discriminate.
  - exfalso. vm_compute in E. discriminate.
Defined.

(** C8 on the three Gauss-Lobatto nodes [-1, 0, 1] with
    [(alpha, beta) = (0, 0)]: the routine and the reference return the same
    matrix, whose first entry is [-1.5]. *)
Lemma Derivative_weights_in_last_row_at_3 :
  same_matrix
    (Derivative_getValues Sample.pow Sample.MaxPolylibPoint POLYTYPE_GAUSS_LOBATTO
       (fun _ _ => 0%float) Sample.lobatto3 3 0%float 0%float)
    (Derivative_reference Sample.pow Sample.MaxPolylibPoint POLYTYPE_GAUSS_LOBATTO
       (fun _ _ => 0%float) zero_view Sample.lobatto3 3 0%float 0%float)
  /\ result_value (fun D : matrix => entries (D 0) 3)
       (Derivative_getValues Sample.pow Sample.MaxPolylibPoint POLYTYPE_GAUSS_LOBATTO
          (fun _ _ => 0%float) Sample.lobatto3 3 0%float 0%float)
     = Some [(-1.5)%float; 2%float; (-0.5)%float].
Proof.
  split.
  - exact (proj1 (Derivative_weights_in_last_row Sample.pow Sample.MaxPolylibPoint
                    POLYTYPE_GAUSS_LOBATTO (fun _ _ => 0%float) Sample.lobatto3 3
                    0%float 0%float zero_view)).
  - vm_compute. reflexivity.
Defined.

(* ================================================================== *)
(** * Further properties of the routines *)

(** ** Indices and loops *)

Lemma out_of_range (np j : Z) : ~ 0 <= j < np -> in_range np j = false.
Proof.
  unfold in_range. intros H.
  destruct (Z.leb_spec 0 j), (Z.ltb_spec j np); simpl; auto; lia.
Qed.

(** A loop whose body never fails is the loop over the plain body. *)
Lemma for_upM_pure {St : Type} (body : Z -> St -> result St) (f : Z -> St -> St) :
  (forall i s, body i s = Ok (f i s)) ->
  forall (cnt : nat) (lo : Z) (s : St),
    for_upM cnt lo body s = Ok (for_up cnt lo f s).
Proof.
  intros H. induction cnt as [|cnt IH]; intros lo s; [reflexivity|].
  simpl. rewrite H. simpl bind. apply IH.
Qed.

(** A loop whose body does nothing. *)
Lemma for_up_idle {St : Type} (cnt : nat) :
  forall (lo : Z) (s : St), for_up cnt lo (fun _ s => s) s = s.
Proof. induction cnt as [|cnt IH]; intros lo s; [reflexivity|apply IH]. Qed.

(** A loop that assigns the entries [j0 .. j0+cnt-1] of row [i]. *)
Lemma row_entries (g : Z -> float) (i : Z) (cnt : nat) :
  forall (j0 : Z) (im : matrix) (r c : Z),
    for_up cnt j0 (fun j im => upd2 im i j (g j)) im r c
    = if (r =? i) && within j0 cnt c then g c else im r c.
Proof.
  induction cnt as [|cnt IH]; intros j0 im r c.
  - simpl. now rewrite within_0, andb_false_r.
  - simpl for_up. rewrite IH, within_S. unfold upd2, within.
    index_cases; simpl; try reflexivity; try lia.
Qed.

(** The two nested loops that assign the rows [i0 .. i0+cnt-1], columns
    [0 .. nz-1]. *)
Lemma rows_entries (g : Z -> Z -> float) (nz : Z) (cnt : nat) :
  forall (i0 : Z) (im : matrix) (r c : Z),
    for_up cnt i0 (fun i im => for_range 0 nz (fun j im => upd2 im i j (g i j)) im) im r c
    = if within i0 cnt r && in_range nz c then g r c else im r c.
Proof.
  induction cnt as [|cnt IH]; intros i0 im r c.
  - simpl. now rewrite within_0.
  - simpl for_up. rewrite IH, within_S. unfold for_range.
    rewrite (row_entries (g i0)). unfold within, in_range.
    index_cases; simpl; try reflexivity; try lia.
Qed.

(* ------------------------------------------------------------------ *)
(** ** [GammaFunction]: the arguments it rejects *)

Lemma GammaFunction_rejects (x : float) (n : Z) :
  integer_part x n -> (x =? -0.5)%float = false ->
  ~ is_integer x n -> ~ is_half_integer x n ->
  GammaFunction x = Aborted InvalidDomain.
Proof.
  intros Hn Hm Hi Hh. unfold GammaFunction. rewrite Hm.
  destruct (x =? 0)%float eqn:E0.
  - exfalso. pose proof (zero_is_integer x E0) as Hz.
    destruct Hz as [Hn0 Hz]. unfold integer_part in Hn, Hn0.
    assert (n = 0%Z) by congruence. subst n. apply Hi. now split.
  - unfold integer_part in Hn. rewrite Hn.
    destruct (x - dbl n =? 0.5)%float eqn:E1; [exfalso; apply Hh; now split|].
    destruct (x - dbl n =? 0)%float eqn:E2; [exfalso; apply Hi; now split|].
    reflexivity.
Qed.

(* ------------------------------------------------------------------ *)
(** ** [TriQL]: the ordering pass on its own *)

Section OrderingPass.
Import OrderFacts.

Variable n : Z.

(** The ordering pass sorts a diagonal that holds numbers. *)
Lemma TriQL_order_sorted (d : view) :
  (2 <= n -> forall j, 0 <= j < n -> number (d j)) ->
  StronglySorted float_le (entries (TriQL_order d n) n).
Proof.
  intros Hnum.
  destruct (TriQL_order_spec n d) as (Hord & Hperm & Hframe).
  destruct (Z.le_gt_cases 2 n) as [Hn|Hn].
  - apply sorted_entries. intros a b Ha Hb.
    specialize (Hnum Hn).
    apply (entries_Forall n number) in Hnum.
    apply (Permutation_Forall Hperm) in Hnum.
    rewrite <- (entries_Forall n number) in Hnum.
    apply leb_of_not_ltb; [apply Hnum; lia|apply Hnum; lia|].
    apply Hord; lia.
  - unfold entries. destruct (Z.to_nat n) as [|[|N]] eqn:EN; try lia; simpl.
    + constructor.
    + constructor; constructor.
Qed.

(** A scan that finds nothing below the entry it starts from keeps it. *)
Lemma select_scan_keeps (d : view) (i : Z) (cnt : nat) :
  forall l : Z,
    (forall l', l <= l' < l + Z.of_nat cnt -> (d l' <? d i)%float = false) ->
    for_up cnt l (fun l '(k, p) => if (d l <? p)%float then (l, d l) else (k, p))
      (i, d i) = (i, d i).
Proof.
  induction cnt as [|cnt IH]; intros l H; [reflexivity|].
  simpl for_up. rewrite (H l) by lia. apply IH. intros l' Hl'. apply H. lia.
Qed.

Lemma order_rounds_keep (d : view) (cnt : nat) :
  ascending n d ->
  forall (i : Z) (d' : view),
    0 <= i ->
    (forall j, d' j = d j) ->
    forall j,
      for_up cnt i
        (fun i d => let '(k, p) := select_min d i n in upd (upd d k (d i)) i p) d' j
      = d j.
Proof.
  intros Hasc. induction cnt as [|cnt IH]; intros i d' Hi Heq j; [apply Heq|].
  simpl for_up. apply IH; [lia|]. intros j'.
  unfold select_min, for_range. rewrite select_scan_keeps.
  - unfold upd. destruct (j' =? i) eqn:E; [|apply Heq].
    apply Z.eqb_eq in E. subst j'. apply Heq.
  - intros l' Hl'. rewrite !Heq.
    destruct (Z.lt_ge_cases l' n); [apply Hasc; lia|lia].
Qed.

(** X13: the ordering pass of [TriQL] leaves a diagonal that is already in
    ascending order (no entry below an earlier one) exactly as it is. *)
Theorem TriQL_order_keeps_ascending (d : view) :
  ascending n d -> forall j, TriQL_order d n j = d j.
Proof.
  intros H j. unfold TriQL_order, for_range.
  apply (order_rounds_keep d _ H 0 d); [lia|reflexivity].
Qed.

End OrderingPass.

(* ------------------------------------------------------------------ *)
(** ** [TriQL]: the sweeps *)

Section Sweeps.
Import OrderFacts.

Variable MaxPolylibIteration : Z.
Variable n : Z.

(** The passes for one [l] return or abort with "Too many iterations". *)
Lemma ql_row_outcome (l : Z) (fuel : nat) :
  forall (iter : Z) (d e : view),
    0 <= iter -> iter + Z.of_nat fuel = MaxPolylibIteration ->
    (exists de, ql_row MaxPolylibIteration fuel iter l n d e = Ok de)
    \/ ql_row MaxPolylibIteration fuel iter l n d e = Aborted IterationLimitExceeded.
Proof.
  induction fuel as [|fuel IH]; intros iter d e Hi Hsum; rewrite ql_row_unfold; cbv zeta;
    destruct (find_m (Z.to_nat (n - 1 - l)) l d e =? l); try (left; eexists; reflexivity);
    destruct (Z.eqb_spec iter MaxPolylibIteration); try (now right); [lia|].
  destruct (ql_sweep l (find_m (Z.to_nat (n - 1 - l)) l d e) d e) as [d1 e1].
  apply IH; lia.
Qed.

Lemma reduce_rows_outcome (cnt : nat) :
  forall (l : Z) (d e : view),
    0 <= MaxPolylibIteration ->
    (exists de,
        for_upM cnt l
          (fun l '(d, e) =>
             ql_row MaxPolylibIteration (Z.to_nat MaxPolylibIteration) 0 l n d e) (d, e)
        = Ok de)
    \/ for_upM cnt l
         (fun l '(d, e) =>
            ql_row MaxPolylibIteration (Z.to_nat MaxPolylibIteration) 0 l n d e) (d, e)
       = Aborted IterationLimitExceeded.
Proof.
  induction cnt as [|cnt IH]; intros l d e HM; [left; eexists; reflexivity|].
  simpl for_upM.
  destruct (ql_row_outcome l (Z.to_nat MaxPolylibIteration) 0 d e ltac:(lia) ltac:(lia))
    as [[[d1 e1] E]|E]; rewrite E; simpl bind; [now apply IH|now right].
Qed.

(** The search stops where it starts when the test holds there. *)
Lemma find_m_stays (cnt : nat) (l : Z) (d e : view) :
  (cnt <> 0%nat -> negligible d e l = true) -> find_m cnt l d e = l.
Proof.
  destruct cnt as [|cnt]; [reflexivity|]. intros H. simpl.
  unfold negligible in H. now rewrite H.
Qed.

Lemma reduce_rows_idle (d e : view) (cnt : nat) :
  (forall m, 0 <= m < n - 1 -> negligible d e m = true) ->
  forall l : Z,
    0 <= l ->
    for_upM cnt l
      (fun l '(d, e) =>
         ql_row MaxPolylibIteration (Z.to_nat MaxPolylibIteration) 0 l n d e) (d, e)
    = Ok (d, e).
Proof.
  intros H. induction cnt as [|cnt IH]; intros l Hl; [reflexivity|].
  simpl for_upM. rewrite ql_row_unfold. cbv zeta.
  rewrite find_m_stays; [|intros Hc; apply H; lia].
  rewrite Z.eqb_refl. simpl bind. apply IH. lia.
Qed.

(** With every test passing at the start there is no sweep: only the ordering
    pass acts. *)
Lemma TriQL_idle (d e : view) :
  (forall m, 0 <= m < n - 1 -> negligible d e m = true) ->
  TriQL MaxPolylibIteration d e n = Ok (TriQL_order d n, e).
Proof.
  intros H. unfold TriQL, TriQL_reduce, for_rangeM.
  now rewrite (reduce_rows_idle d e (Z.to_nat (n - 0)) H 0 ltac:(lia)).
Qed.

(** Whenever [TriQL] returns, [d(0 .. n-1)] is in ascending order. *)
Lemma TriQL_sorted (d e d' e' : view) :
  TriQL MaxPolylibIteration d e n = Ok (d', e') ->
  StronglySorted float_le (entries d' n).
Proof.
  unfold TriQL.
  destruct (TriQL_reduce MaxPolylibIteration d e n) as [[dq eq]| |] eqn:Ered;
    simpl bind; try discriminate.
  intros [= <- <-]. apply TriQL_order_sorted. intros Hn.
  exact (TriQL_reduce_numbers MaxPolylibIteration n d e dq eq Hn Ered).
Qed.

(** The passes for row [l], counted: the loop is left at the first count of
    sweeps at which the search stops at [l], if that count is within the
    fuel, and aborts otherwise. *)
Lemma ql_row_sweeps (l : Z) (fuel : nat) :
  forall (iter : Z) (d e : view),
    0 <= iter -> iter + Z.of_nat fuel = MaxPolylibIteration ->
    (exists k : nat,
        (k <= fuel)%nat
        /\ settled l n (sweeps k l n (d, e)) = true
        /\ (forall j, (j < k)%nat -> settled l n (sweeps j l n (d, e)) = false)
        /\ ql_row MaxPolylibIteration fuel iter l n d e = Ok (sweeps k l n (d, e)))
    \/ ((forall j, (j <= fuel)%nat -> settled l n (sweeps j l n (d, e)) = false)
        /\ ql_row MaxPolylibIteration fuel iter l n d e = Aborted IterationLimitExceeded).
Proof.
  induction fuel as [|fuel IH]; intros iter d e Hi Hsum; rewrite ql_row_unfold; cbv zeta.
  - destruct (find_m (Z.to_nat (n - 1 - l)) l d e =? l) eqn:Em.
    + left. exists 0%nat. split; [lia|]. split; [exact Em|]. split; [|reflexivity].
      intros j Hj. lia.
    + right. destruct (Z.eqb_spec iter MaxPolylibIteration); [|lia].
      split; [|reflexivity]. intros j Hj. replace j with 0%nat by lia. exact Em.
  - destruct (find_m (Z.to_nat (n - 1 - l)) l d e =? l) eqn:Em.
    + left. exists 0%nat. split; [lia|]. split; [exact Em|]. split; [|reflexivity].
      intros j Hj. lia.
    + destruct (Z.eqb_spec iter MaxPolylibIteration); [lia|].
      destruct (ql_sweep l (find_m (Z.to_nat (n - 1 - l)) l d e) d e) as [d1 e1] eqn:Es.
      destruct (IH (iter + 1) d1 e1 ltac:(lia) ltac:(lia))
        as [(k & Hk & Hset & Hbefore & E)|[Hnone E]].
      * left. exists (S k). simpl sweeps. rewrite Es.
        split; [lia|]. split; [exact Hset|]. split; [|exact E].
        intros j Hj. destruct j as [|j]; [exact Em|].
        simpl sweeps. rewrite Es. apply Hbefore. lia.
      * right. split; [|exact E]. intros j Hj. destruct j as [|j]; [exact Em|].
        simpl sweeps. rewrite Es. apply Hnone. lia.
Qed.

(** X10: with a constant [MaxPolylibIteration] that is not negative, [TriQL]
    ends on every input: it returns, or it aborts with "Too many iterations
    in TQLI".  No row takes more than [MaxPolylibIteration] sweeps: from any
    state [(d, e)], the [do] loop for row [l] (entered with [iter = 0])
    returns the state after [k] sweeps, where [k <= MaxPolylibIteration] is
    the first count at which the search stops at [l]; and it aborts exactly
    when the search has stopped at [l] after none of
    [0, 1, ..., MaxPolylibIteration] sweeps. *)
Theorem TriQL_returns_or_aborts (d e : view) :
  0 <= MaxPolylibIteration ->
  ((exists d' e', TriQL MaxPolylibIteration d e n = Ok (d', e'))
   \/ TriQL MaxPolylibIteration d e n = Aborted IterationLimitExceeded)
  /\ forall l : Z,
       (exists k : nat,
           (k <= Z.to_nat MaxPolylibIteration)%nat
           /\ settled l n (sweeps k l n (d, e)) = true
           /\ (forall j, (j < k)%nat -> settled l n (sweeps j l n (d, e)) = false)
           /\ ql_row MaxPolylibIteration (Z.to_nat MaxPolylibIteration) 0 l n d e
              = Ok (sweeps k l n (d, e)))
       \/ ((forall j, (j <= Z.to_nat MaxPolylibIteration)%nat ->
               settled l n (sweeps j l n (d, e)) = false)
           /\ ql_row MaxPolylibIteration (Z.to_nat MaxPolylibIteration) 0 l n d e
              = Aborted IterationLimitExceeded).
Proof.
  intros HM. split.
  - unfold TriQL, TriQL_reduce, for_rangeM.
    destruct (reduce_rows_outcome (Z.to_nat (n - 0)) 0 d e HM) as [[[d1 e1] E]|E];
      rewrite E; simpl bind; [left; eauto|now right].
  - intros l. apply ql_row_sweeps; lia.
Qed.

(** X11: when the test [|e(m)| + dd == dd] of the search loop holds at every
    [m = 0 .. n-2] on entry, [TriQL] makes no sweep, whatever the iteration
    limit: it returns [e] as it was and [d] put in order by the last pass, a
    sorted permutation of the diagonal it was given. *)
Theorem TriQL_negligible_offdiagonal (d e : view) :
  (forall m, 0 <= m < n - 1 -> negligible d e m = true) ->
  TriQL MaxPolylibIteration d e n = Ok (TriQL_order d n, e)
  /\ StronglySorted float_le (entries (TriQL_order d n) n)
  /\ Permutation (entries d n) (entries (TriQL_order d n) n).
Proof.
  intros H. pose proof (TriQL_idle d e H) as E.
  split; [exact E|]. split.
  - exact (TriQL_sorted _ _ _ _ E).
  - apply TriQL_order_spec.
Qed.

(** X12: for [n <= 1] (one diagonal entry, or none) [TriQL] returns at once
    and leaves [d] and [e] as they were. *)
Theorem TriQL_one_entry (d e : view) :
  n <= 1 -> TriQL MaxPolylibIteration d e n = Ok (d, e).
Proof.
  intros Hn. rewrite TriQL_idle by (intros m Hm; lia).
  unfold TriQL_order, for_range.
  replace (Z.to_nat (n - 1 - 0)) with 0%nat by lia. reflexivity.
Qed.

(** *** The entry [e(n-1)] is written but never read *)

Lemma agree_upd (e e' : view) (i : Z) (x : float) :
  agree n e e' -> agree n (upd e i x) (upd e' i x).
Proof.
  intros H j Hj. unfold upd. destruct (j =? i); [reflexivity|now apply H].
Qed.

Lemma find_m_agree (d e e' : view) (cnt : nat) :
  agree n e e' ->
  forall m, cnt = 0%nat \/ m + Z.of_nat cnt <= n - 1 ->
    find_m cnt m d e = find_m cnt m d e'.
Proof.
  intros H. induction cnt as [|cnt IH]; intros m Hm; [reflexivity|].
  simpl. rewrite (H m) by lia.
  destruct (_ =? _)%float; [reflexivity|]. apply IH. lia.
Qed.

Lemma rotation_agree (i : Z) (st st' : rot_state) :
  i <= n - 2 -> rot_agree n st st' -> rot_agree n (rotation i st) (rotation i st').
Proof.
  intros Hi. destruct st as [d e s c p g], st' as [d' e' s' c' p' g'].
  unfold rot_agree. simpl. intros (-> & He & -> & -> & -> & ->).
  unfold rotation. rewrite (He i) by lia.
  destruct (_ <=? _)%float; simpl; repeat split; now apply agree_upd.
Qed.

Lemma rotations_agree (cnt : nat) :
  forall (i : Z) (st st' : rot_state),
    i <= n - 2 -> rot_agree n st st' ->
    rot_agree n (for_down cnt i rotation st) (for_down cnt i rotation st').
Proof.
  induction cnt as [|cnt IH]; intros i st st' Hi H; [exact H|].
  simpl for_down. apply IH; [lia|]. now apply rotation_agree.
Qed.

Lemma ql_sweep_agree (l m : Z) (d e e' : view) :
  l <= n - 2 -> m <= n - 1 -> agree n e e' ->
  fst (ql_sweep l m d e) = fst (ql_sweep l m d e')
  /\ agree n (snd (ql_sweep l m d e)) (snd (ql_sweep l m d e')).
Proof.
  intros Hl Hm He. unfold ql_sweep. cbv zeta. rewrite <- (He l) by lia.
  unfold for_range_down.
  set (g0 := (d m - d l + e l / _)%float).
  destruct (rotations_agree (Z.to_nat (m - 1 - l + 1)) (m - 1)
              (mkRot d e 1 1 0 g0) (mkRot d e' 1 1 0 g0) ltac:(lia))
    as (Hd & He' & Hs & Hc & Hp & Hg).
  { unfold rot_agree. simpl. auto 10. }
  simpl fst. simpl snd. rewrite Hd, Hp, Hg. split; [reflexivity|].
  now apply agree_upd, agree_upd.
Qed.

Lemma ql_row_agree (l : Z) (fuel : nat) :
  forall (iter : Z) (d e e' : view),
    agree n e e' ->
    outcome_agree n (ql_row MaxPolylibIteration fuel iter l n d e)
      (ql_row MaxPolylibIteration fuel iter l n d e').
Proof.
  induction fuel as [|fuel IH]; intros iter d e e' He; rewrite !ql_row_unfold; cbv zeta;
    rewrite <- (find_m_agree d e e' (Z.to_nat (n - 1 - l)) He l) by lia;
    pose proof (find_m_bounds (Z.to_nat (n - 1 - l)) l d e) as Hb;
    destruct (Z.eqb_spec (find_m (Z.to_nat (n - 1 - l)) l d e) l) as [Hm|Hm];
    try (simpl; auto; fail);
    destruct (iter =? MaxPolylibIteration); try (simpl; auto; fail).
  destruct (ql_sweep_agree l (find_m (Z.to_nat (n - 1 - l)) l d e) d e e') as [Hd He'];
    [lia|lia|exact He|].
  destruct (ql_sweep l _ d e) as [d1 e1], (ql_sweep l _ d e') as [d2 e2].
  simpl in Hd, He'. subst d2. now apply IH.
Qed.

Lemma reduce_rows_agree (cnt : nat) :
  forall (l : Z) (d e e' : view),
    agree n e e' ->
    outcome_agree n
      (for_upM cnt l
         (fun l '(d, e) =>
            ql_row MaxPolylibIteration (Z.to_nat MaxPolylibIteration) 0 l n d e) (d, e))
      (for_upM cnt l
         (fun l '(d, e) =>
            ql_row MaxPolylibIteration (Z.to_nat MaxPolylibIteration) 0 l n d e) (d, e')).
Proof.
  induction cnt as [|cnt IH]; intros l d e e' He; [simpl; auto|].
  simpl for_upM.
  pose proof (ql_row_agree l (Z.to_nat MaxPolylibIteration) 0 d e e' He) as H.
  destruct (ql_row _ _ _ _ _ d e) as [[d1 e1]| |],
           (ql_row _ _ _ _ _ d e') as [[d2 e2]| |]; simpl in H; try contradiction;
    simpl bind; auto.
  destruct H as [<- H]. now apply IH.
Qed.

(** X14: [TriQL] never reads [e(n-1)]: with any other value [x] in that entry
    it fails in the same way, or returns the same diagonal [d]. *)
Theorem TriQL_ignores_last_offdiagonal (d e : view) (x : float) :
  match TriQL MaxPolylibIteration d e n,
        TriQL MaxPolylibIteration d (upd e (n - 1) x) n with
  | Ok (d1, _), Ok (d2, _) => d1 = d2
  | Aborted k, Aborted k' => k = k'
  | Undefined, Undefined => True
  | _, _ => False
  end.
Proof.
  unfold TriQL, TriQL_reduce, for_rangeM.
  pose proof (reduce_rows_agree (Z.to_nat (n - 0)) 0 d e (upd e (n - 1) x)) as H.
  destruct (for_upM _ _ _ (d, e)) as [[d1 e1]| |],
           (for_upM _ _ _ (d, upd e (n - 1) x)) as [[d2 e2]| |];
    simpl bind; simpl in H.
  all: try (apply H; intros j Hj; now rewrite upd_other).
  destruct H as [-> _]; [|reflexivity]. intros j Hj. now rewrite upd_other.
Qed.

(** *** What the sweeps write of [e] *)

Lemma rotation_frame_e (i : Z) (st : rot_state) (j : Z) :
  j <> i + 1 -> rot_e (rotation i st) j = rot_e st j.
Proof.
  intros Hj. destruct st as [d e s c p g]. unfold rotation.
  destruct (_ <=? _)%float; simpl; now rewrite upd_other.
Qed.

Lemma rotations_frame_e (cnt : nat) :
  forall (i : Z) (st : rot_state) (j : Z),
    j <= i - Z.of_nat cnt + 1 \/ i + 1 < j ->
    rot_e (for_down cnt i rotation st) j = rot_e st j.
Proof.
  induction cnt as [|cnt IH]; intros i st j Hj; [reflexivity|].
  simpl for_down. rewrite IH by lia. apply rotation_frame_e. lia.
Qed.

Lemma ql_sweep_frame_e (l m : Z) (d e : view) (j : Z) :
  l <= m -> j < l \/ m < j -> snd (ql_sweep l m d e) j = e j.
Proof.
  intros Hlm Hj. unfold ql_sweep. cbv zeta. simpl snd.
  rewrite !upd_other by lia. unfold for_range_down.
  rewrite rotations_frame_e by lia. reflexivity.
Qed.

Lemma ql_row_frame_e (l : Z) (fuel : nat) :
  forall (iter : Z) (d e d' e' : view),
    ql_row MaxPolylibIteration fuel iter l n d e = Ok (d', e') ->
    forall j, j < l \/ n <= j -> e' j = e j.
Proof.
  induction fuel as [|fuel IH]; intros iter d e d' e'; rewrite ql_row_unfold; cbv zeta;
    destruct (Z.eqb_spec (find_m (Z.to_nat (n - 1 - l)) l d e) l) as [Hm|Hm].
  - intros [= <- <-]. auto.
  - destruct (iter =? MaxPolylibIteration); discriminate.
  - intros [= <- <-]. auto.
  - destruct (iter =? MaxPolylibIteration); [discriminate|].
    pose proof (find_m_bounds (Z.to_nat (n - 1 - l)) l d e) as Hb.
    destruct (ql_sweep l (find_m (Z.to_nat (n - 1 - l)) l d e) d e) as [d1 e1] eqn:Es.
    intros H j Hj. rewrite (IH _ _ _ _ _ H j Hj).
    change e1 with (snd (d1, e1)). rewrite <- Es. apply ql_sweep_frame_e; lia.
Qed.

Lemma reduce_rows_frame_e (cnt : nat) :
  forall (l : Z) (d e d' e' : view),
    0 <= l ->
    for_upM cnt l
      (fun l '(d, e) =>
         ql_row MaxPolylibIteration (Z.to_nat MaxPolylibIteration) 0 l n d e) (d, e)
    = Ok (d', e') ->
    forall j, j < 0 \/ n <= j -> e' j = e j.
Proof.
  induction cnt as [|cnt IH]; intros l d e d' e' Hl.
  - simpl. intros [= <- <-]. auto.
  - simpl for_upM.
    destruct (ql_row MaxPolylibIteration (Z.to_nat MaxPolylibIteration) 0 l n d e)
      as [[d1 e1]| |] eqn:Erow; simpl bind; try discriminate.
    intros H j Hj. rewrite (IH (l + 1) d1 e1 d' e' ltac:(lia) H j Hj).
    apply (ql_row_frame_e _ _ _ _ _ _ _ Erow). lia.
Qed.

(** X15: when [TriQL] returns it has written [d(0 .. n-1)] and [e(0 .. n-1)]
    only: every other entry of the two views is as it was. *)
Theorem TriQL_writes_first_entries (d e d' e' : view) :
  TriQL MaxPolylibIteration d e n = Ok (d', e') ->
  forall j, ~ 0 <= j < n -> d' j = d j /\ e' j = e j.
Proof.
  intros H j Hj. split.
  - exact (TriQL_frame MaxPolylibIteration d e d' e' n H j Hj).
  - unfold TriQL in H.
    destruct (TriQL_reduce MaxPolylibIteration d e n) as [[dq eq]| |] eqn:E;
      simpl bind in H; try discriminate.
    injection H as _ <-. unfold TriQL_reduce, for_rangeM in E.
    apply (reduce_rows_frame_e _ 0 _ _ _ _ ltac:(lia) E). lia.
Qed.

End Sweeps.

(* ------------------------------------------------------------------ *)
(** ** The entries of the reference matrix *)

Section ReferenceMatrix.

Variables z pd : view.

Lemma reference_pairs (i : Z) (cnt : nat) :
  forall (j0 : Z) (D : matrix) (r c : Z),
    0 <= j0 -> j0 + Z.of_nat cnt <= i ->
    for_up cnt j0 (off_diagonal_ref pd z i) D r c
    = if (r =? i) && within j0 cnt c then (pd i / (pd c * (z i - z c)))%float
      else if (c =? i) && within j0 cnt r then (pd r / (pd i * (z r - z i)))%float
      else D r c.
Proof.
  induction cnt as [|cnt IH]; intros j0 D r c Hj Hle.
  - simpl for_up. rewrite !within_0, !andb_false_r. reflexivity.
  - simpl for_up. rewrite IH by lia. rewrite !within_S.
    unfold off_diagonal_ref, upd2, within.
    index_cases; simpl; try reflexivity; try lia.
Qed.

Lemma reference_rows (t : EPolyType) (np : Z) (alpha beta : float) (cnt : nat) :
  forall (i0 : Z) (D : matrix) (r c : Z),
    0 <= i0 ->
    for_up cnt i0
      (fun i D =>
         let D := for_range 0 i (off_diagonal_ref pd z i) D in
         upd2 D i i (diagonal t np alpha beta i (z i))) D r c
    = if filled i0 cnt r c then derivative_entry t np z alpha beta pd r c else D r c.
Proof.
  induction cnt as [|cnt IH]; intros i0 D r c Hi.
  - simpl for_up. unfold filled.
    index_cases; simpl; try reflexivity; lia.
  - simpl for_up. rewrite IH by lia. cbv zeta. unfold for_range, upd2.
    rewrite reference_pairs by lia.
    unfold filled, within, derivative_entry.
    index_cases; simpl; try reflexivity; try lia.
Qed.

Lemma reference_matrix (t : EPolyType) (np : Z) (alpha beta : float) (D : matrix)
    (r c : Z) :
  fill_matrix_ref t np z alpha beta pd D r c
  = if in_range np r && in_range np c then derivative_entry t np z alpha beta pd r c
    else D r c.
Proof.
  unfold fill_matrix_ref, fill_rows_ref, for_range.
  rewrite reference_rows by lia. unfold filled, in_range.
  index_cases; simpl; try reflexivity; lia.
Qed.

End ReferenceMatrix.

(* ------------------------------------------------------------------ *)
(** ** The routines *)

Section Routines.

Variable cos : float -> float.
Variable pow : float -> float -> float.
Variable MaxPolylibPoint : Z.
Variable MaxPolylibIteration : Z.
Variable tolerence : float.
Variable DeflationEnabled : bool.

(** *** [JacobiPolynomial] and [JacobiPolynomialDerivative] *)

(** X1: a call of [JacobiPolynomial] with a value view aborts with "Requested
    order exceeds maxOrder" exactly when there is a point, the degree is
    neither 0 nor 1 and it is above [maxOrder]; otherwise it returns, having
    written the entries [0 .. np-1] of the views it was given and no other,
    and entry [j] depends on the point [z(j)] alone. *)
Theorem JacobiPolynomial_with_value_view (np : Z) (z polyi : view) (opd : option view)
    (n : Z) (alpha beta : float) :
  if degree_in_order MaxPolylibPoint np n then
    exists polyi' opd',
      JacobiPolynomial MaxPolylibPoint np z (Some polyi) opd n alpha beta
      = Ok (Some polyi', opd')
      /\ (forall j, polyi' j = if in_range np j then fst (jacobi_point n alpha beta (z j))
                               else polyi j)
      /\ match opd, opd' with
         | None, None => True
         | Some pd, Some pd' =>
             forall j, pd' j = if in_range np j then snd (jacobi_point n alpha beta (z j))
                               else pd j
         | _, _ => False
         end
  else
    JacobiPolynomial MaxPolylibPoint np z (Some polyi) opd n alpha beta
    = Aborted OrderExceeded.
Proof.
  destruct (degree_in_order MaxPolylibPoint np n) eqn:E.
  - apply JacobiPolynomial_values. unfold degree_in_order in E. bool_to_prop E. lia.
  - now apply JacobiPolynomial_aborts.
Qed.

(** X2: the values [JacobiPolynomial] writes into [polyi] are the same
    whether or not a derivative view is passed with it, and the call fails in
    the same way in both cases. *)
Theorem JacobiPolynomial_value_whatever_derivative (np : Z) (z polyi polyd : view)
    (n : Z) (alpha beta : float) :
  match JacobiPolynomial MaxPolylibPoint np z (Some polyi) None n alpha beta,
        JacobiPolynomial MaxPolylibPoint np z (Some polyi) (Some polyd) n alpha beta with
  | Ok (Some p1, None), Ok (Some p2, Some _) => forall j, p1 j = p2 j
  | Aborted k1, Aborted k2 => k1 = k2
  | _, _ => False
  end.
Proof.
  destruct (degree_in_order MaxPolylibPoint np n) eqn:E.
  - assert (H : n = 0 \/ n = 1 \/ n <= maxOrder MaxPolylibPoint \/ np = 0).
    { unfold degree_in_order in E. bool_to_prop E. lia. }
    destruct (JacobiPolynomial_values MaxPolylibPoint np z polyi None n alpha beta H)
      as (p1 & o1 & E1 & H1 & K1).
    destruct (JacobiPolynomial_values MaxPolylibPoint np z polyi (Some polyd) n alpha beta H)
      as (p2 & o2 & E2 & H2 & K2).
    rewrite E1, E2. destruct o1; [contradiction|]. destruct o2; [|contradiction].
    intros j. now rewrite H1, H2.
  - rewrite !JacobiPolynomial_aborts by assumption. reflexivity.
Qed.

(** X3: [JacobiPolynomialDerivative] aborts with "Requested order exceeds
    maxOrder" exactly when the degree [n] is not 0 and the call it delegates
    to, for degree [n-1], does; otherwise it returns, having written the
    entries [0 .. np-1] of [polyd] and no other. *)
Theorem JacobiPolynomialDerivative_order_test (np : Z) (z polyd : view) (n : Z)
    (alpha beta : float) :
  if (n =? 0) || degree_in_order MaxPolylibPoint np (n - 1) then
    exists v,
      JacobiPolynomialDerivative MaxPolylibPoint np z polyd n alpha beta = Ok v
      /\ forall j, v j = if in_range np j then jpd_point n alpha beta (z j) else polyd j
  else
    JacobiPolynomialDerivative MaxPolylibPoint np z polyd n alpha beta
    = Aborted OrderExceeded.
Proof.
  destruct ((n =? 0) || degree_in_order MaxPolylibPoint np (n - 1)) eqn:E.
  - now apply JacobiPolynomialDerivative_result.
  - now apply JacobiPolynomialDerivative_aborts.
Qed.

(** A call with a value view that returns has written [polyi(0 .. np-1)]
    only. *)
Lemma JacobiPolynomial_frame (np : Z) (z pi : view) (n : Z) (alpha beta : float)
    (r : option view * option view) :
  JacobiPolynomial MaxPolylibPoint np z (Some pi) None n alpha beta = Ok r ->
  exists P, r = (Some P, None) /\ forall j, in_range np j = false -> P j = pi j.
Proof.
  intros E. destruct (degree_in_order MaxPolylibPoint np n) eqn:Ed.
  - destruct (JacobiPolynomial_values MaxPolylibPoint np z pi None n alpha beta)
      as (P & o & E' & HP & Ho).
    { unfold degree_in_order in Ed. bool_to_prop Ed. lia. }
    destruct o; [contradiction|]. rewrite E' in E. injection E as <-.
    exists P. split; [reflexivity|]. intros j Hj. now rewrite HP, Hj.
  - rewrite JacobiPolynomial_aborts in E by assumption. discriminate.
Qed.

Lemma JacobiPolynomialDerivative_frame (np : Z) (z v v' : view) (n : Z)
    (alpha beta : float) :
  JacobiPolynomialDerivative MaxPolylibPoint np z v n alpha beta = Ok v' ->
  forall j, in_range np j = false -> v' j = v j.
Proof.
  intros E. destruct ((n =? 0) || degree_in_order MaxPolylibPoint np (n - 1)) eqn:Ed.
  - destruct (JacobiPolynomialDerivative_result MaxPolylibPoint np z v n alpha beta Ed)
      as (v1 & E1 & H1).
    rewrite E1 in E. injection E as <-. intros j Hj. now rewrite H1, Hj.
  - rewrite JacobiPolynomialDerivative_aborts in E by assumption. discriminate.
Qed.

(** [JacobiPolynomial(1, x, p, null, n, ...)] on views of one entry. *)
Lemma value_at_point (x : float) (p : view) (n : Z) (alpha beta : float) :
  degree_in_order MaxPolylibPoint 1 n = true ->
  exists p',
    JacobiPolynomial MaxPolylibPoint 1 (fun _ => x) (Some p) None n alpha beta
    = Ok (Some p', None)
    /\ p' 0 = fst (jacobi_point n alpha beta x).
Proof.
  intros Hd.
  destruct (JacobiPolynomial_values MaxPolylibPoint 1 (fun _ => x) p None n alpha beta)
    as (p' & o & E & Hp & Ho).
  { unfold degree_in_order in Hd. bool_to_prop Hd. lia. }
  destruct o; [contradiction|]. exists p'. split; [exact E|]. apply (Hp 0).
Qed.

(** [JacobiPolynomialDerivative(1, x, pd, n, ...)] on views of one entry. *)
Lemma derivative_at_point (x : float) (p : view) (n : Z) (alpha beta : float) :
  degree_in_order MaxPolylibPoint 1 n = true ->
  exists v,
    JacobiPolynomialDerivative MaxPolylibPoint 1 (fun _ => x) p n alpha beta = Ok v
    /\ v 0 = jpd_point n alpha beta x.
Proof.
  intros Hd.
  destruct (JacobiPolynomialDerivative_result MaxPolylibPoint 1 (fun _ => x) p n alpha beta)
    as (v & E & Hv).
  { unfold degree_in_order in *.
    destruct (Z.eqb_spec n 0); [reflexivity|].
    destruct (Z.eqb_spec n 1) as [->|]; [reflexivity|].
    simpl in Hd. simpl. apply Z.leb_le in Hd.
    destruct (Z.eqb_spec (n - 1) 0); [reflexivity|].
    destruct (Z.eqb_spec (n - 1) 1); [reflexivity|].
    simpl. apply Z.leb_le. lia. }
  exists v. split; [exact E|]. apply (Hv 0).
Qed.

(** *** The zero finders *)

Lemma deflation_roots_return (n : Z) (alpha beta : float) (cnt : nat) :
  n <= maxOrder MaxPolylibPoint ->
  forall (k : Z) (z : view) (rlast : float),
  exists zr,
    for_upM cnt k
      (deflation_root cos MaxPolylibPoint MaxPolylibIteration tolerence n alpha beta)
      (z, rlast) = Ok zr.
Proof.
  intros Hn. induction cnt as [|cnt IH]; intros k z rlast; [eexists; reflexivity|].
  simpl for_upM. unfold deflation_root at 1, newton.
  destruct (newton_loop_stops MaxPolylibPoint tolerence z k n alpha beta
              (Z.to_nat (MaxPolylibIteration - 1)) Hn
              (mkNewton (initial_guess cos k n rlast) zero_view zero_view 1))
    as (t & st' & _ & E & _).
  rewrite E. simpl bind. apply IH.
Qed.

(** X4: for a degree within [maxOrder], [JacobiZerosPolyDeflation] always
    returns: whether or not the Newton iterations converge, no failure is
    raised; and it writes [z(0 .. n-1)] only. *)
Theorem JacobiZerosPolyDeflation_returns (z : view) (n : Z) (alpha beta : float) :
  n <= maxOrder MaxPolylibPoint ->
  exists z',
    JacobiZerosPolyDeflation cos MaxPolylibPoint MaxPolylibIteration tolerence
      z n alpha beta = Ok z'
    /\ forall j, ~ 0 <= j < n -> z' j = z j.
Proof.
  intros Hn.
  assert (H : exists z', JacobiZerosPolyDeflation cos MaxPolylibPoint MaxPolylibIteration
                           tolerence z n alpha beta = Ok z').
  { unfold JacobiZerosPolyDeflation. destruct (n =? 0); [eexists; reflexivity|].
    unfold for_rangeM.
    destruct (deflation_roots_return n alpha beta (Z.to_nat (n - 0)) Hn 0 z 0%float)
      as [zr E].
    rewrite E. simpl bind. eexists; reflexivity. }
  destruct H as [z' E]. exists z'. split; [exact E|].
  exact (JacobiZerosPolyDeflation_frame cos MaxPolylibPoint MaxPolylibIteration tolerence
           z z' n alpha beta E).
Qed.

(** X5: for a degree above [maxOrder] (with [MaxPolylibPoint >= 1], and
    [MaxPolylibIteration >= 2] so that the Newton loop is entered),
    [JacobiZerosPolyDeflation] aborts with "Requested order exceeds
    maxOrder", at the first polynomial evaluation. *)
Theorem JacobiZerosPolyDeflation_order_exceeded (z : view) (n : Z) (alpha beta : float) :
  1 <= MaxPolylibPoint -> 2 <= MaxPolylibIteration ->
  maxOrder MaxPolylibPoint < n ->
  JacobiZerosPolyDeflation cos MaxPolylibPoint MaxPolylibIteration tolerence
    z n alpha beta = Aborted OrderExceeded.
Proof.
  unfold maxOrder. intros HM HI Hn. unfold JacobiZerosPolyDeflation.
  destruct (Z.eqb_spec n 0); [lia|]. unfold for_rangeM.
  destruct (Z.to_nat (n - 0)) as [|cnt] eqn:Ec; [lia|].
  simpl for_upM. unfold deflation_root at 1, newton.
  destruct (Z.to_nat (MaxPolylibIteration - 1)) as [|c] eqn:Ei; [lia|].
  simpl newton_loop.
  rewrite JacobiPolynomial_aborts; [reflexivity|].
  unfold degree_in_order, maxOrder.
  destruct (Z.eqb_spec n 0); [lia|]. destruct (Z.eqb_spec n 1); [lia|].
  destruct (Z.leb_spec n (2 * MaxPolylibPoint - 1)); [lia|]. reflexivity.
Qed.

(** X6: with either strategy, a call of [JacobiZeros] for [n >= 0] zeros that
    returns has written [z(0 .. n-1)] only. *)
Theorem JacobiZeros_writes_zeros_only (z z' : view) (n : Z) (alpha beta : float) :
  0 <= n ->
  JacobiZeros cos pow MaxPolylibPoint MaxPolylibIteration tolerence DeflationEnabled
    z n alpha beta = Ok z' ->
  forall j, ~ 0 <= j < n -> z' j = z j.
Proof.
  exact (JacobiZeros_frame cos pow MaxPolylibPoint MaxPolylibIteration tolerence
           DeflationEnabled z z' n alpha beta).
Qed.

(** X7: for [n = 1], when the three values of [GammaFunction] it asks for are
    there, [JacobiZerosTriDiagonal] returns the one zero
    [a(0) = (beta - alpha) / (2 + alpha + beta)] without any sweep, and
    leaves the rest of [a] alone. *)
Theorem JacobiZerosTriDiagonal_single_zero (a : view) (alpha beta : float)
    (g1 g2 g3 : float) :
  GammaFunction (alpha + 1) = Ok g1 ->
  GammaFunction (beta + 1) = Ok g2 ->
  GammaFunction (2 + (alpha + beta)) = Ok g3 ->
  JacobiZerosTriDiagonal pow MaxPolylibIteration a 1 alpha beta
  = Ok (upd a 0 ((beta - alpha) / (2 + (alpha + beta)))%float).
Proof.
  intros E1 E2 E3. unfold JacobiZerosTriDiagonal. simpl Z.eqb. cbv iota.
  rewrite E1, E2, E3. simpl bind. cbv zeta.
  rewrite TriQL_idle by (intros m Hm; lia). reflexivity.
Qed.

(** X8: whenever [JacobiZerosTriDiagonal] returns, the zeros [a(0 .. n-1)] are
    in ascending order. *)
Theorem JacobiZerosTriDiagonal_ascending (a a' : view) (n : Z) (alpha beta : float) :
  JacobiZerosTriDiagonal pow MaxPolylibIteration a n alpha beta = Ok a' ->
  StronglySorted float_le (entries a' n).
Proof.
  unfold JacobiZerosTriDiagonal.
  destruct (Z.eqb_spec n 0) as [->|Hn0]; [intros _; constructor|].
  repeat match goal with
    | |- context [bind (GammaFunction ?x) _] =>
        destruct (GammaFunction x) as [?g| |]; simpl bind; try discriminate
    end.
  cbv zeta.
  match goal with
  | |- context [for_range ?lo ?hi ?f ?s] => destruct (for_range lo hi f s) as [a1 b1]
  end.
  destruct (TriQL _ _ _ _) as [[d' e']| |] eqn:E; simpl bind; try discriminate.
  intros [= <-]. simpl fst. exact (TriQL_sorted _ _ _ _ _ _ E).
Qed.

(** X9: [JacobiZerosTriDiagonal] needs [GammaFunction(alpha + 1.0)], the
    first of the values it asks for: for [n <> 0] and an [alpha] for which
    [alpha + 1] is neither an integer nor an integer plus one half (nor
    [-0.5]), it aborts with "Argument is not of integer or half order". *)
Theorem JacobiZerosTriDiagonal_rejects_alpha (a : view) (n m : Z) (alpha beta : float) :
  n <> 0 ->
  integer_part (alpha + 1) m -> (alpha + 1 =? -0.5)%float = false ->
  ~ is_integer (alpha + 1) m -> ~ is_half_integer (alpha + 1) m ->
  JacobiZerosTriDiagonal pow MaxPolylibIteration a n alpha beta = Aborted InvalidDomain.
Proof.
  intros Hn H1 H2 H3 H4. unfold JacobiZerosTriDiagonal.
  destruct (Z.eqb_spec n 0); [contradiction|].
  now rewrite (GammaFunction_rejects _ m H1 H2 H3 H4).
Qed.

(** *** Points and weights *)

(** X16: the Gauss rule.  Once the zeros, the derivative values [pd] at them
    and the four values of [GammaFunction] are there, the routine returns the
    zeros of [JacobiZeros(np, alpha, beta)] as nodes and the weights
    [fac / (pd(i)^2 (1 - z(i)^2))] with
    [fac = 2^(alpha+beta+1) g1 g2 / (g3 g4)]; it has no branch of its own for
    [np = 1]. *)
Theorem Cubature_Gauss_rule (z w : view) (np : Z) (alpha beta : float)
    (zeros pd : view) (g1 g2 g3 g4 : float) :
  JacobiZeros cos pow MaxPolylibPoint MaxPolylibIteration tolerence DeflationEnabled
    z np alpha beta = Ok zeros ->
  JacobiPolynomialDerivative MaxPolylibPoint np zeros w np alpha beta = Ok pd ->
  GammaFunction (alpha + dbl np + 1) = Ok g1 ->
  GammaFunction (beta + dbl np + 1) = Ok g2 ->
  GammaFunction (dbl np + 1) = Ok g3 ->
  GammaFunction (alpha + beta + dbl np + 1) = Ok g4 ->
  exists w',
    Cubature_getValues cos pow MaxPolylibPoint MaxPolylibIteration tolerence
      DeflationEnabled POLYTYPE_GAUSS z w np alpha beta = Ok (zeros, w')
    /\ forall i,
         w' i = if in_range np i
                then (pow 2 (alpha + beta + 1) * g1 * g2 / (g3 * g4)
                      / (pd i * pd i * (1 - zeros i * zeros i)))%float
                else pd i.
Proof.
  intros Hz Hpd E1 E2 E3 E4. simpl Cubature_getValues. unfold Cubature_Gauss.
  rewrite Hz. simpl bind. rewrite Hpd. simpl bind.
  rewrite E1, E2, E3, E4. simpl bind.
  eexists. split; [reflexivity|]. intros i.
  rewrite (for_range_pointwise
             (fun i x => (pow 2 (alpha + beta + 1) * g1 * g2 / (g3 * g4)
                          / (x * x * (1 - zeros i * zeros i)))%float)).
  unfold in_range. reflexivity.
Qed.

(** X17: the Gauss-Radau rule with the node [-1].  For [np >= 2], once the
    zeros, the polynomial values [P] at the nodes and the four values of
    [GammaFunction] are there, the routine returns with [z(0) = -1], the
    other nodes the zeros of [JacobiZeros(np-1, alpha, beta+1)], and the
    weights [fac (1 - z(i)) / P(z(i))^2], the first one multiplied by
    [beta + 1]. *)
Theorem Cubature_GaussRadauLeft_rule (z w : view) (np : Z) (alpha beta : float)
    (zeros P : view) (g1 g2 g3 g4 : float) :
  2 <= np ->
  JacobiZeros cos pow MaxPolylibPoint MaxPolylibIteration tolerence DeflationEnabled
    (subview_from (upd z 0 (- 1)%float) 1) (np - 1) alpha (beta + 1)%float = Ok zeros ->
  JacobiPolynomial MaxPolylibPoint np (subview_store (upd z 0 (- 1)%float) 1 zeros)
    (Some w) None (np - 1) alpha beta = Ok (Some P, None) ->
  GammaFunction (alpha + dbl np) = Ok g1 ->
  GammaFunction (beta + dbl np) = Ok g2 ->
  GammaFunction (dbl np) = Ok g3 ->
  GammaFunction (alpha + beta + dbl np + 1) = Ok g4 ->
  exists z' w',
    Cubature_getValues cos pow MaxPolylibPoint MaxPolylibIteration tolerence
      DeflationEnabled POLYTYPE_GAUSS_RADAU_LEFT z w np alpha beta = Ok (z', w')
    /\ z' 0 = (- 1)%float
    /\ (forall i, 1 <= i -> z' i = zeros (i - 1))
    /\ w' 0 = (pow 2 (alpha + beta) * g1 * g2 / (g3 * (beta + dbl np) * g4)
               * (1 - z' 0%Z) / (P 0%Z * P 0%Z) * (beta + 1))%float
    /\ (forall i, 1 <= i <= np - 1 ->
          w' i = (pow 2 (alpha + beta) * g1 * g2 / (g3 * (beta + dbl np) * g4)
                  * (1 - z' i) / (P i * P i))%float).
Proof.
  intros Hnp Hz HP E1 E2 E3 E4. simpl Cubature_getValues. unfold Cubature_GaussRadauLeft.
  destruct (Z.eqb_spec np 1); [lia|].
  rewrite Hz. simpl bind. rewrite HP. simpl bind.
  rewrite E1, E2, E3, E4. simpl bind.
  eexists _, _. split; [reflexivity|].
  set (zz := subview_store (upd z 0 (- 1)%float) 1 zeros).
  set (fac := (pow 2 (alpha + beta) * g1 * g2 / (g3 * (beta + dbl np) * g4))%float).
  repeat split.
  - intros i Hi. unfold zz, subview_store. settle_tests; reflexivity.
  - unfold upd at 1. simpl Z.eqb. cbv iota.
    rewrite !(for_range_pointwise (fun i x => (fac * (1 - zz i) / (x * x))%float)).
    settle_tests; reflexivity.
  - intros i Hi. unfold upd at 1.
    rewrite !(for_range_pointwise (fun i x => (fac * (1 - zz i) / (x * x))%float)).
    settle_tests; reflexivity.
Qed.

(** X18: the Gauss-Radau rule with the node [+1].  For [np >= 2], once the
    zeros, the polynomial values [P] at the nodes and the four values of
    [GammaFunction] are there, the routine returns with [z(np-1) = 1], the
    other nodes the zeros of [JacobiZeros(np-1, alpha+1, beta)], and the
    weights [fac (1 + z(i)) / P(z(i))^2], the last one multiplied by
    [alpha + 1]. *)
Theorem Cubature_GaussRadauRight_rule (z w : view) (np : Z) (alpha beta : float)
    (zeros P : view) (g1 g2 g3 g4 : float) :
  2 <= np ->
  JacobiZeros cos pow MaxPolylibPoint MaxPolylibIteration tolerence DeflationEnabled
    z (np - 1) (alpha + 1)%float beta = Ok zeros ->
  JacobiPolynomial MaxPolylibPoint np (upd zeros (np - 1) 1%float)
    (Some w) None (np - 1) alpha beta = Ok (Some P, None) ->
  GammaFunction (alpha + dbl np) = Ok g1 ->
  GammaFunction (beta + dbl np) = Ok g2 ->
  GammaFunction (dbl np) = Ok g3 ->
  GammaFunction (alpha + beta + dbl np + 1) = Ok g4 ->
  exists z' w',
    Cubature_getValues cos pow MaxPolylibPoint MaxPolylibIteration tolerence
      DeflationEnabled POLYTYPE_GAUSS_RADAU_RIGHT z w np alpha beta = Ok (z', w')
    /\ z' (np - 1) = 1%float
    /\ (forall i, i <> np - 1 -> z' i = zeros i)
    /\ w' (np - 1)
       = (pow 2 (alpha + beta) * g1 * g2 / (g3 * (alpha + dbl np) * g4)
          * (1 + z' (np - 1)%Z) / (P (np - 1)%Z * P (np - 1)%Z) * (alpha + 1))%float
    /\ (forall i, 0 <= i < np - 1 ->
          w' i = (pow 2 (alpha + beta) * g1 * g2 / (g3 * (alpha + dbl np) * g4)
                  * (1 + z' i) / (P i * P i))%float).
Proof.
  intros Hnp Hz HP E1 E2 E3 E4. simpl Cubature_getValues. unfold Cubature_GaussRadauRight.
  destruct (Z.eqb_spec np 1); [lia|].
  rewrite Hz. simpl bind. rewrite HP. simpl bind.
  rewrite E1, E2, E3, E4. simpl bind.
  eexists _, _. split; [reflexivity|].
  set (zz := upd zeros (np - 1) 1%float).
  set (fac := (pow 2 (alpha + beta) * g1 * g2 / (g3 * (alpha + dbl np) * g4))%float).
  repeat split.
  - apply upd_same.
  - intros i Hi. now apply upd_other.
  - rewrite upd_same.
    rewrite !(for_range_pointwise (fun i x => (fac * (1 + zz i) / (x * x))%float)).
    settle_tests; reflexivity.
  - intros i Hi. rewrite upd_other by lia.
    rewrite !(for_range_pointwise (fun i x => (fac * (1 + zz i) / (x * x))%float)).
    settle_tests; reflexivity.
Qed.

(** X19: for [np >= 1], a cubature rule of any of the four families that
    returns has written [z(0 .. np-1)] and [w(0 .. np-1)] only. *)
Theorem Cubature_writes_points_only (t : EPolyType) (z w z' w' : view) (np : Z)
    (alpha beta : float) :
  1 <= np ->
  Cubature_getValues cos pow MaxPolylibPoint MaxPolylibIteration tolerence
    DeflationEnabled t z w np alpha beta = Ok (z', w') ->
  forall j, ~ 0 <= j < np -> z' j = z j /\ w' j = w j.
Proof.
  intros Hnp. destruct t; simpl Cubature_getValues.
  - unfold Cubature_Gauss.
    destruct (JacobiZeros _ _ _ _ _ _ z np alpha beta) as [zeros| |] eqn:Ez;
      simpl bind; try discriminate.
    destruct (JacobiPolynomialDerivative _ _ _ _ _ _ _) as [pd| |] eqn:Epd;
      simpl bind; try discriminate.
    repeat match goal with
      | |- context [bind (GammaFunction ?x) _] =>
          destruct (GammaFunction x) as [?g| |]; simpl bind; try discriminate
      end.
    intros [= <- <-] j Hj. split.
    + eapply JacobiZeros_frame; [|exact Ez|exact Hj]. lia.
    + rewrite (for_range_pointwise
                 (fun i x => (_ / (x * x * (1 - zeros i * zeros i)))%float)).
      settle_tests.
      apply (JacobiPolynomialDerivative_frame _ _ _ _ _ _ _ Epd).
      apply out_of_range; lia.
  - unfold Cubature_GaussRadauLeft.
    destruct (Z.eqb_spec np 1) as [->|Hn1].
    { intros [= <- <-] j Hj. split; apply upd_other; lia. }
    destruct (JacobiZeros _ _ _ _ _ _ _ _ _ _) as [zeros| |] eqn:Ez;
      simpl bind; try discriminate.
    destruct (JacobiPolynomial _ _ _ _ _ _ _ _) as [pw| |] eqn:EP;
      simpl bind; try discriminate.
    apply JacobiPolynomial_frame in EP as (P & -> & HP). simpl bind.
    repeat match goal with
      | |- context [bind (GammaFunction ?x) _] =>
          destruct (GammaFunction x) as [?g| |]; simpl bind; try discriminate
      end.
    intros [= <- <-] j Hj. split.
    + unfold subview_store.
      destruct (Z.ltb_spec j 1); [apply upd_other; lia|].
      erewrite JacobiZeros_frame; [|shelve|exact Ez|lia]. Unshelve. 2: lia.
      unfold subview_from. rewrite upd_other by lia. f_equal. lia.
    + rewrite upd_other by lia.
      rewrite (for_range_pointwise (fun i x => (_ * (1 - _ i) / (x * x))%float)).
      settle_tests. apply HP. apply out_of_range; lia.
  - unfold Cubature_GaussRadauRight.
    destruct (Z.eqb_spec np 1) as [->|Hn1].
    { intros [= <- <-] j Hj. split; apply upd_other; lia. }
    destruct (JacobiZeros _ _ _ _ _ _ _ _ _ _) as [zeros| |] eqn:Ez;
      simpl bind; try discriminate.
    destruct (JacobiPolynomial _ _ _ _ _ _ _ _) as [pw| |] eqn:EP;
      simpl bind; try discriminate.
    apply JacobiPolynomial_frame in EP as (P & -> & HP). simpl bind.
    repeat match goal with
      | |- context [bind (GammaFunction ?x) _] =>
          destruct (GammaFunction x) as [?g| |]; simpl bind; try discriminate
      end.
    intros [= <- <-] j Hj. split.
    + rewrite upd_other by lia.
      eapply JacobiZeros_frame; [|exact Ez|]; lia.
    + rewrite upd_other by lia.
      rewrite (for_range_pointwise (fun i x => (_ * (1 + _ i) / (x * x))%float)).
      settle_tests. apply HP. apply out_of_range; lia.
  - unfold Cubature_GaussLobatto.
    destruct (Z.eqb_spec np 1) as [->|Hn1].
    { intros [= <- <-] j Hj. split; apply upd_other; lia. }
    destruct (JacobiZeros _ _ _ _ _ _ _ _ _ _) as [zeros| |] eqn:Ez;
      simpl bind; try discriminate.
    destruct (JacobiPolynomial _ _ _ _ _ _ _ _) as [pw| |] eqn:EP;
      simpl bind; try discriminate.
    apply JacobiPolynomial_frame in EP as (P & -> & HP). simpl bind.
    destruct (lobatto_fac pow np alpha beta) as [fac| |]; simpl bind; try discriminate.
    intros [= <- <-] j Hj. split.
    + unfold subview_store.
      destruct (Z.ltb_spec j 1); [rewrite !upd_other by lia; reflexivity|].
      erewrite JacobiZeros_frame; [|shelve|exact Ez|lia]. Unshelve. 2: lia.
      unfold subview_from. rewrite !upd_other by lia. f_equal. lia.
    + rewrite !upd_other by lia.
      rewrite (for_range_pointwise (fun i x => (_ / (x * x))%float)).
      settle_tests. apply HP. apply out_of_range; lia.
Qed.

(** *** Differentiation matrices *)

(** The matrix the routine leaves, from the weights it computed. *)
Lemma Derivative_result_entries (t : EPolyType) (D : matrix) (z : view) (np : Z)
    (alpha beta : float) (pd : view) :
  1 <= np ->
  derivative_weights pow MaxPolylibPoint t np z alpha beta (D (np - 1)) = Ok pd ->
  exists D',
    Derivative_getValues pow MaxPolylibPoint t D z np alpha beta = Ok D'
    /\ forall r c,
         D' r c = if in_range np r && in_range np c
                  then derivative_entry t np z alpha beta pd r c
                  else D r c.
Proof.
  intros Hnp Hpd. unfold Derivative_getValues.
  destruct (Z.leb_spec np 0); [lia|]. rewrite Hpd. simpl bind.
  eexists. split; [reflexivity|]. intros r c.
  rewrite (alias_fill_matrix np z pd t alpha beta _ D Hnp).
  - apply reference_matrix.
  - pose proof (weights_independent pow MaxPolylibPoint t np z alpha beta
                  (D (np - 1)) (D (np - 1)) Hnp) as Hw.
    unfold same_weights in Hw. rewrite Hpd in Hw.
    apply alias_start with (v := D (np - 1)). exact Hw.
Qed.

(** X20: the matrix [Derivative<polyType>::getValues] leaves, for [np >= 1]
    and every family, once the derivative weights [pd] are computed:
    [D(i,i)] is the diagonal formula of the family, and
    [D(i,j) = pd(i) / (pd(j) (z(i) - z(j)))] for [i <> j], for
    [0 <= i, j < np]; every entry outside these rows and columns is as it
    was.  The loops themselves never fail. *)
Theorem Derivative_matrix_entries (t : EPolyType) (D : matrix) (z : view) (np : Z)
    (alpha beta : float) (pd : view) :
  1 <= np ->
  derivative_weights pow MaxPolylibPoint t np z alpha beta (D (np - 1)) = Ok pd ->
  exists D',
    Derivative_getValues pow MaxPolylibPoint t D z np alpha beta = Ok D'
    /\ forall r c,
         D' r c = if in_range np r && in_range np c
                  then derivative_entry t np z alpha beta pd r c
                  else D r c.
Proof. apply Derivative_result_entries. Qed.

(** X23: the Gauss family asks for no value of [GammaFunction]: for
    [1 <= np] and [np - 1 <= maxOrder], [Derivative<POLYTYPE_GAUSS>::getValues]
    always returns, with
    [D(i,j) = P'(z(i)) / (P'(z(j)) (z(i) - z(j)))] off the diagonal, where
    [P'] is what [JacobiPolynomialDerivative] gives for degree [np], and
    [D(i,i) = (alpha - beta + (alpha + beta + 2) z(i)) / (2 (1 - z(i)^2))]. *)
Theorem Derivative_Gauss_entries (D : matrix) (z : view) (np : Z) (alpha beta : float) :
  1 <= np -> np - 1 <= maxOrder MaxPolylibPoint ->
  exists D',
    Derivative_getValues pow MaxPolylibPoint POLYTYPE_GAUSS D z np alpha beta = Ok D'
    /\ forall r c,
         D' r c
         = if in_range np r && in_range np c then
             if r =? c then
               ((alpha - beta + (alpha + beta + 2) * z r) / (2 * (1 - z r * z r)))%float
             else
               (jpd_point np alpha beta (z r)
                / (jpd_point np alpha beta (z c) * (z r - z c)))%float
           else D r c.
Proof.
  intros Hnp Hle.
  destruct (JacobiPolynomialDerivative_result MaxPolylibPoint np z (D (np - 1)) np
              alpha beta) as (pd & Epd & Hpd).
  { unfold degree_in_order. apply Z.leb_le in Hle. rewrite Hle.
    now rewrite !orb_true_r. }
  destruct (Derivative_result_entries POLYTYPE_GAUSS D z np alpha beta pd Hnp Epd)
    as (D' & E & H).
  exists D'. split; [exact E|]. intros r c. rewrite H.
  destruct (in_range np r) eqn:Er, (in_range np c) eqn:Ec; simpl; try reflexivity.
  unfold derivative_entry. destruct (r =? c); [reflexivity|].
  now rewrite !Hpd, Er, Ec.
Qed.

(** *** Interpolants and interpolation matrices *)

(** What [getValue] returns, for each family. *)
Lemma Lagrangian_result (t : EPolyType) (i : Z) (z : float) (zgj : view)
    (np : Z) (alpha beta : float) :
  LagrangianInterpolant_getValue MaxPolylibPoint tolerence t i z zgj np alpha beta
  = if (abs (z - zgj i) <? tolerence)%float then Ok 1%float
    else if degree_in_order MaxPolylibPoint 1 (lagrange_degree t np)
         then Ok (lagrange_value t np alpha beta (zgj i) z)
         else Aborted OrderExceeded.
Proof.
  destruct t; simpl LagrangianInterpolant_getValue; simpl lagrange_degree;
    unfold Lagrangian_Gauss, Lagrangian_GaussRadauLeft, Lagrangian_GaussRadauRight,
      Lagrangian_GaussLobatto, lagrange_value; cbv zeta;
    destruct (abs (z - zgj i) <? tolerence)%float; try reflexivity.
  - destruct (degree_in_order MaxPolylibPoint 1 np) eqn:Hd.
    + destruct (derivative_at_point (zgj i) zero_view np alpha beta Hd)
        as (v & E1 & H1).
      destruct (value_at_point z zero_view np alpha beta Hd) as (p & E2 & H2).
      rewrite E1. simpl bind. rewrite E2. simpl bind. now rewrite H1, H2.
    + destruct ((np =? 0) || degree_in_order MaxPolylibPoint 1 (np - 1)) eqn:Hd'.
      * destruct (JacobiPolynomialDerivative_result MaxPolylibPoint 1 (fun _ => zgj i)
                    zero_view np alpha beta Hd') as (v & E & _).
        rewrite E. simpl bind. now rewrite JacobiPolynomial_aborts.
      * now rewrite JacobiPolynomialDerivative_aborts.
  - destruct (degree_in_order MaxPolylibPoint 1 (np - 1)) eqn:Hd.
    + destruct (value_at_point (zgj i) zero_view (np - 1) alpha (beta + 1)%float Hd)
        as (p1 & E1 & H1).
      destruct (derivative_at_point (zgj i) zero_view (np - 1) alpha (beta + 1)%float Hd)
        as (v & E2 & H2).
      destruct (value_at_point z p1 (np - 1) alpha (beta + 1)%float Hd)
        as (p2 & E3 & H3).
      rewrite E1. simpl bind. rewrite E2. simpl bind. rewrite E3. simpl bind.
      now rewrite H1, H2, H3.
    + now rewrite JacobiPolynomial_aborts.
  - destruct (degree_in_order MaxPolylibPoint 1 (np - 1)) eqn:Hd.
    + destruct (value_at_point (zgj i) zero_view (np - 1) (alpha + 1)%float beta Hd)
        as (p1 & E1 & H1).
      destruct (derivative_at_point (zgj i) zero_view (np - 1) (alpha + 1)%float beta Hd)
        as (v & E2 & H2).
      destruct (value_at_point z p1 (np - 1) (alpha + 1)%float beta Hd)
        as (p2 & E3 & H3).
      rewrite E1. simpl bind. rewrite E2. simpl bind. rewrite E3. simpl bind.
      now rewrite H1, H2, H3.
    + now rewrite JacobiPolynomial_aborts.
  - destruct (degree_in_order MaxPolylibPoint 1 (np - 2)) eqn:Hd.
    + destruct (value_at_point (zgj i) zero_view (np - 2) (alpha + 1)%float
                  (beta + 1)%float Hd) as (p1 & E1 & H1).
      destruct (derivative_at_point (zgj i) zero_view (np - 2) (alpha + 1)%float
                  (beta + 1)%float Hd) as (v & E2 & H2).
      destruct (value_at_point z p1 (np - 2) (alpha + 1)%float (beta + 1)%float Hd)
        as (p2 & E3 & H3).
      rewrite E1. simpl bind. rewrite E2. simpl bind. rewrite E3. simpl bind.
      now rewrite H1, H2, H3.
    + now rewrite JacobiPolynomial_aborts.
Qed.

(** X21: [LagrangianInterpolant<polyType>::getValue] for the node [zgj(i)] at
    the point [z].  Within the tolerance of the node it returns [1.0] and
    evaluates nothing, so it cannot fail there.  Away from the node it
    returns the quotient of the family, built from the values of
    [JacobiPolynomial] and [JacobiPolynomialDerivative] at [z] and at the
    node, when the degree it uses ([np], [np-1], [np-1], [np-2]) passes the
    order test, and aborts with "Requested order exceeds maxOrder"
    otherwise. *)
Theorem LagrangianInterpolant_value (t : EPolyType) (i : Z) (z : float) (zgj : view)
    (np : Z) (alpha beta : float) :
  LagrangianInterpolant_getValue MaxPolylibPoint tolerence t i z zgj np alpha beta
  = if (abs (z - zgj i) <? tolerence)%float then Ok 1%float
    else if degree_in_order MaxPolylibPoint 1 (lagrange_degree t np)
         then Ok (lagrange_value t np alpha beta (zgj i) z)
         else Aborted OrderExceeded.
Proof. apply Lagrangian_result. Qed.

(** X22: when the degree of the family passes the order test,
    [InterpolationOperator<polyType>::getMatrix] returns; [im(i,j)] is the
    interpolant of node [zgrj(j)] at [zm(i)] for [0 <= i < mz] and
    [0 <= j < nz] (so exactly [1.0] where the point is within the tolerance
    of the node), and every other entry of [im] is as it was. *)
Theorem InterpolationOperator_entries (t : EPolyType) (im : matrix) (zgrj zm : view)
    (nz mz : Z) (alpha beta : float) :
  degree_in_order MaxPolylibPoint 1 (lagrange_degree t nz) = true ->
  exists im',
    InterpolationOperator_getMatrix MaxPolylibPoint tolerence t im zgrj zm nz mz alpha beta
    = Ok im'
    /\ forall r c,
         im' r c = if in_range mz r && in_range nz c
                   then interpolant tolerence t nz alpha beta (zgrj c) (zm r)
                   else im r c.
Proof.
  intros Hd. unfold InterpolationOperator_getMatrix, for_rangeM.
  rewrite (for_upM_pure _
             (fun i im =>
                for_range 0 nz
                  (fun j im =>
                     upd2 im i j (interpolant tolerence t nz alpha beta (zgrj j) (zm i)))
                  im)).
  - eexists. split; [reflexivity|]. intros r c.
    rewrite (rows_entries
               (fun i j => interpolant tolerence t nz alpha beta (zgrj j) (zm i))).
    unfold within, in_range.
    index_cases; simpl; try reflexivity; lia.
  - intros i s. cbv zeta. unfold for_range. apply for_upM_pure.
    intros j s'. rewrite Lagrangian_result, Hd. unfold interpolant.
    destruct (abs (zm i - zgrj j) <? tolerence)%float; reflexivity.
Qed.

(** X24: an empty request ([nz <= 0] or [mz <= 0]) makes
    [InterpolationOperator<polyType>::getMatrix] return [im] as it was; no
    interpolant is evaluated, so the call cannot fail, whatever the
    degree. *)
Theorem InterpolationOperator_empty (t : EPolyType) (im : matrix) (zgrj zm : view)
    (nz mz : Z) (alpha beta : float) :
  nz <= 0 \/ mz <= 0 ->
  InterpolationOperator_getMatrix MaxPolylibPoint tolerence t im zgrj zm nz mz alpha beta
  = Ok im.
Proof.
  intros H. unfold InterpolationOperator_getMatrix, for_rangeM.
  destruct (Z.le_gt_cases mz 0) as [Hm|Hm].
  - replace (Z.to_nat (mz - 0)) with 0%nat by lia. reflexivity.
  - replace (Z.to_nat (nz - 0)) with 0%nat by lia.
    rewrite (for_upM_pure _ (fun _ s => s)) by reflexivity.
    now rewrite for_up_idle.
Qed.

End Routines.

(* ------------------------------------------------------------------ *)
(** ** The properties at concrete inputs *)

(** X4 at degree 2, Legendre. *)
Lemma JacobiZerosPolyDeflation_returns_at_2 :
  exists z',
    JacobiZerosPolyDeflation Sample.cos Sample.MaxPolylibPoint Sample.MaxPolylibIteration
      Sample.tolerence zero_view 2 0 0 = Ok z'
    /\ forall j, ~ 0 <= j < 2 -> z' j = zero_view j.
Proof.
  apply (JacobiZerosPolyDeflation_returns Sample.cos Sample.MaxPolylibPoint
           Sample.MaxPolylibIteration Sample.tolerence zero_view 2 0 0).
  unfold maxOrder, Sample.MaxPolylibPoint. lia.
Defined.

(** X5 at degree 64, with [maxOrder = 63]. *)
Lemma JacobiZerosPolyDeflation_order_exceeded_at_64 :
  JacobiZerosPolyDeflation Sample.cos Sample.MaxPolylibPoint Sample.MaxPolylibIteration
    Sample.tolerence zero_view 64 0 0 = Aborted OrderExceeded.
Proof.
  apply (JacobiZerosPolyDeflation_order_exceeded Sample.cos Sample.MaxPolylibPoint
           Sample.MaxPolylibIteration Sample.tolerence zero_view 64 0 0);
    unfold maxOrder, Sample.MaxPolylibPoint, Sample.MaxPolylibIteration; lia.
Defined.

(** X6 at two zeros, with the tridiagonal strategy: the entries [z(2)] and [z(-1)]
    keep their value. *)
Lemma JacobiZeros_writes_zeros_only_at_2 :
  exists z',
    JacobiZeros Sample.cos Sample.pow Sample.MaxPolylibPoint Sample.MaxPolylibIteration
      Sample.tolerence false zero_view 2 0 0 = Ok z'
    /\ z' 2 = 0%float /\ z' (-1) = 0%float.
Proof.
  pose (z' := result_or zero_view
                (JacobiZeros Sample.cos Sample.pow Sample.MaxPolylibPoint
                   Sample.MaxPolylibIteration Sample.tolerence false zero_view 2 0 0)).
  assert (E : JacobiZeros Sample.cos Sample.pow Sample.MaxPolylibPoint
                Sample.MaxPolylibIteration Sample.tolerence false zero_view 2 0 0 = Ok z').
  { apply result_or_ok. vm_compute. reflexivity. }
  exists z'. split; [exact E|].
  split;
    apply (JacobiZeros_writes_zeros_only Sample.cos Sample.pow Sample.MaxPolylibPoint
             Sample.MaxPolylibIteration Sample.tolerence false zero_view z' 2 0 0
             ltac:(lia) E); lia.
Defined.

(** X7 for [(alpha, beta) = (0, 0)]: the three values of [GammaFunction] are 1,
    and the zero of the Legendre polynomial of degree 1 is stored. *)
Lemma JacobiZerosTriDiagonal_single_zero_Legendre :
  JacobiZerosTriDiagonal Sample.pow Sample.MaxPolylibIteration zero_view 1 0 0
  = Ok (upd zero_view 0 ((0 - 0) / (2 + (0 + 0)))%float).
Proof.
  apply (JacobiZerosTriDiagonal_single_zero Sample.pow Sample.MaxPolylibIteration
           zero_view 0 0 1 1 1); vm_compute; reflexivity.
Defined.

(** X8 at degree 3, Legendre. *)
Lemma JacobiZerosTriDiagonal_ascending_at_3 :
  exists a',
    JacobiZerosTriDiagonal Sample.pow Sample.MaxPolylibIteration zero_view 3 0 0 = Ok a'
    /\ StronglySorted float_le (entries a' 3).
Proof.
  pose (a' := result_or zero_view
                (JacobiZerosTriDiagonal Sample.pow Sample.MaxPolylibIteration
                   zero_view 3 0 0)).
  assert (E : JacobiZerosTriDiagonal Sample.pow Sample.MaxPolylibIteration
                zero_view 3 0 0 = Ok a').
  { apply result_or_ok. vm_compute. reflexivity. }
  exists a'. split; [exact E|].
  exact (JacobiZerosTriDiagonal_ascending Sample.pow Sample.MaxPolylibIteration
           zero_view a' 3 0 0 E).
Defined.

(** X9 at [alpha = 0.25]: [alpha + 1 = 1.25] has the integer part 1. *)
Lemma JacobiZerosTriDiagonal_rejects_alpha_quarter :
  JacobiZerosTriDiagonal Sample.pow Sample.MaxPolylibIteration zero_view 3 0.25 0
  = Aborted InvalidDomain.
Proof.
  apply (JacobiZerosTriDiagonal_rejects_alpha Sample.pow Sample.MaxPolylibIteration
           zero_view 3 1 0.25 0).
  - lia.
  - vm_compute. reflexivity.
  - vm_compute. reflexivity.
  - intros [_ H]. vm_compute in H. discriminate.
  - intros [_ H]. vm_compute in H. discriminate.
Defined.

(** X10 on the matrix [diagonal3], [offdiagonal3]: [TriQL] returns, and the
    loop for row 0 is left within the limit of 50 sweeps. *)
Lemma TriQL_returns_or_aborts_on_3 :
  (exists d' e',
      TriQL Sample.MaxPolylibIteration Sample.diagonal3 Sample.offdiagonal3 3
      = Ok (d', e'))
  /\ exists k : nat,
       (k <= 50)%nat
       /\ settled 0 3 (sweeps k 0 3 (Sample.diagonal3, Sample.offdiagonal3)) = true
       /\ ql_row Sample.MaxPolylibIteration (Z.to_nat Sample.MaxPolylibIteration) 0 0 3
            Sample.diagonal3 Sample.offdiagonal3
          = Ok (sweeps k 0 3 (Sample.diagonal3, Sample.offdiagonal3)).
Proof.
  destruct (TriQL_returns_or_aborts Sample.MaxPolylibIteration 3 Sample.diagonal3
              Sample.offdiagonal3) as [Hends Hrow].
  { unfold Sample.MaxPolylibIteration. lia. }
  split.
  - destruct Hends as [H|H]; [exact H|]. exfalso. vm_compute in H. discriminate.
  - destruct (Hrow 0) as [(k & Hk & Hset & _ & E)|[_ E]].
    + exists k. split; [exact Hk|]. split; [exact Hset|exact E].
    + exfalso. vm_compute in E. discriminate.
Defined.

(** X11 on the diagonal matrix with the entries 2, 0, 1. *)
Lemma TriQL_negligible_offdiagonal_on_3 :
  TriQL Sample.MaxPolylibIteration Sample.diagonal3 zero_view 3
  = Ok (TriQL_order Sample.diagonal3 3, zero_view)
  /\ StronglySorted float_le (entries (TriQL_order Sample.diagonal3 3) 3)
  /\ Permutation (entries Sample.diagonal3 3) (entries (TriQL_order Sample.diagonal3 3) 3)
  /\ entries (TriQL_order Sample.diagonal3 3) 3 = [0; 1; 2]%float.
Proof.
  destruct (TriQL_negligible_offdiagonal Sample.MaxPolylibIteration 3 Sample.diagonal3
              zero_view) as (E & Hs & Hp).
  { intros m Hm. assert (H : m = 0 \/ m = 1) by lia.
    destruct H as [-> | ->]; vm_compute; reflexivity. }
  split; [exact E|]. split; [exact Hs|]. split; [exact Hp|]. vm_compute. reflexivity.
Defined.

(** X12 at [n = 1]. *)
Lemma TriQL_one_entry_at_1 :
  TriQL Sample.MaxPolylibIteration Sample.diagonal3 Sample.offdiagonal3 1
  = Ok (Sample.diagonal3, Sample.offdiagonal3).
Proof.
  apply (TriQL_one_entry Sample.MaxPolylibIteration 1 Sample.diagonal3 Sample.offdiagonal3).
  lia.
Defined.

(** X13 on the nodes [-1, 0, 1]. *)
Lemma TriQL_order_keeps_ascending_nodes :
  entries (TriQL_order Sample.lobatto3 3) 3 = entries Sample.lobatto3 3.
Proof.
  assert (H : ascending 3 Sample.lobatto3).
  { intros a b Ha Hb.
    assert (C : (a = 0 /\ b = 1) \/ (a = 0 /\ b = 2) \/ (a = 1 /\ b = 2)) by lia.
    destruct C as [[-> ->]|[[-> ->]|[-> ->]]]; vm_compute; reflexivity. }
  unfold entries. simpl map.
  now rewrite !(TriQL_order_keeps_ascending 3 Sample.lobatto3 H).
Defined.

(** X15 on the matrix [diagonal3], [offdiagonal3]: the entries [d(3)] and [e(3)]
    keep their value. *)
Lemma TriQL_writes_first_entries_on_3 :
  exists d' e',
    TriQL Sample.MaxPolylibIteration Sample.diagonal3 Sample.offdiagonal3 3 = Ok (d', e')
    /\ d' 3 = 0%float /\ e' 3 = 0%float.
Proof.
  pose (r := result_or (zero_view, zero_view)
               (TriQL Sample.MaxPolylibIteration Sample.diagonal3 Sample.offdiagonal3 3)).
  assert (E : TriQL Sample.MaxPolylibIteration Sample.diagonal3 Sample.offdiagonal3 3
              = Ok (fst r, snd r)).
  { rewrite <- surjective_pairing. apply result_or_ok. vm_compute. reflexivity. }
  exists (fst r), (snd r). split; [exact E|].
  exact (TriQL_writes_first_entries Sample.MaxPolylibIteration 3 Sample.diagonal3
           Sample.offdiagonal3 (fst r) (snd r) E 3 ltac:(lia)).
Defined.

(** X16 at two points, Legendre: the nodes are [-1/sqrt 3] and [1/sqrt 3] and the
    weights 1, up to rounding. *)
Lemma Cubature_Gauss_rule_at_2 :
  exists z' w',
    Cubature_getValues Sample.cos Sample.pow Sample.MaxPolylibPoint
      Sample.MaxPolylibIteration Sample.tolerence false
      POLYTYPE_GAUSS zero_view zero_view 2 0 0 = Ok (z', w')
    /\ entries z' 2 = [-0x1.279a74590331bp-1; 0x1.279a74590331bp-1]%float
    /\ entries w' 3 = [0x1.0000000000002p+0; 0x1.0000000000002p+0; 0]%float.
Proof.
  pose (zeros := result_or zero_view
                   (JacobiZeros Sample.cos Sample.pow Sample.MaxPolylibPoint
                      Sample.MaxPolylibIteration Sample.tolerence false zero_view 2 0 0)).
  assert (Hz : JacobiZeros Sample.cos Sample.pow Sample.MaxPolylibPoint
                 Sample.MaxPolylibIteration Sample.tolerence false zero_view 2 0 0
               = Ok zeros).
  { apply result_or_ok. vm_compute. reflexivity. }
  pose (pd := result_or zero_view
                (JacobiPolynomialDerivative Sample.MaxPolylibPoint 2 zeros zero_view 2 0 0)).
  assert (Hpd : JacobiPolynomialDerivative Sample.MaxPolylibPoint 2 zeros zero_view 2 0 0
                = Ok pd).
  { apply result_or_ok. vm_compute. reflexivity. }
  destruct (Cubature_Gauss_rule Sample.cos Sample.pow Sample.MaxPolylibPoint
              Sample.MaxPolylibIteration Sample.tolerence false
              zero_view zero_view 2 0 0 zeros pd 2 2 2 2 Hz Hpd)
    as (w' & E & Hw); try (vm_compute; reflexivity).
  exists zeros, w'. split; [exact E|]. split; [vm_compute; reflexivity|].
  unfold entries. simpl map. rewrite !Hw. vm_compute. reflexivity.
Defined.

(** X17 at two points, Legendre: the nodes [-1] and [1/3], the weights [1/2] and
    [3/2], up to rounding. *)
Lemma Cubature_GaussRadauLeft_rule_at_2 :
  2 <= 2
  /\ exists z' w',
       Cubature_getValues Sample.cos Sample.pow Sample.MaxPolylibPoint
         Sample.MaxPolylibIteration Sample.tolerence false
         POLYTYPE_GAUSS_RADAU_LEFT zero_view zero_view 2 0 0 = Ok (z', w')
       /\ z' 0 = (- 1)%float /\ z' 1 = 0x1.5555555555555p-2%float
       /\ w' 0 = 0.5%float /\ w' 1 = 0x1.8000000000001p+0%float.
Proof.
  split; [lia|].
  pose (z0 := upd zero_view 0 (- 1)%float).
  pose (zeros := result_or zero_view
                   (JacobiZeros Sample.cos Sample.pow Sample.MaxPolylibPoint
                      Sample.MaxPolylibIteration Sample.tolerence false
                      (subview_from z0 1) (2 - 1) 0 (0 + 1))).
  assert (Hz : JacobiZeros Sample.cos Sample.pow Sample.MaxPolylibPoint
                 Sample.MaxPolylibIteration Sample.tolerence false
                 (subview_from z0 1) (2 - 1) 0 (0 + 1) = Ok zeros).
  { apply result_or_ok. vm_compute. reflexivity. }
  destruct (JacobiPolynomial_values Sample.MaxPolylibPoint 2 (subview_store z0 1 zeros)
              zero_view None (2 - 1) 0 0)
    as (P & opd & HP & HPv & Hopd).
  { right. left. reflexivity. }
  destruct opd; [contradiction|].
  destruct (Cubature_GaussRadauLeft_rule Sample.cos Sample.pow Sample.MaxPolylibPoint
              Sample.MaxPolylibIteration Sample.tolerence false
              zero_view zero_view 2 0 0 zeros P 1 1 1 2 ltac:(lia) Hz HP)
    as (z' & w' & E & H0 & Hi & Hw0 & Hwi); try (vm_compute; reflexivity).
  exists z', w'. split; [exact E|]. split; [exact H0|].
  split; [rewrite Hi by lia; vm_compute; reflexivity|].
  split.
  - rewrite Hw0, H0, !HPv. vm_compute. reflexivity.
  - rewrite (Hwi 1) by lia. rewrite Hi by lia. rewrite !HPv. vm_compute. reflexivity.
Defined.

(** X18 at two points, Legendre: the nodes [-1/3] and [1], the weights [3/2] and
    [1/2], up to rounding. *)
Lemma Cubature_GaussRadauRight_rule_at_2 :
  2 <= 2
  /\ exists z' w',
       Cubature_getValues Sample.cos Sample.pow Sample.MaxPolylibPoint
         Sample.MaxPolylibIteration Sample.tolerence false
         POLYTYPE_GAUSS_RADAU_RIGHT zero_view zero_view 2 0 0 = Ok (z', w')
       /\ z' 0 = (-0x1.5555555555555p-2)%float /\ z' 1 = 1%float
       /\ w' 0 = 0x1.8000000000001p+0%float /\ w' 1 = 0.5%float.
Proof.
  split; [lia|].
  pose (zeros := result_or zero_view
                   (JacobiZeros Sample.cos Sample.pow Sample.MaxPolylibPoint
                      Sample.MaxPolylibIteration Sample.tolerence false
                      zero_view (2 - 1) (0 + 1) 0)).
  assert (Hz : JacobiZeros Sample.cos Sample.pow Sample.MaxPolylibPoint
                 Sample.MaxPolylibIteration Sample.tolerence false
                 zero_view (2 - 1) (0 + 1) 0 = Ok zeros).
  { apply result_or_ok. vm_compute. reflexivity. }
  destruct (JacobiPolynomial_values Sample.MaxPolylibPoint 2 (upd zeros (2 - 1) 1%float)
              zero_view None (2 - 1) 0 0)
    as (P & opd & HP & HPv & Hopd).
  { right. left. reflexivity. }
  destruct opd; [contradiction|].
  destruct (Cubature_GaussRadauRight_rule Sample.cos Sample.pow Sample.MaxPolylibPoint
              Sample.MaxPolylibIteration Sample.tolerence false
              zero_view zero_view 2 0 0 zeros P 1 1 1 2 ltac:(lia) Hz HP)
    as (z' & w' & E & H1 & Hi & Hw1 & Hwi); try (vm_compute; reflexivity).
  exists z', w'. split; [exact E|].
  split; [rewrite Hi by lia; vm_compute; reflexivity|].
  split; [exact H1|].
  split.
  - rewrite (Hwi 0) by lia. rewrite Hi by lia. rewrite !HPv. vm_compute. reflexivity.
  - change 1 with (2 - 1) at 1. rewrite Hw1, H1, !HPv. vm_compute. reflexivity.
Defined.

(** X19 at the Gauss-Lobatto rule with three points. *)
Lemma Cubature_writes_points_only_Lobatto_3 :
  1 <= 3
  /\ exists z' w',
       Cubature_getValues Sample.cos Sample.pow Sample.MaxPolylibPoint
         Sample.MaxPolylibIteration Sample.tolerence false
         POLYTYPE_GAUSS_LOBATTO zero_view zero_view 3 0 0 = Ok (z', w')
       /\ z' 3 = 0%float /\ w' 3 = 0%float.
Proof.
  split; [lia|].
  pose (r := result_or (zero_view, zero_view)
               (Cubature_getValues Sample.cos Sample.pow Sample.MaxPolylibPoint
                  Sample.MaxPolylibIteration Sample.tolerence false
                  POLYTYPE_GAUSS_LOBATTO zero_view zero_view 3 0 0)).
  assert (E : Cubature_getValues Sample.cos Sample.pow Sample.MaxPolylibPoint
                Sample.MaxPolylibIteration Sample.tolerence false
                POLYTYPE_GAUSS_LOBATTO zero_view zero_view 3 0 0 = Ok (fst r, snd r)).
  { rewrite <- surjective_pairing. apply result_or_ok. vm_compute. reflexivity. }
  exists (fst r), (snd r). split; [exact E|].
  exact (Cubature_writes_points_only Sample.cos Sample.pow Sample.MaxPolylibPoint
           Sample.MaxPolylibIteration Sample.tolerence false POLYTYPE_GAUSS_LOBATTO
           zero_view zero_view (fst r) (snd r) 3 0 0 ltac:(lia) E 3 ltac:(lia)).
Defined.

(** X20 on the three Gauss-Lobatto nodes [-1, 0, 1]. *)
Lemma Derivative_matrix_entries_Lobatto_3 :
  1 <= 3
  /\ exists D',
       Derivative_getValues Sample.pow Sample.MaxPolylibPoint POLYTYPE_GAUSS_LOBATTO
         (fun _ _ => 0%float) Sample.lobatto3 3 0 0 = Ok D'
       /\ D' 0 1 = 2%float /\ D' 1 0 = (-0.5)%float /\ D' 2 2 = 1.5%float
       /\ D' 3 0 = 0%float.
Proof.
  split; [lia|].
  pose (pd := result_or zero_view
                (derivative_weights Sample.pow Sample.MaxPolylibPoint
                   POLYTYPE_GAUSS_LOBATTO 3 Sample.lobatto3 0 0 zero_view)).
  destruct (Derivative_matrix_entries Sample.pow Sample.MaxPolylibPoint
              POLYTYPE_GAUSS_LOBATTO (fun _ _ => 0%float) Sample.lobatto3 3 0 0 pd)
    as (D' & E & H); [lia| |].
  { apply result_or_ok. vm_compute. reflexivity. }
  exists D'. split; [exact E|]. rewrite !H. repeat split; vm_compute; reflexivity.
Defined.

(** X22 from the three Gauss-Lobatto nodes [-1, 0, 1] to the points [0.5] and [1]:
    the second point is the third node. *)
Lemma InterpolationOperator_entries_Lobatto_3 :
  exists im',
    InterpolationOperator_getMatrix Sample.MaxPolylibPoint Sample.tolerence
      POLYTYPE_GAUSS_LOBATTO (fun _ _ => 0%float) Sample.lobatto3
      (upd (upd zero_view 0 0.5%float) 1 1%float) 3 2 0 0 = Ok im'
    /\ entries (im' 0) 3 = [-0.125; 0.75; 0.375]%float
    /\ im' 1 2 = 1%float
    /\ im' 2 0 = 0%float.
Proof.
  destruct (InterpolationOperator_entries Sample.MaxPolylibPoint Sample.tolerence
              POLYTYPE_GAUSS_LOBATTO (fun _ _ => 0%float) Sample.lobatto3
              (upd (upd zero_view 0 0.5%float) 1 1%float) 3 2 0 0)
    as (im' & E & H); [reflexivity|].
  exists im'. split; [exact E|]. unfold entries. simpl map. rewrite !H.
  repeat split; vm_compute; reflexivity.
Defined.

(** X23 on the two Gauss nodes of the Legendre weight. *)
Lemma Derivative_Gauss_entries_at_2 :
  exists D',
    Derivative_getValues Sample.pow Sample.MaxPolylibPoint POLYTYPE_GAUSS
      (fun _ _ => 0%float)
      (upd (upd zero_view 0 (-0x1.279a74590331bp-1)%float) 1 0x1.279a74590331bp-1%float)
      2 0 0 = Ok D'
    /\ D' 0 0 = (-0x1.bb67ae8584ca6p-1)%float /\ D' 0 1 = 0x1.bb67ae8584cacp-1%float
    /\ D' 1 0 = (-0x1.bb67ae8584cacp-1)%float /\ D' 1 1 = 0x1.bb67ae8584ca6p-1%float
    /\ D' 2 0 = 0%float.
Proof.
  destruct (Derivative_Gauss_entries Sample.pow Sample.MaxPolylibPoint
              (fun _ _ => 0%float)
              (upd (upd zero_view 0 (-0x1.279a74590331bp-1)%float) 1
                 0x1.279a74590331bp-1%float) 2 0 0)
    as (D' & E & H).
  - lia.
  - unfold maxOrder, Sample.MaxPolylibPoint. lia.
  - exists D'. split; [exact E|]. rewrite !H.
    repeat split; vm_compute; reflexivity.
Defined.

(** X24 for three nodes and no point, at a degree above [maxOrder]. *)
Lemma InterpolationOperator_empty_at_70 :
  InterpolationOperator_getMatrix Sample.MaxPolylibPoint Sample.tolerence
    POLYTYPE_GAUSS (fun _ _ => 0%float) Sample.lobatto3 zero_view 70 0 0 0
  = Ok (fun _ _ => 0%float).
Proof.
  apply (InterpolationOperator_empty Sample.MaxPolylibPoint Sample.tolerence
           POLYTYPE_GAUSS (fun _ _ => 0%float) Sample.lobatto3 zero_view 70 0 0 0).
  right. lia.
Defined.
